(** * Founder Wisdom: the search core of [src/lib/search.js]

    A shallow embedding of [scoreRelevance], [extractExcerpt],
    [highlightTerms] and of the keyword ranking pipeline
    ([doKeywordSearch] in the page component), together with the part of
    the JavaScript string and RegExp built-ins these functions call.
    Further on come [formatNumber] of the same file and, of the collector
    [scripts/collect.mjs], [formatDuration], the long-form filter, the
    view count and the transcript text of [fetchTranscript].

    Data model.  A JavaScript string is a sequence of UTF-16 code units;
    here its code units are those below 256 (the Latin-1 range) and three
    more, on which the built-ins behave as on no Latin-1 code unit:
    U+0130, whose lower case has two code units (U+0069 U+0307), U+0307
    itself, and U+212A, whose lower case is [k] although the
    case-insensitive comparison of RegExp tells it from [k] and [K].  An
    absent ([undefined]) string field is the empty string: the source
    reads every field through [x || ''] or [!x], which do not tell the
    two apart.  Numbers that the
    code only ever uses as non-negative integers are [nat]; the results of
    [lastIndexOf], which may be [-1], are [Z]. *)

From Stdlib Require Import NArith Decimal DecimalFacts DecimalString DecimalPos DecimalN.
From Stdlib Require Import Ascii String ZArith Lia Bool Arith PeanoNat List Sorted.
Import ListNotations.

Set Implicit Arguments.

Local Open Scope nat_scope.

(** ** Strings *)

(** The code units of the model. *)
Inductive code_unit :=
| Latin (c : ascii)    (* a code unit below 256 *)
| U0130                (* LATIN CAPITAL LETTER I WITH DOT ABOVE *)
| U0307                (* COMBINING DOT ABOVE *)
| U212A.               (* KELVIN SIGN *)

Definition jsstring := list code_unit.

(** A string literal of the development, as a [jsstring]. *)
Definition js (s : string) : jsstring := map Latin (list_ascii_of_string s).

Definition code (c : code_unit) : nat :=
  match c with
  | Latin a => nat_of_ascii a
  | U0130 => 304
  | U0307 => 775
  | U212A => 33 * 256 + 42
  end.

(** [===] on code units. *)
Definition cu_eqb (c d : code_unit) : bool :=
  match c, d with
  | Latin a, Latin b => Ascii.eqb a b
  | U0130, U0130 | U0307, U0307 | U212A, U212A => true
  | _, _ => false
  end.

Definition cu_dec (c d : code_unit) : {c = d} + {c <> d}.
Proof. decide equality. apply ascii_dec. Defined.

Definition between (lo hi n : nat) : bool := (lo <=? n) && (n <=? hi).

(** [String.prototype.toLowerCase] on one code unit below 256: the ASCII
    capitals and the Latin-1 capitals (U+00C0..U+00DE without the
    multiplication sign U+00D7) move up by 32. *)
Definition lower_char (c : ascii) : ascii :=
  let n := nat_of_ascii c in
  if between 65 90 n || (between 192 222 n && negb (n =? 215))
  then ascii_of_nat (n + 32) else c.

(** The lower case of one code unit: that of U+0130 is the two code units
    U+0069 U+0307, that of U+212A is U+006B. *)
Definition lower_units (c : code_unit) : list code_unit :=
  match c with
  | Latin a => [Latin (lower_char a)]
  | U0130 => [Latin "i"%char; U0307]
  | U0307 => [U0307]
  | U212A => [Latin "k"%char]
  end.

(** [s.toLowerCase()] *)
Definition toLowerCase (s : jsstring) : jsstring := flat_map lower_units s.

(** [Canonicalize] of the RegExp semantics when [ignoreCase] is set and
    the pattern is not in Unicode mode: the code unit of the upper case of
    the character when that is one code unit, and the character itself
    otherwise.  Two Latin-1 characters have their upper case outside
    Latin-1 (U+00FF gives U+0178, U+00B5 gives U+039C); the sharp s
    (U+00DF) has a two-character upper case and stays as it is; U+0130,
    U+0307 and U+212A are their own upper case. *)
Definition canonicalize (c : code_unit) : nat :=
  let n := code c in
  if between 97 122 n || (between 224 254 n && negb (n =? 247)) then n - 32
  else if n =? 255 then 376
  else if n =? 181 then 924
  else n.

(** The characters matched by [\s] and stripped by [trim], among the code
    units of the model. *)
Definition is_ws (c : code_unit) : bool :=
  let n := code c in between 9 13 n || (n =? 32) || (n =? 160).

(** Line terminators, the characters [.] does not match. *)
Definition is_line_terminator (c : code_unit) : bool :=
  let n := code c in (n =? 10) || (n =? 13).

Fixpoint starts_with (t s : jsstring) : bool :=
  match t, s with
  | [], _ => true
  | _ :: _, [] => false
  | c :: t', d :: s' => cu_eqb c d && starts_with t' s'
  end.

(** [s.includes(t)] *)
Fixpoint includes (s t : jsstring) : bool :=
  starts_with t s ||
  match s with
  | [] => false
  | _ :: s' => includes s' t
  end.

(** [s.slice(a, b)] for non-negative integers [a] and [b]. *)
Definition slice (s : jsstring) (a b : nat) : jsstring :=
  firstn (b - a) (skipn a s).

Fixpoint lastIndexOf_aux (c : code_unit) (s : jsstring) (i pos : nat) (acc : Z) : Z :=
  match s with
  | [] => acc
  | d :: s' =>
      lastIndexOf_aux c s' (S i) pos
        (if (i <=? pos) && cu_eqb d c then Z.of_nat i else acc)
  end.

(** [s.lastIndexOf(c, pos)] for a one-character search string: the greatest
    index at most [pos] that holds [c], or [-1]. *)
Definition lastIndexOf (c : code_unit) (s : jsstring) (pos : nat) : Z :=
  lastIndexOf_aux c s 0 pos (-1)%Z.

Fixpoint drop_ws (s : jsstring) : jsstring :=
  match s with
  | [] => []
  | c :: s' => if is_ws c then drop_ws s' else s
  end.

(** [s.trim()] *)
Definition trim (s : jsstring) : jsstring := rev (drop_ws (rev (drop_ws s))).

Definition space : code_unit := Latin " "%char.

Definition ellipsis : jsstring := js "...".

(** ** The double [maxLen * 0.7]

    [0.7] is the double [mant_0_7 / 2^53].  The product of an integer
    [n] with it is rounded to 53 significant bits, ties to even.  The
    comparison [k > n * 0.7] of the source is decided exactly on integers. *)

Definition mant_0_7 : Z := 6305039478318694%Z.

(** The rounded product [n * 0.7], as the integer [q] with value [q / 2^53]. *)
Definition times_0_7 (n : nat) : Z :=
  let p := (Z.of_nat n * mant_0_7)%Z in
  let bits := (Z.log2 p + 1)%Z in
  if (bits <=? 53)%Z then p
  else
    let sh := (bits - 53)%Z in
    let q := Z.shiftr p sh in
    let r := (p - Z.shiftl q sh)%Z in
    let half := Z.shiftl 1 (sh - 1) in
    let q' := if (half <? r)%Z || ((r =? half)%Z && Z.odd q) then (q + 1)%Z else q in
    Z.shiftl q' sh.

(** [k > n * 0.7] *)
Definition gt_times_0_7 (k : Z) (n : nat) : bool :=
  (times_0_7 n <? k * 2 ^ 53)%Z.

(** ** Results of a call: a value or a thrown exception

    [OutOfModel] is not a JavaScript exception: it marks a pattern that
    uses RegExp syntax beyond the fragment modelled below, about which this
    development says nothing. *)

Inductive exn := SyntaxError | TypeError | OutOfModel.

Inductive outcome (A : Type) :=
| Ret (a : A)
| Throw (e : exn).

Arguments Throw {A} e.

Definition bind {A B} (m : outcome A) (f : A -> outcome B) : outcome B :=
  match m with
  | Ret a => f a
  | Throw e => Throw e
  end.

Notation "x <- m ;; k" := (bind m (fun x => k))
  (at level 61, m at next level, right associativity).

(** ** Regular expressions

    The fragment of the ECMAScript pattern syntax (without the [u] flag)
    that is modelled: pattern characters, [.], [\s], identity escapes of
    non-alphanumeric characters, [^], [$], [|], capturing and [(?:]
    groups, and the quantifiers [*], [+], [?] with their lazy forms. *)

Inductive regex :=
| Empty
| Chr (c : code_unit)
| Any
| Space
| Bol
| Eol
| Seq (r1 r2 : regex)
| Alt (r1 r2 : regex)
| Group (k : nat) (r : regex)
| Quant (r : regex) (min : nat) (max : option nat) (greedy : bool).

Inductive token :=
| TChr (c : code_unit)
| TAny
| TSpace
| TBol
| TEol
| TBar
| TOpen
| TOpenNC
| TClose
| TQuant (min : nat) (max : option nat) (greedy : bool)
| TDangling
| TOut.

Definition is_alnum (c : code_unit) : bool :=
  let n := code c in between 48 57 n || between 65 90 n || between 97 122 n.

Definition ch (s : string) : code_unit :=
  match s with
  | String c _ => Latin c
  | EmptyString => Latin zero
  end.

Definition is_char (s : string) (c : code_unit) : bool := cu_eqb c (ch s).

(** What follows a backslash. *)
Definition escape_token (c : code_unit) : token :=
  if is_char "s" c then TSpace
  else if is_alnum c then TOut
  else TChr c.

Definition quant_token (c : code_unit) (greedy : bool) : token :=
  if is_char "*" c then TQuant 0 None greedy
  else if is_char "+" c then TQuant 1 None greedy
  else TQuant 0 (Some 1) greedy.

Definition is_quant_char (c : code_unit) : bool :=
  is_char "*" c || is_char "+" c || is_char "?" c.

Definition simple_token (c : code_unit) : token :=
  if is_char "." c then TAny
  else if is_char "^" c then TBol
  else if is_char "$" c then TEol
  else if is_char "|" c then TBar
  else if is_char ")" c then TClose
  else if is_char "[" c then TOut
  else if is_char "{" c then TOut
  else TChr c.

Fixpoint tokenize (p : jsstring) : list token :=
  match p with
  | [] => []
  | c :: p1 =>
      if is_char "\" c then
        match p1 with
        | [] => [TDangling]
        | d :: p2 => escape_token d :: tokenize p2
        end
      else if is_char "(" c then
        match p1 with
        | d :: p2 =>
            if is_char "?" d then
              match p2 with
              | e :: p3 => if is_char ":" e then TOpenNC :: tokenize p3
                           else TOut :: tokenize p3
              | [] => [TOut]
              end
            else TOpen :: tokenize p1
        | [] => [TOpen]
        end
      else if is_quant_char c then
        match p1 with
        | d :: p2 =>
            if is_char "?" d then quant_token c false :: tokenize p2
            else quant_token c true :: tokenize p1
        | [] => [quant_token c true]
        end
      else simple_token c :: tokenize p1
  end.

(** *** Parsing: a stack of open groups *)

Record frame := {
  f_kind : option nat;       (* [Some k]: capturing group number [k] *)
  f_alts : list regex;       (* finished alternatives, last first *)
  f_cur : list regex;        (* terms of the current alternative, last first *)
  f_quantifiable : bool      (* may a quantifier follow the last term? *)
}.

Definition mk_seq (l : list regex) : regex := fold_right Seq Empty l.

Fixpoint mk_alt (r : regex) (l : list regex) : regex :=
  match l with
  | [] => r
  | r' :: l' => Alt r (mk_alt r' l')
  end.

(** The disjunction a frame holds, alternatives in source order. *)
Definition finish (f : frame) : regex :=
  match rev (mk_seq (rev (f_cur f)) :: f_alts f) with
  | [] => Empty
  | r :: l => mk_alt r l
  end.

Definition empty_frame (k : option nat) : frame :=
  {| f_kind := k; f_alts := []; f_cur := []; f_quantifiable := false |}.

Definition push_term (r : regex) (q : bool) (f : frame) : frame :=
  {| f_kind := f_kind f; f_alts := f_alts f; f_cur := r :: f_cur f;
     f_quantifiable := q |}.

Definition pstate := (list frame * nat)%type.

Definition parse_step (st : pstate) (t : token) : outcome pstate :=
  let '(stack, next) := st in
  match stack with
  | [] => Throw SyntaxError
  | f :: outer =>
      match t with
      | TChr c => Ret (push_term (Chr c) true f :: outer, next)
      | TAny => Ret (push_term Any true f :: outer, next)
      | TSpace => Ret (push_term Space true f :: outer, next)
      | TBol => Ret (push_term Bol false f :: outer, next)
      | TEol => Ret (push_term Eol false f :: outer, next)
      | TBar =>
          Ret ({| f_kind := f_kind f;
                  f_alts := mk_seq (rev (f_cur f)) :: f_alts f;
                  f_cur := []; f_quantifiable := false |} :: outer, next)
      | TOpen => Ret (empty_frame (Some next) :: stack, S next)
      | TOpenNC => Ret (empty_frame None :: stack, next)
      | TClose =>
          match outer with
          | [] => Throw SyntaxError
          | g :: outer' =>
              let r := match f_kind f with
                       | Some k => Group k (finish f)
                       | None => finish f
                       end in
              Ret (push_term r true g :: outer', next)
          end
      | TQuant mn mx greedy =>
          match f_cur f, f_quantifiable f with
          | a :: cur, true =>
              Ret ({| f_kind := f_kind f; f_alts := f_alts f;
                      f_cur := Quant a mn mx greedy :: cur;
                      f_quantifiable := false |} :: outer, next)
          | _, _ => Throw SyntaxError
          end
      | TDangling => Throw SyntaxError
      | TOut => Throw OutOfModel
      end
  end.

Fixpoint parse_tokens (st : pstate) (ts : list token) : outcome pstate :=
  match ts with
  | [] => Ret st
  | t :: ts' => st' <- parse_step st t ;; parse_tokens st' ts'
  end.

Definition is_out (t : token) : bool :=
  match t with
  | TOut => true
  | _ => false
  end.

(** A compiled pattern: its syntax tree and its number of capturing groups. *)
Record pattern := { p_regex : regex; p_groups : nat }.

Definition parse_pattern (p : jsstring) : outcome pattern :=
  let ts := tokenize p in
  if existsb is_out ts then Throw OutOfModel
  else
    st <- parse_tokens ([empty_frame None], 0) ts ;;
    match st with
    | ([f], n) => Ret {| p_regex := finish f; p_groups := n |}
    | _ => Throw SyntaxError
    end.

(** A RegExp object without its [lastIndex], which the callers thread. *)
Record RegExp := {
  re_pattern : pattern;
  re_ignoreCase : bool;
  re_global : bool
}.

(** [new RegExp(p, 'gi')] *)
Definition RegExp_gi (p : jsstring) : outcome RegExp :=
  pat <- parse_pattern p ;;
  Ret {| re_pattern := pat; re_ignoreCase := true; re_global := true |}.

(** The regex literal [/\s+/] *)
Definition re_spaces : RegExp :=
  {| re_pattern := {| p_regex := Quant Space 1 None true; p_groups := 0 |};
     re_ignoreCase := false; re_global := false |}.

(** *** Matching: every way a pattern can match from a state, in the order
    in which the backtracking matcher of the language tries them *)

Definition captures := list (option (nat * nat)).

Definition mstate := (nat * captures)%type.

Fixpoint set_capture (k : nat) (v : option (nat * nat)) (c : captures) : captures :=
  match c, k with
  | [], _ => []
  | _ :: c', 0 => v :: c'
  | x :: c', S k' => x :: set_capture k' v c'
  end.

Fixpoint groups_of (r : regex) : list nat :=
  match r with
  | Seq r1 r2 | Alt r1 r2 => groups_of r1 ++ groups_of r2
  | Group k r' => k :: groups_of r'
  | Quant r' _ _ _ => groups_of r'
  | _ => []
  end.

Definition reset_captures (ks : list nat) (c : captures) : captures :=
  fold_right (fun k c' => set_capture k None c') c ks.

Definition char_matches (ic : bool) (c x : code_unit) : bool :=
  if ic then canonicalize c =? canonicalize x else cu_eqb c x.

Definition on_char (s : jsstring) (x : mstate) (f : code_unit -> bool) : list mstate :=
  match nth_error s (fst x) with
  | Some d => if f d then [(S (fst x), snd x)] else []
  | None => []
  end.

Definition pred_max (mx : option nat) : option nat :=
  match mx with
  | Some n => Some (pred n)
  | None => None
  end.

Section Matcher.

Variable ic : bool.
Variable s : jsstring.

(** The repetition of a matcher [m], following [RepeatMatcher]: an
    iteration that is not required and consumes nothing is rejected.  The
    fuel bounds the number of iterations; [min + (length - index) + 1] is
    enough, since every iteration lowers [min] or moves the index. *)
Fixpoint repeat_ends (m : mstate -> list mstate) (ks : list nat) (greedy : bool)
    (fuel mn : nat) (mx : option nat) (x : mstate) : list mstate :=
  match mx with
  | Some 0 => [x]
  | _ =>
      match fuel with
      | 0 => []
      | S fuel' =>
          let xr := (fst x, reset_captures ks (snd x)) in
          let iter :=
            flat_map (fun y =>
                        if (mn =? 0) && (fst y =? fst x) then []
                        else repeat_ends m ks greedy fuel' (pred mn) (pred_max mx) y)
                     (m xr) in
          if negb (mn =? 0) then iter
          else if greedy then iter ++ [x]
          else x :: iter
      end
  end.

Fixpoint ends (r : regex) (x : mstate) : list mstate :=
  match r with
  | Empty => [x]
  | Chr c => on_char s x (char_matches ic c)
  | Any => on_char s x (fun d => negb (is_line_terminator d))
  | Space => on_char s x is_ws
  | Bol => if fst x =? 0 then [x] else []
  | Eol => if fst x =? length s then [x] else []
  | Seq r1 r2 => flat_map (ends r2) (ends r1 x)
  | Alt r1 r2 => ends r1 x ++ ends r2 x
  | Group k r' =>
      map (fun y => (fst y, set_capture k (Some (fst x, fst y)) (snd y))) (ends r' x)
  | Quant r' mn mx greedy =>
      repeat_ends (ends r') (groups_of r') greedy
        (mn + (length s - fst x) + 1) mn mx x
  end.

End Matcher.

(** The match of [re] against [s] that starts exactly at index [i]. *)
Definition exec_at (re : RegExp) (s : jsstring) (i : nat) : option mstate :=
  hd_error (ends (re_ignoreCase re) s (p_regex (re_pattern re))
                 (i, repeat None (p_groups (re_pattern re)))).

(** The first match that starts at one of the [n] indices from [i] on. *)
Fixpoint search (re : RegExp) (s : jsstring) (n i : nat) : option (nat * mstate) :=
  match n with
  | 0 => None
  | S n' =>
      match exec_at re s i with
      | Some m => Some (i, m)
      | None => search re s n' (S i)
      end
  end.

(** [RegExpBuiltinExec] of a global, non-sticky RegExp whose [lastIndex]
    is [li]: the match, with the index where it starts, or [None]. *)
Definition exec_global (re : RegExp) (s : jsstring) (li : nat) : option (nat * mstate) :=
  search re s (S (length s) - li) li.

(** [re.test(s)] on a global RegExp: the answer and the new [lastIndex]. *)
Definition test (re : RegExp) (s : jsstring) (li : nat) : bool * nat :=
  match exec_global re s li with
  | Some (_, m) => (true, fst m)
  | None => (false, 0)
  end.

(** The loop of [s.match(re)] for a global [re]: the number of matches
    found from [lastIndex = li] on.  After an empty match [lastIndex]
    moves by one.  [length s + 2 - li] iterations are enough. *)
Fixpoint match_loop (re : RegExp) (s : jsstring) (fuel li : nat) : nat :=
  match fuel with
  | 0 => 0
  | S fuel' =>
      match exec_global re s li with
      | None => 0
      | Some (st, m) =>
          S (match_loop re s fuel' (if fst m =? st then S (fst m) else fst m))
      end
  end.

(** The length of the array [s.match(re)] returns, 0 when it returns [null]. *)
Definition match_count (re : RegExp) (s : jsstring) : nat :=
  match_loop re s (length s + 2) 0.

Definition capture_text (s : jsstring) (c : option (nat * nat)) : option jsstring :=
  match c with
  | Some (a, b) => Some (slice s a b)
  | None => None
  end.

(** The loop of [RegExp.prototype[Symbol.split]]: [p] is the end of the
    last delimiter, [q] the index tried next; the match is sticky.  An
    element of the result is [None] for a capture that is [undefined]. *)
Fixpoint split_loop (re : RegExp) (s : jsstring) (fuel p q : nat) : list (option jsstring) :=
  match fuel with
  | 0 => [Some (slice s p (length s))]
  | S fuel' =>
      if q <? length s then
        match exec_at re s q with
        | None => split_loop re s fuel' p (S q)
        | Some (e0, caps) =>
            let e := Nat.min e0 (length s) in
            if e =? p then split_loop re s fuel' p (S q)
            else Some (slice s p q) :: map (capture_text s) caps
                   ++ split_loop re s fuel' e e
        end
      else [Some (slice s p (length s))]
  end.

(** [s.split(re)] (without a limit) *)
Definition split (re : RegExp) (s : jsstring) : list (option jsstring) :=
  match s with
  | [] => match exec_at re s 0 with
          | Some _ => []
          | None => [Some s]
          end
  | _ => split_loop re s (2 * length s + 2) 0 0
  end.

(** [s.match(re)] for a global [re]: [None] is [null], [Some n] an array
    of [n] matches. *)
Definition str_match (re : RegExp) (s : jsstring) : option nat :=
  match match_count re s with
  | 0 => None
  | n => Some n
  end.

(** ** The search functions of [src/lib/search.js] *)

Record video := {
  v_id : jsstring;
  title : jsstring;
  description : jsstring;
  transcript : jsstring;
  transcriptAvailable : bool
}.

(** [.filter(t => t.length > 1)] on the result of a [split]; reading the
    length of an [undefined] element throws. *)
Fixpoint filter_long (parts : list (option jsstring)) : outcome (list jsstring) :=
  match parts with
  | [] => Ret []
  | None :: _ => Throw TypeError
  | Some t :: rest =>
      l <- filter_long rest ;;
      Ret (if 1 <? length t then t :: l else l)
  end.

(** [q.split(/\s+/).filter(t => t.length > 1)] *)
Definition split_terms (q : jsstring) : outcome (list jsstring) :=
  filter_long (split re_spaces q).

(** The loop of [scoreRelevance] over the terms. *)
Fixpoint score_terms (ttl text desc : jsstring) (terms : list jsstring) (score : nat)
    : outcome nat :=
  match terms with
  | [] => Ret score
  | term :: rest =>
      let score := if includes ttl term then score + 5 else score in
      let score := if includes desc term then score + 2 else score in
      regex <- RegExp_gi term ;;
      let score := match str_match regex text with
                   | Some n => score + Nat.min n 20
                   | None => score
                   end in
      score_terms ttl text desc rest score
  end.

Definition scoreRelevance (v : video) (query : jsstring) : outcome nat :=
  match query with
  | [] => Ret 0
  | _ =>
      terms <- split_terms (toLowerCase query) ;;
      let ttl := toLowerCase (title v) in
      let text := toLowerCase (transcript v) in
      let desc := toLowerCase (description v) in
      score <- score_terms ttl text desc terms 0 ;;
      let score := if includes text (toLowerCase query) then score + 15 else score in
      let score := if includes ttl (toLowerCase query) then score + 25 else score in
      Ret score
  end.

(** The inner loop of [extractExcerpt]: the matches of the terms in a window. *)
Fixpoint window_score (window : jsstring) (terms : list jsstring) (s : nat)
    : outcome nat :=
  match terms with
  | [] => Ret s
  | term :: rest =>
      regex <- RegExp_gi term ;;
      window_score window rest
        (match str_match regex window with
         | Some n => s + n
         | None => s
         end)
  end.

(** The outer loop, [for (let i = 0; i < lower.length - 100; i += step)],
    from index [i] on; it returns [(bestPos, bestScore)].  The loop runs
    at most [length lower] times, which is the fuel it is given. *)
Fixpoint scan_windows (lower : jsstring) (terms : list jsstring) (maxLen : nat)
    (fuel i bestPos bestScore : nat) : outcome (nat * nat) :=
  if i + 100 <? length lower then
    match fuel with
    | 0 => Ret (bestPos, bestScore)
    | S fuel' =>
        s <- window_score (slice lower i (i + maxLen)) terms 0 ;;
        if bestScore <? s
        then scan_windows lower terms maxLen fuel' (i + 30) i s
        else scan_windows lower terms maxLen fuel' (i + 30) bestPos bestScore
    end
  else Ret (bestPos, bestScore).

(** What [extractExcerpt] has computed when it reaches its last line. *)
Record excerpt_parts := {
  x_start : nat;
  x_prefix : jsstring;
  x_excerpt : jsstring;
  x_suffix : jsstring
}.

(** [extractExcerpt] past its two guards. *)
Definition excerpt_parts_of (text query : jsstring) (maxLen : nat) : outcome excerpt_parts :=
  let lower := toLowerCase text in
  terms <- split_terms (toLowerCase query) ;;
  best <- scan_windows lower terms maxLen (length lower) 0 0 0 ;;
  let bestPos := fst best in
  let start := Z.to_nat (Z.max 0 (lastIndexOf space text bestPos + 1)) in
  let excerpt := slice text start (start + maxLen) in
  let lastSpace := lastIndexOf space excerpt (length excerpt) in
  let excerpt := if gt_times_0_7 lastSpace maxLen
                 then slice excerpt 0 (Z.to_nat lastSpace) else excerpt in
  let prefix := if 0 <? start then ellipsis else [] in
  let suffix := if start + maxLen <? length text then ellipsis else [] in
  Ret {| x_start := start; x_prefix := prefix; x_excerpt := excerpt;
         x_suffix := suffix |}.

Definition extractExcerpt (text query : jsstring) (maxLen : nat) : outcome jsstring :=
  match text with
  | [] => Ret []
  | _ =>
      match query with
      | [] => Ret (slice text 0 maxLen
                     ++ (if maxLen <? length text then ellipsis else []))
      | _ =>
          x <- excerpt_parts_of text query maxLen ;;
          Ret (x_prefix x ++ x_excerpt x ++ x_suffix x)
      end
  end.

(** The default [maxLen]. *)
Definition default_maxLen : nat := 350.

(** The characters of the class [[.*+?^${}()|[\]\\]]. *)
Definition is_special (c : code_unit) : bool :=
  existsb (cu_eqb c) (js ".*+?^${}()|[]\").

(** [t.replace(/[.*+?^${}()|[\]\\]/g, '\\$&')] *)
Definition escape_term (t : jsstring) : jsstring :=
  flat_map (fun c => if is_special c then [ch "\"; c] else [c]) t.

(** [l.join('|')] *)
Fixpoint join_bar (l : list jsstring) : jsstring :=
  match l with
  | [] => []
  | [t] => t
  | t :: l' => t ++ ch "|" :: join_bar l'
  end.

(** A span; its text is [None] when the element of the split was
    [undefined]. *)
Record span := { sp_text : option jsstring; highlight : bool }.

(** [terms.some(t => part.toLowerCase() === t.toLowerCase())] *)
Definition equals_some_term (terms : list jsstring) (part : jsstring) : bool :=
  existsb (fun t => if list_eq_dec cu_dec (toLowerCase part) (toLowerCase t)
                    then true else false) terms.

(** The [map] of [highlightTerms]; [li] is the [lastIndex] of the one
    RegExp all the calls of [test] share.  [test] turns an [undefined]
    part into the string [undefined]; calling [toLowerCase] on it throws. *)
Fixpoint label_parts (regex : RegExp) (terms : list jsstring)
    (parts : list (option jsstring)) (li : nat) : outcome (list span) :=
  match parts with
  | [] => Ret []
  | part :: rest =>
      let subject := match part with
                     | Some p => p
                     | None => js "undefined"
                     end in
      let '(found, li') := test regex subject li in
      hl <- (if found then Ret true
             else match part, terms with
                  | _, [] => Ret false
                  | Some p, _ => Ret (equals_some_term terms p)
                  | None, _ => Throw TypeError
                  end) ;;
      spans <- label_parts regex terms rest li' ;;
      Ret ({| sp_text := part; highlight := hl |} :: spans)
  end.

Definition highlightTerms (text query : jsstring) : outcome (list span) :=
  match text, query with
  | [], _ | _, [] => Ret [{| sp_text := Some text; highlight := false |}]
  | _, _ =>
      terms <- split_terms query ;;
      match terms with
      | [] => Ret [{| sp_text := Some text; highlight := false |}]
      | _ =>
          let pattern := join_bar (map escape_term terms) in
          regex <- RegExp_gi (ch "(" :: pattern ++ [ch ")"]) ;;
          label_parts regex terms (split regex text) 0
      end
  end.

(** ** The ranking pipeline, [doKeywordSearch] of the page component *)

Record scored := {
  s_video : video;
  score : nat;
  excerpt : jsstring
}.

(** [.map(v => ({...v, score: scoreRelevance(v, query),
                 excerpt: extractExcerpt(v.transcript, query)}))] *)
Fixpoint score_all (vs : list video) (query : jsstring) : outcome (list scored) :=
  match vs with
  | [] => Ret []
  | v :: vs' =>
      sc <- scoreRelevance v query ;;
      ex <- extractExcerpt (transcript v) query default_maxLen ;;
      rest <- score_all vs' query ;;
      Ret ({| s_video := v; score := sc; excerpt := ex |} :: rest)
  end.

(** [.sort((a, b) => b.score - a.score)]: the sort is stable, so an
    element goes before the first one that does not have a greater score
    among those that followed it. *)
Fixpoint insert_by_score (x : scored) (l : list scored) : list scored :=
  match l with
  | [] => [x]
  | y :: l' => if score y <=? score x then x :: l
               else y :: insert_by_score x l'
  end.

Definition sort_by_score (l : list scored) : list scored :=
  fold_right insert_by_score [] l.

Definition result_limit : nat := 25.

(** [doKeywordSearch]: [None] when it returns without setting the
    results, [Some l] when it calls [setResults(l)].  The database is
    [None] while it is not loaded. *)
Definition doKeywordSearch (database : option (list video)) (query : jsstring)
    : outcome (option (list scored)) :=
  match database, trim query with
  | None, _ | _, [] => Ret None
  | Some videos, _ =>
      let videosWithTranscripts := filter transcriptAvailable videos in
      all <- score_all videosWithTranscripts query ;;
      Ret (Some (firstn result_limit
                   (sort_by_score (filter (fun v => 0 <? score v) all))))
  end.

(** * Definitions used in the statements and in the proofs *)

(** No element of the result of a [split] is [undefined]. *)
Definition all_defined (parts : list (option jsstring)) : Prop :=
  Forall (fun o => o <> None) parts.

(** A document with a transcript, given by its title, description and body. *)
Definition sample_video (t d b : string) : video :=
  {| v_id := js "v"; title := js t; description := js d; transcript := js b;
     transcriptAvailable := true |}.

(** The two whole-query bonuses of [scoreRelevance]. *)
Definition phrase_bonus (v : video) (query : jsstring) : nat :=
  (if includes (toLowerCase (transcript v)) (toLowerCase query) then 15 else 0)
  + (if includes (toLowerCase (title v)) (toLowerCase query) then 25 else 0).

(** A body of 60 code units whose lower case has 120. *)
Definition dotted_I_body : jsstring := repeat U0130 60.

(** A body of 300 characters whose only space is at index 250. *)
Definition body_300 : jsstring :=
  repeat (ch "x") 250 ++ space :: repeat (ch "y") 49.

(** Scores in non-increasing order. *)
Definition by_score_desc (a b : scored) : Prop := score b <= score a.

(** Four documents, two of which match the query [saas]. *)
Definition sample_database : list video :=
  [ sample_video "pricing" "d" "nothing here";
    sample_video "other" "d" "saas saas saas";
    sample_video "third" "d" "no match";
    sample_video "saas" "d" "about saas" ].

(** The 259 code units of the model. *)
Definition all_chars : list code_unit :=
  map (fun n => Latin (ascii_of_nat n)) (seq 0 256) ++ [U0130; U0307; U212A].

(** A code unit below 256. *)
Definition is_latin (c : code_unit) : bool :=
  match c with
  | Latin _ => true
  | _ => false
  end.

(** A code unit that is its own lower case. *)
Definition lowered (c : code_unit) : Prop := lower_units c = [c].

(** Equality of two strings, as a boolean. *)
Definition same_units (l1 l2 : list code_unit) : bool :=
  if list_eq_dec cu_dec l1 l2 then true else false.

(** Does [s] begin with [t], characters compared as a pattern compares them? *)
Fixpoint ci_starts (ic : bool) (t s : jsstring) : bool :=
  match t, s with
  | [], _ => true
  | _ :: _, [] => false
  | c :: t', d :: s' => char_matches ic c d && ci_starts ic t' s'
  end.

(** The syntax tree of a pattern made of the pattern characters [t]. *)
Definition literal (t : jsstring) : regex := mk_seq (map Chr t).

(** The hits of [P] in [s] from left to right, the [k] characters of a
    hit being passed over; [skip] characters are still to pass over. *)
Fixpoint count_hits (P : jsstring -> bool) (k : nat) (s : jsstring) (skip : nat) : nat :=
  match s with
  | [] => 0
  | _ :: s' =>
      match skip with
      | S n => count_hits P k s' n
      | 0 => if P s then S (count_hits P k s' (k - 1)) else count_hits P k s' 0
      end
  end.

(** The occurrences of [t] in [s], case ignored, counted from left to
    right without overlap. *)
Definition occurrences (t s : jsstring) : nat :=
  count_hits (starts_with (toLowerCase t)) (length t) (toLowerCase s) 0.

(** The pattern compiled from a term without metacharacters, with the
    flags [gi]. *)
Definition literal_gi (t : jsstring) : RegExp :=
  {| re_pattern := {| p_regex := literal t; p_groups := 0 |};
     re_ignoreCase := true; re_global := true |}.

(** The title of the worked example of the specification. *)
Definition example_title : jsstring := js "How I bootstrapped my SaaS to $1M".

(** A body with 3 occurrences of [bootstrap] and 5 of [SaaS], case ignored. *)
Definition example_body : jsstring :=
  js "We bootstrap. To bootstrap a SaaS, Bootstrap! saas SAAS and SaaS or saas.".

(** The tokens of the joined, escaped terms. *)
Fixpoint alt_tokens (terms : list jsstring) : list token :=
  match terms with
  | [] => []
  | [t] => map TChr t
  | t :: rest => map TChr t ++ TBar :: alt_tokens rest
  end.

(** The pattern [(t1|...|tn)] of [highlightTerms]. *)
Definition highlight_source (terms : list jsstring) : jsstring :=
  ch "(" :: join_bar (map escape_term terms) ++ [ch ")"].

(** A disjunction, alternatives in order. *)
Definition disj (l : list regex) : regex :=
  match l with
  | [] => Empty
  | r :: l' => mk_alt r l'
  end.

(** The RegExp that [highlightTerms] compiles for its terms. *)
Definition highlight_regex (terms : list jsstring) : RegExp :=
  {| re_pattern := {| p_regex := Seq (Group 0 (disj (map literal terms))) Empty;
                      p_groups := 1 |};
     re_ignoreCase := true; re_global := true |}.

(** The first term, in the order of the query, that the text [x] begins
    with; this is the match of the disjunction at the start of [x]. *)
Definition first_term (terms : list jsstring) (x : jsstring) : option jsstring :=
  find (fun t => ci_starts true t x) terms.

(** A fragment between two matches: no term matches anywhere in it. *)
Definition is_gap (terms : list jsstring) (g : jsstring) : Prop :=
  forall j, first_term terms (skipn j g) = None.

(** A fragment of a split is a gap or what a term matched. *)
Definition is_fragment (terms : list jsstring) (x : jsstring) : Prop :=
  is_gap terms x \/ equals_some_term terms x = true.

(** The span of a fragment, highlighted when it equals a term, case ignored. *)
Definition labelled (terms : list jsstring) (p : jsstring) : span :=
  {| sp_text := Some p; highlight := equals_some_term terms p |}.

(** The characters a span contributes when the spans are concatenated. *)
Definition span_chars (sp : span) : jsstring :=
  match sp_text sp with
  | Some p => p
  | None => js "undefined"
  end.

(** A matcher moves forward and stays within the text. *)
Definition advances (s : jsstring) (m : mstate -> list mstate) : Prop :=
  forall x y, In y (m x) ->
    fst x <= fst y /\ (fst x <= length s -> fst y <= length s).

(** A term none of whose characters is in the escaped class. *)
Definition plain (t : jsstring) : Prop :=
  forallb (fun c => negb (is_special c)) t = true.

(** * Further definitions: statements about the search functions *)


(** A document whose title is the term [saas] and whose body repeats it
    30 times. *)
Definition saas_30_video : video :=
  {| v_id := js "v"; title := js "saas"; description := js "d";
     transcript := concat (repeat (js "saas") 30); transcriptAvailable := true |}.

(** Fragments that are in turn a gap and what a term matched, from a gap
    to a gap. *)
Fixpoint alternating (terms : list jsstring) (pieces : list jsstring) : Prop :=
  match pieces with
  | [] => False
  | g :: rest =>
      is_gap terms g /\
      match rest with
      | [] => True
      | d :: rest' => equals_some_term terms d = true /\ alternating terms rest'
      end
  end.

(** The labels of [2 * n + 1] spans of which every second one is highlighted. *)
Fixpoint alternate_labels (n : nat) : list bool :=
  match n with
  | 0 => [false]
  | S n' => false :: true :: alternate_labels n'
  end.

(** Three documents, the first two of which score the same for [saas]. *)
Definition tied_database : list video :=
  [ sample_video "first" "d" "saas one";
    sample_video "second" "d" "saas two";
    sample_video "saas" "d" "three" ].

(** * Further definitions: numbers as text

    A JavaScript number that the code uses as a non-negative integer is an
    [N]; the arithmetic of the source on such numbers (division followed
    by [Math.floor], remainder, sums of products) is exact as long as the
    numbers stay below [2^52], which is assumed of the durations, view
    counts and word counts modelled here. *)

(** [String(n)] for a non-negative integer: its decimal digits. *)
Definition decimal (n : N) : jsstring :=
  js (NilEmpty.string_of_uint (N.to_uint n)).

Definition is_digit (c : code_unit) : bool := between 48 57 (code c).

Definition digit_value (c : code_unit) : N := N.of_nat (code c - 48).

(** The number that the digits of [s] spell after the digits already
    read spell [acc]; [None] when [s] holds a character that is no digit. *)
Fixpoint digits_fold (s : jsstring) (acc : N) : option N :=
  match s with
  | [] => Some acc
  | c :: s' => if is_digit c then digits_fold s' (10 * acc + digit_value c)
               else None
  end.

(** [s.padStart(2, '0')] *)
Definition padStart2 (s : jsstring) : jsstring :=
  repeat (ch "0") (2 - length s) ++ s.

(** [s.split(sep)] for a separator of one character. *)
Fixpoint split_on (sep : code_unit) (s : jsstring) : list jsstring :=
  match s with
  | [] => [[]]
  | c :: s' =>
      if cu_eqb c sep then [] :: split_on sep s'
      else match split_on sep s' with
           | p :: ps => (c :: p) :: ps
           | [] => [[c]]
           end
  end.

(** [Number(s)] for the strings on which it is modelled: the empty string
    is 0 and a string of decimal digits is the number it spells.  [None]
    marks every other string (signs, fractions, exponents, other
    radices, surrounding blanks, and what is no number at all). *)
Definition Number_of (s : jsstring) : option N :=
  match s with
  | [] => Some 0%N
  | _ => digits_fold s 0
  end.

(** ** The collector, [scripts/collect.mjs] *)

(** [formatDuration] *)
Definition formatDuration (seconds : N) : jsstring :=
  let h := (seconds / 3600)%N in
  let m := ((seconds mod 3600) / 60)%N in
  let s := (seconds mod 60)%N in
  if (0 <? h)%N
  then decimal h ++ ch ":" :: padStart2 (decimal m) ++ ch ":" :: padStart2 (decimal s)
  else decimal m ++ ch ":" :: padStart2 (decimal s).

Definition MIN_DURATION_SECONDS : N := 120.

(** What the filter of [collect] reads of an item of the playlist:
    [duration] when it is a string, [durationSec] when it is a number. *)
Record playlist_item := {
  i_duration : option jsstring;
  i_durationSec : option N
}.

(** The [durationSec] that the filter computes and stores in the item;
    [None] when a part of the duration is a string on which [Number] is
    not modelled. *)
Definition item_seconds (item : playlist_item) : option N :=
  match i_duration item with
  | Some d =>
      match map Number_of (split_on (ch ":") d) with
      | [Some a; Some b; Some c] => Some (a * 3600 + b * 60 + c)%N
      | [Some a; Some b] => Some (a * 60 + b)%N
      | [_; _; _] | [_; _] => None
      | _ => Some 0%N
      end
  | None =>
      match i_durationSec item with
      | Some n => Some n
      | None => Some 0%N
      end
  end.

(** The predicate of [playlist.items.filter]: is the item kept as long-form? *)
Definition is_long_form (item : playlist_item) : option bool :=
  option_map (fun sec => (MIN_DURATION_SECONDS <=? sec)%N) (item_seconds item).

(** [parseInt(String(views || '0').replace(/[^0-9]/g, ''), 10) || 0], on
    [String(views)]: the digits of the text, read as one number. *)
Definition view_count (views : jsstring) : N :=
  let text := match views with
              | [] => js "0"
              | _ => views
              end in
  match filter is_digit text with
  | [] => 0%N
  | digits => match digits_fold digits 0 with
              | Some n => n
              | None => 0%N
              end
  end.

(** ** Doubles: the quotient of two integers and [toFixed]

    A positive double is written [(m, e)] for the value [m * 2^e], its
    significand [m] having 53 bits. *)

(** The double [n / d] for integers [n >= d > 0] below [2^53]: the exact
    quotient rounded to 53 significant bits, ties to even. *)
Definition fl_div (n d : Z) : Z * Z :=
  let e := (Z.log2 (n / d) - 52)%Z in
  let num := (n * 2 ^ Z.max 0 (- e))%Z in
  let den := (d * 2 ^ Z.max 0 e)%Z in
  let q := (num / den)%Z in
  let r := (num mod den)%Z in
  (if (den <? 2 * r)%Z || ((2 * r =? den)%Z && Z.odd q) then (q + 1)%Z else q, e).

(** The integer [n] of [Number.prototype.toFixed]: the one for which
    [n / 10^f - x] is as close to zero as possible, the larger one when
    there are two. *)
Definition toFixed_integer (f : nat) (x : Z * Z) : Z :=
  let num := (fst x * 10 ^ Z.of_nat f)%Z in
  if (0 <=? snd x)%Z then (num * 2 ^ snd x)%Z
  else (2 * num + 2 ^ (- snd x)) / (2 * 2 ^ (- snd x)).

(** [x.toFixed(f)] for a positive double [x] below [10^21]. *)
Definition toFixed (f : nat) (x : Z * Z) : jsstring :=
  let digits := decimal (Z.to_N (toFixed_integer f x)) in
  match f with
  | 0 => digits
  | _ =>
      let padded := repeat (ch "0") (S f - length digits) ++ digits in
      firstn (length padded - f) padded ++ ch "." :: skipn (length padded - f) padded
  end.

(** [formatNumber] of [src/lib/search.js], on a non-negative integer. *)
Definition formatNumber (n : N) : jsstring :=
  if (n =? 0)%N then js "0"
  else if (1000000 <=? n)%N then toFixed 1 (fl_div (Z.of_N n) 1000000) ++ js "M"
  else if (1000 <=? n)%N then toFixed 0 (fl_div (Z.of_N n) 1000) ++ js "K"
  else decimal n.

(** The digits of a string as a [uint] of the Standard Library, used in
    the proofs about [decimal]. *)
Fixpoint uint_of_digits (s : jsstring) : uint :=
  match s with
  | [] => Nil
  | c :: s' =>
      match digit_value c with
      | 0 => D0 | 1 => D1 | 2 => D2 | 3 => D3 | 4 => D4
      | 5 => D5 | 6 => D6 | 7 => D7 | 8 => D8 | _ => D9
      end%N (uint_of_digits s')
  end.

(** ** [String.prototype.replace] with a global RegExp *)

(** The loop of [RegExp.prototype[Symbol.replace]] for a global [re] and a
    replacement [rep] that holds no [$]: [li] is [lastIndex] and [next]
    the end of the last match replaced.  A match that starts before [next]
    is skipped; after an empty match [lastIndex] moves by one.
    [length s + 2 - li] iterations are enough. *)
Fixpoint replace_loop (re : RegExp) (s rep : jsstring) (fuel li next : nat) : jsstring :=
  match fuel with
  | 0 => slice s next (length s)
  | S fuel' =>
      match exec_global re s li with
      | None => slice s next (length s)
      | Some (st, m) =>
          let li' := if fst m =? st then S (fst m) else fst m in
          if next <=? st
          then slice s next st ++ rep ++ replace_loop re s rep fuel' li' (fst m)
          else replace_loop re s rep fuel' li' next
      end
  end.

(** [s.replace(re, rep)] *)
Definition replace (re : RegExp) (s rep : jsstring) : jsstring :=
  replace_loop re s rep (length s + 2) 0 0.

(** [parts.join(sep)] *)
Fixpoint join (sep : jsstring) (parts : list jsstring) : jsstring :=
  match parts with
  | [] => []
  | a :: rest =>
      match rest with
      | [] => a
      | _ :: _ => a ++ sep ++ join sep rest
      end
  end.

(** ** The transcript text of [fetchTranscript], [scripts/collect.mjs] *)

(** A regex literal with the flag [g] and no capturing group. *)
Definition global (r : regex) (ic : bool) : RegExp :=
  {| re_pattern := {| p_regex := r; p_groups := 0 |};
     re_ignoreCase := ic; re_global := true |}.

(** [fullText], from the texts of the segments. *)
Definition fullText (segments : list jsstring) : jsstring :=
  let t := join [space] segments in
  let t := replace (global (literal (js "[Music]")) true) t [] in
  let t := replace (global (literal (js "[Applause]")) true) t [] in
  let t := replace (global (literal (js "&amp;")) false) t (js "&") in
  let t := replace (global (literal (js "&lt;")) false) t (js "<") in
  let t := replace (global (literal (js "&gt;")) false) t (js ">") in
  let t := replace (global (literal (js "&#39;")) false) t (js "'") in
  let t := replace (global (literal (js "&quot;")) false) t [Latin "034"%char] in
  trim (replace (global (Quant Space 1 None true) false) t [space]).

(** [wordCount: fullText.split(/\s+/).length] *)
Definition wordCount (text : jsstring) : nat := length (split re_spaces text).

(** A word: a string that is not empty and holds no whitespace. *)
Definition is_word (w : jsstring) : Prop :=
  w <> [] /\ forallb (fun c => negb (is_ws c)) w = true.

(** The length of the whitespace at the start of [s]. *)
Fixpoint ws_run (s : jsstring) : nat :=
  match s with
  | c :: s' => if is_ws c then S (ws_run s') else 0
  | [] => 0
  end.

(** The match of [/\s+/] at the start of [s]: its length. *)
Definition run_hit (x : jsstring) : option nat :=
  match ws_run x with
  | 0 => None
  | n => Some n
  end.

(** [s] with every run of whitespace replaced by one space; [prev] tells
    that the character before [s] was whitespace. *)
Fixpoint squeeze (prev : bool) (s : jsstring) : jsstring :=
  match s with
  | [] => []
  | c :: s' =>
      if is_ws c then (if prev then squeeze true s' else space :: squeeze true s')
      else c :: squeeze false s'
  end.

(** The number of runs of whitespace in [s]. *)
Fixpoint ws_runs (prev : bool) (s : jsstring) : nat :=
  match s with
  | [] => 0
  | c :: s' =>
      if is_ws c then (if prev then 0 else 1) + ws_runs true s'
      else ws_runs false s'
  end.

(** A body of two words whose only occurrence of [saas] begins at index
    60; its one space is at index 25. *)
Definition late_saas_body : jsstring :=
  repeat (ch "x") 25 ++ space :: repeat (ch "y") 34 ++ js "saas" ++ repeat (ch "z") 80.


(** * Properties *)

(** ** The model on concrete inputs *)

(** The three code units beyond 256: their lower case, and the
    case-insensitive patterns that match them.  [/k/gi] and [/K/gi] do not
    match U+212A although its lower case is [k]; [/i/gi] does not match
    U+0130, whose lower case begins with [i]. *)
Example code_units_beyond_latin :
  toLowerCase [U0130] = [Latin "i"%char; U0307] /\
  toLowerCase [U0307] = [U0307] /\
  toLowerCase [U212A] = js "k" /\
  toLowerCase [Latin "A"%char; Latin "192"%char; Latin "223"%char]
    = [Latin "a"%char; Latin "224"%char; Latin "223"%char] /\
  match_count (literal_gi (js "k")) [U212A] = 0 /\
  match_count (literal_gi (js "K")) [U212A] = 0 /\
  match_count (literal_gi [U212A]) (js "kK" ++ [U212A]) = 1 /\
  match_count (literal_gi (js "i")) [U0130] = 0 /\
  match_count (literal_gi [U0130]) (js "iI" ++ [U0130; U0307]) = 1.
Proof. repeat split; vm_compute; reflexivity. Qed.

(** The three examples with which the language specification illustrates
    backtracking, captures and the rejection of empty iterations. *)
Example matcher_on_specification_examples :
  (r <- RegExp_gi (js "(a|ab)(c|bcd)(d*)") ;; Ret (exec_at r (js "abcd") 0))
    = Ret (Some (4, [Some (0, 1); Some (1, 4); Some (4, 4)])) /\
  (r <- RegExp_gi (js "(z)((a+)?(b+)?(c))*") ;; Ret (exec_at r (js "zaacbbbcac") 0))
    = Ret (Some (10, [Some (0, 1); Some (8, 10); Some (8, 9); None; Some (9, 10)])) /\
  (r <- RegExp_gi (js "(a*)*") ;; Ret (exec_at r (js "b") 0))
    = Ret (Some (0, [None])).
Proof. repeat split; vm_compute; reflexivity. Qed.

Example patterns_accepted_and_rejected :
  parse_pattern (js "a|b*c") = Ret {| p_regex :=
      Alt (Seq (Chr (ch "a")) Empty)
          (Seq (Quant (Chr (ch "b")) 0 None true) (Seq (Chr (ch "c")) Empty));
      p_groups := 0 |} /\
  parse_pattern (js "((") = Throw SyntaxError /\
  parse_pattern (js "a)") = Throw SyntaxError /\
  parse_pattern (js "a**") = Throw SyntaxError /\
  parse_pattern (js "^*") = Throw SyntaxError /\
  parse_pattern (js "+") = Throw SyntaxError /\
  parse_pattern (js "a\") = Throw SyntaxError /\
  parse_pattern (js "[a]") = Throw OutOfModel /\
  parse_pattern (js "a{2}") = Throw OutOfModel /\
  parse_pattern (js "\d") = Throw OutOfModel.
Proof. repeat split; vm_compute; reflexivity. Qed.

Example split_on_spaces :
  split re_spaces (js " hello  world ") = [Some []; Some (js "hello"); Some (js "world"); Some []] /\
  split_terms (js "a bc  def g") = Ret [js "bc"; js "def"].
Proof. split; vm_compute; reflexivity. Qed.

Example split_keeps_captures :
  (r <- RegExp_gi (js "(a)|b") ;; Ret (split r (js "xaybz")))
    = Ret [Some (js "x"); Some (js "a"); Some (js "y"); None; Some (js "z")].
Proof. vm_compute. reflexivity. Qed.

Example highlightTerms_abab :
  highlightTerms (js "abAB") (js "ab") =
    Ret [ {| sp_text := Some []; highlight := false |};
          {| sp_text := Some (js "ab"); highlight := true |};
          {| sp_text := Some []; highlight := false |};
          {| sp_text := Some (js "AB"); highlight := true |};
          {| sp_text := Some []; highlight := false |} ].
Proof. vm_compute. reflexivity. Qed.

(** [350 * 0.7] is the double just below 245, [10 * 0.7] is exactly 7. *)
Example trimming_thresholds :
  gt_times_0_7 245 350 = true /\ gt_times_0_7 244 350 = false /\
  gt_times_0_7 7 10 = false /\ gt_times_0_7 8 10 = true.
Proof. repeat split; vm_compute; reflexivity. Qed.

(** Occurrences are counted without overlap, as a global RegExp counts them. *)
Example occurrences_do_not_overlap :
  occurrences (js "saas") (js "SaaSaas saas") = 2 /\
  (r <- RegExp_gi (js "saas") ;; Ret (match_count r (js "saasaas saas"))) = Ret 2.
Proof. split; vm_compute; reflexivity. Qed.

(** ** The outcome monad *)

Lemma bind_ret_inv {A B} (m : outcome A) (f : A -> outcome B) (b : B) :
  bind m f = Ret b -> exists a, m = Ret a /\ f a = Ret b.
Proof.
  destruct m as [a|e]; simpl; intros H.
  - exists a. split; [reflexivity | exact H].
  - discriminate H.
Qed.

Ltac bind_inv H :=
  let a := fresh "a" in
  let Ha := fresh "Ha" in
  apply bind_ret_inv in H; destruct H as (a & Ha & H).

(** ** Strings *)

Lemma cu_eqb_spec (c d : code_unit) : reflect (c = d) (cu_eqb c d).
Proof.
  destruct c as [a| | |], d as [b| | |]; cbn [cu_eqb];
    try (constructor; congruence).
  destruct (Ascii.eqb_spec a b); constructor; congruence.
Qed.

Lemma cu_eqb_refl (c : code_unit) : cu_eqb c c = true.
Proof. destruct (cu_eqb_spec c c); congruence. Qed.

Lemma cu_eqb_eq (c d : code_unit) : cu_eqb c d = true <-> c = d.
Proof. destruct (cu_eqb_spec c d); split; congruence. Qed.

Lemma slice_length_le (s : jsstring) (a b : nat) : length (slice s a b) <= b - a.
Proof. unfold slice. apply firstn_le_length. Qed.

Lemma slice_0_all (s : jsstring) (b : nat) : length s <= b -> slice s 0 b = s.
Proof.
  intros H. unfold slice. rewrite Nat.sub_0_r. simpl. apply firstn_all2. exact H.
Qed.

Lemma slice_shorter (s : jsstring) (a b : nat) : length (slice s a b) <= length s - a.
Proof.
  unfold slice. rewrite length_firstn, length_skipn. lia.
Qed.

Lemma lastIndexOf_aux_bound (c : code_unit) (s : jsstring) (i pos : nat) (acc : Z) :
  (acc < Z.of_nat i)%Z ->
  (lastIndexOf_aux c s i pos acc < Z.of_nat (i + length s))%Z.
Proof.
  revert i acc. induction s as [|d s IH]; intros i acc Hacc; simpl.
  - rewrite Nat.add_0_r. exact Hacc.
  - replace (i + S (length s)) with (S i + length s) by lia.
    apply IH. destruct ((i <=? pos) && cu_eqb d c); lia.
Qed.

Lemma lastIndexOf_aux_lower (c : code_unit) (s : jsstring) (i pos : nat) (acc : Z) :
  (-1 <= acc)%Z -> (-1 <= lastIndexOf_aux c s i pos acc)%Z.
Proof.
  revert i acc. induction s as [|d s IH]; intros i acc Hacc; simpl.
  - exact Hacc.
  - apply IH. destruct ((i <=? pos) && cu_eqb d c); lia.
Qed.

(** [lastIndexOf] answers [-1] or an index of the string. *)
Lemma lastIndexOf_range (c : code_unit) (s : jsstring) (pos : nat) :
  (-1 <= lastIndexOf c s pos < Z.of_nat (length s))%Z.
Proof.
  unfold lastIndexOf. split.
  - apply lastIndexOf_aux_lower. lia.
  - apply (lastIndexOf_aux_bound c s 0 pos). simpl. lia.
Qed.

Lemma lastIndexOf_aux_past (c : code_unit) (s : jsstring) (i pos : nat) (acc : Z) :
  pos < i -> lastIndexOf_aux c s i pos acc = acc.
Proof.
  revert i acc. induction s as [|d s IH]; intros i acc Hi; simpl.
  - reflexivity.
  - replace (i <=? pos) with false by (symmetry; apply Nat.leb_gt; exact Hi).
    simpl. apply IH. lia.
Qed.

(** Searching backwards from index 0 finds a space only at index 0. *)
Lemma lastIndexOf_at_0 (c d : code_unit) (s : jsstring) :
  d <> c -> lastIndexOf c (d :: s) 0 = (-1)%Z.
Proof.
  intros Hd. unfold lastIndexOf. simpl.
  destruct (cu_eqb d c) eqn:E.
  - apply cu_eqb_eq in E. contradiction.
  - apply lastIndexOf_aux_past. lia.
Qed.

(** For [maxLen = 350] the trimming test [lastSpace > maxLen * 0.7] holds
    from 245 on: the double [350 * 0.7] lies just below 245. *)
Lemma gt_times_0_7_350 (k : Z) : gt_times_0_7 k 350 = (245 <=? k)%Z.
Proof.
  unfold gt_times_0_7.
  replace (times_0_7 350) with 2206763817411542784%Z by (vm_compute; reflexivity).
  replace (2 ^ 53)%Z with 9007199254740992%Z by (vm_compute; reflexivity).
  destruct (245 <=? k)%Z eqn:E.
  - apply Z.leb_le in E. apply Z.ltb_lt. lia.
  - apply Z.leb_gt in E. apply Z.ltb_ge. lia.
Qed.

Lemma skipn_nth_error (s : jsstring) (i : nat) :
  skipn i s = match nth_error s i with
              | Some d => d :: skipn (S i) s
              | None => []
              end.
Proof.
  revert i. induction s as [|c s IH]; intros [|i]; try reflexivity.
  simpl nth_error. rewrite <- IH. reflexivity.
Qed.

Lemma all_chars_complete (c : code_unit) : In c all_chars.
Proof.
  unfold all_chars. apply in_or_app. destruct c as [a| | |].
  - left. rewrite <- (ascii_nat_embedding a).
    apply (in_map (fun n => Latin (ascii_of_nat n))), in_seq.
    pose proof (nat_ascii_bounded a). lia.
  - right. cbn. tauto.
  - right. cbn. tauto.
  - right. cbn. tauto.
Qed.

Lemma same_units_eq (l1 l2 : list code_unit) : same_units l1 l2 = true <-> l1 = l2.
Proof.
  unfold same_units. destruct (list_eq_dec cu_dec l1 l2); split; congruence.
Qed.

(** ** Lower case *)

Lemma toLowerCase_app (a b : jsstring) :
  toLowerCase (a ++ b) = toLowerCase a ++ toLowerCase b.
Proof. apply flat_map_app. Qed.

Lemma toLowerCase_cons (c : code_unit) (s : jsstring) :
  toLowerCase (c :: s) = lower_units c ++ toLowerCase s.
Proof. reflexivity. Qed.

(** The code units of a lower case are their own lower case. *)
Lemma lower_units_lowered (c d : code_unit) : In d (lower_units c) -> lowered d.
Proof.
  assert (H : forallb (fun c => forallb (fun d => same_units (lower_units d) [d])
                                        (lower_units c)) all_chars = true)
    by (vm_compute; reflexivity).
  rewrite forallb_forall in H. specialize (H c (all_chars_complete c)).
  rewrite forallb_forall in H. intros Hd. apply same_units_eq, H, Hd.
Qed.

Lemma toLowerCase_lowered (s : jsstring) : Forall lowered (toLowerCase s).
Proof.
  apply Forall_forall. intros d Hd. apply in_flat_map in Hd.
  destruct Hd as (c & _ & Hd). exact (lower_units_lowered _ _ Hd).
Qed.

Lemma lowered_toLowerCase (s : jsstring) : Forall lowered s -> toLowerCase s = s.
Proof.
  induction 1 as [|c s Hc _ IH]; [reflexivity|].
  rewrite toLowerCase_cons, Hc, IH. reflexivity.
Qed.

(** A string that is its own lower case holds only such code units. *)
Lemma toLowerCase_fixed (s : jsstring) : toLowerCase s = s -> Forall lowered s.
Proof.
  induction s as [|c s IH]; intros H; [constructor|].
  rewrite toLowerCase_cons in H.
  destruct c as [a| | |]; cbn [lower_units app] in H; try discriminate H.
  - injection H as Ha Hs. constructor; [|exact (IH Hs)].
    unfold lowered. cbn [lower_units]. rewrite Ha. reflexivity.
  - injection H as Hs. constructor; [reflexivity | exact (IH Hs)].
Qed.

Lemma toLowerCase_idempotent (s : jsstring) : toLowerCase (toLowerCase s) = toLowerCase s.
Proof. apply lowered_toLowerCase, toLowerCase_lowered. Qed.

Lemma lower_units_length (c : code_unit) :
  1 <= length (lower_units c) /\ (c <> U0130 -> length (lower_units c) = 1).
Proof. destruct c; cbn; split; (lia || congruence || reflexivity). Qed.

(** Lower case never shortens a string of the model. *)
Lemma toLowerCase_length_le (s : jsstring) : length s <= length (toLowerCase s).
Proof.
  induction s as [|c s IH]; [apply Nat.le_refl|].
  rewrite toLowerCase_cons, length_app. cbn [length].
  pose proof (proj1 (lower_units_length c)). lia.
Qed.

(** It keeps the length of a string without U+0130. *)
Lemma toLowerCase_length (s : jsstring) :
  ~ In U0130 s -> length (toLowerCase s) = length s.
Proof.
  induction s as [|c s IH]; intros H; [reflexivity|].
  rewrite toLowerCase_cons, length_app. cbn [length].
  rewrite IH by (intros Hin; apply H; right; exact Hin).
  rewrite (proj2 (lower_units_length c)); [reflexivity|].
  intros ->. apply H. left. reflexivity.
Qed.

(** ** Case-insensitive comparison of characters *)

(** Two characters that have the same canonical form for a
    case-insensitive pattern have the same lower case. *)
Lemma canonicalize_lower (c d : code_unit) :
  canonicalize c = canonicalize d -> lower_units c = lower_units d.
Proof.
  assert (H : forallb (fun c => forallb (fun d =>
                implb (canonicalize c =? canonicalize d)
                      (same_units (lower_units c) (lower_units d))) all_chars)
              all_chars = true) by (vm_compute; reflexivity).
  rewrite forallb_forall in H. specialize (H c (all_chars_complete c)).
  rewrite forallb_forall in H. specialize (H d (all_chars_complete d)).
  intros E. rewrite E, Nat.eqb_refl in H. apply same_units_eq. exact H.
Qed.

(** Two characters that are their own lower case have the same canonical
    form only when they are equal. *)
Lemma canonicalize_lowered (c d : code_unit) :
  lowered c -> lowered d -> (canonicalize c =? canonicalize d) = cu_eqb c d.
Proof.
  assert (H : forallb (fun c => forallb (fun d =>
                implb (same_units (lower_units c) [c] && same_units (lower_units d) [d])
                      (Bool.eqb (canonicalize c =? canonicalize d) (cu_eqb c d)))
                all_chars) all_chars = true) by (vm_compute; reflexivity).
  rewrite forallb_forall in H. specialize (H c (all_chars_complete c)).
  rewrite forallb_forall in H. specialize (H d (all_chars_complete d)).
  intros Hc Hd. apply same_units_eq in Hc, Hd. rewrite Hc, Hd in H.
  apply Bool.eqb_prop. exact H.
Qed.

(** Below 256, two characters with the same lower case have the same
    canonical form. *)
Lemma canonicalize_latin (c d : code_unit) :
  is_latin c = true -> is_latin d = true -> lower_units c = lower_units d ->
  canonicalize c = canonicalize d.
Proof.
  assert (H : forallb (fun c => forallb (fun d =>
                implb (is_latin c && is_latin d
                       && same_units (lower_units c) (lower_units d))
                      (canonicalize c =? canonicalize d)) all_chars)
              all_chars = true) by (vm_compute; reflexivity).
  rewrite forallb_forall in H. specialize (H c (all_chars_complete c)).
  rewrite forallb_forall in H. specialize (H d (all_chars_complete d)).
  intros Hc Hd E. apply same_units_eq in E. rewrite Hc, Hd, E in H.
  apply Nat.eqb_eq. exact H.
Qed.

(** ** The tokenizer [/\s+/] captures nothing, so [split_terms] returns *)

Lemma on_char_captures (s : jsstring) (x y : mstate) (f : code_unit -> bool) :
  In y (on_char s x f) -> snd y = snd x.
Proof.
  unfold on_char. destruct (nth_error s (fst x)) as [d|]; [|intros []].
  destruct (f d); [|intros []]. intros [<-|[]]. reflexivity.
Qed.

Lemma repeat_ends_captures (m : mstate -> list mstate) (greedy : bool) :
  (forall x y, In y (m x) -> snd y = snd x) ->
  forall fuel mn mx x y,
    In y (repeat_ends m [] greedy fuel mn mx x) -> snd y = snd x.
Proof.
  intros Hm. induction fuel as [|fuel IH]; intros mn mx x y Hy.
  - destruct mx as [[|n]|]; simpl in Hy.
    + destruct Hy as [<-|[]]. reflexivity.
    + destruct Hy.
    + destruct Hy.
  - assert (Hiter : forall mx',
      In y (flat_map (fun z => if (mn =? 0) && (fst z =? fst x) then []
                               else repeat_ends m [] greedy fuel (pred mn) mx' z)
                     (m (fst x, snd x))) -> snd y = snd x).
    { intros mx' H. apply in_flat_map in H. destruct H as (z & Hz & H).
      apply Hm in Hz. simpl in Hz.
      destruct ((mn =? 0) && (fst z =? fst x)); [destruct H|].
      apply IH in H. congruence. }
    assert (Hall : forall mx',
      In y (let iter := flat_map (fun z => if (mn =? 0) && (fst z =? fst x) then []
                               else repeat_ends m [] greedy fuel (pred mn) mx' z)
                     (m (fst x, snd x)) in
            if negb (mn =? 0) then iter else if greedy then iter ++ [x] else x :: iter)
      -> snd y = snd x).
    { intros mx' H. cbv zeta in H.
      destruct (negb (mn =? 0)); [apply (Hiter mx'); exact H|].
      destruct greedy.
      - apply in_app_or in H. destruct H as [H|[<-|[]]];
          [apply (Hiter mx'); exact H | reflexivity].
      - destruct H as [<-|H]; [reflexivity | apply (Hiter mx'); exact H]. }
    destruct mx as [[|n]|]; simpl in Hy.
    + destruct Hy as [<-|[]]. reflexivity.
    + apply (Hall (Some n)). exact Hy.
    + apply (Hall None). exact Hy.
Qed.

Lemma exec_at_spaces_captures (s : jsstring) (i : nat) (m : mstate) :
  exec_at re_spaces s i = Some m -> snd m = [].
Proof.
  change (exec_at re_spaces s i)
    with (hd_error (repeat_ends (ends false s Space) [] true
                      (1 + (length s - i) + 1) 1 None (i, []))).
  intros H.
  apply (repeat_ends_captures (ends false s Space) true
           (fun x y => on_char_captures s x y is_ws)
           (1 + (length s - i) + 1) 1 None (i, []) m).
  destruct (repeat_ends _ _ _ _ _ _ _) as [|m0 l]; [discriminate H|].
  injection H as <-. left. reflexivity.
Qed.

Lemma split_loop_defined (re : RegExp) (s : jsstring) :
  (forall i m, exec_at re s i = Some m -> snd m = []) ->
  forall fuel p q, all_defined (split_loop re s fuel p q).
Proof.
  intros Hcaps. unfold all_defined.
  induction fuel as [|fuel IH]; intros p q; simpl.
  - constructor; [discriminate | constructor].
  - destruct (q <? length s); [|constructor; [discriminate | constructor]].
    destruct (exec_at re s q) as [[e0 caps]|] eqn:E; [|apply IH].
    destruct (Nat.min e0 (length s) =? p); [apply IH|].
    apply Hcaps in E. simpl in E. subst caps. simpl.
    constructor; [discriminate | apply IH].
Qed.

Lemma split_spaces_defined (q : jsstring) : all_defined (split re_spaces q).
Proof.
  unfold split. destruct q as [|c q].
  - destruct (exec_at re_spaces [] 0); repeat (constructor; try discriminate).
  - apply split_loop_defined. apply exec_at_spaces_captures.
Qed.

Lemma filter_long_defined (parts : list (option jsstring)) :
  all_defined parts -> exists l, filter_long parts = Ret l.
Proof.
  induction 1 as [|o parts Ho _ IH]; simpl.
  - eexists. reflexivity.
  - destruct o as [t|]; [|contradiction].
    destruct IH as (l & ->). simpl. eexists. reflexivity.
Qed.

(** Tokenizing a query never throws. *)
Lemma split_terms_returns (q : jsstring) : exists l, split_terms q = Ret l.
Proof. apply filter_long_defined, split_spaces_defined. Qed.

Lemma filter_long_long (parts : list (option jsstring)) (l : list jsstring) :
  filter_long parts = Ret l -> Forall (fun t => 1 < length t) l.
Proof.
  revert l. induction parts as [|o parts IH]; intros l H; simpl in H.
  - injection H as <-. constructor.
  - destruct o as [t|]; [|discriminate H].
    bind_inv H. injection H as <-.
    destruct (1 <? length t) eqn:E.
    + constructor; [apply Nat.ltb_lt; exact E | apply IH; exact Ha].
    + apply IH; exact Ha.
Qed.

(** Every term of a query has at least two characters. *)
Lemma split_terms_long (q : jsstring) (l : list jsstring) :
  split_terms q = Ret l -> Forall (fun t => 1 < length t) l.
Proof. apply filter_long_long. Qed.

(** ** Blank queries have no terms *)

Lemma greedy_spaces (s : jsstring) (fuel i : nat) :
  forallb is_ws (skipn i s) = true -> length s - i < fuel -> i <= length s ->
  hd_error (repeat_ends (ends false s Space) [] true fuel 0 None (i, []))
    = Some (length s, []).
Proof.
  revert i. induction fuel as [|fuel IH]; intros i Hws Hfuel Hi; [lia|].
  cbn [repeat_ends ends fst snd reset_captures fold_right pred_max Nat.eqb negb andb].
  unfold on_char. cbn [fst snd].
  rewrite (skipn_nth_error s i) in Hws.
  destruct (nth_error s i) as [d|] eqn:E.
  - cbn [forallb] in Hws. apply andb_prop in Hws. destruct Hws as [Hd Hws].
    rewrite Hd. cbn [flat_map fst].
    replace (S i =? i) with false by (symmetry; apply Nat.eqb_neq; lia).
    assert (Hlt : i < length s) by (apply nth_error_Some; congruence).
    specialize (IH (S i) Hws ltac:(lia) ltac:(lia)).
    destruct (repeat_ends _ _ _ _ _ _ _) as [|y l]; [discriminate IH|].
    exact IH.
  - apply nth_error_None in E. cbn [flat_map app hd_error].
    f_equal. f_equal. lia.
Qed.

Lemma exec_at_blank (c : code_unit) (s : jsstring) :
  forallb is_ws (c :: s) = true ->
  exec_at re_spaces (c :: s) 0 = Some (length (c :: s), []).
Proof.
  intros Hws.
  change (exec_at re_spaces (c :: s) 0)
    with (hd_error (repeat_ends (ends false (c :: s) Space) [] true
                      (1 + (length (c :: s) - 0) + 1) 1 None (0, []))).
  cbn [Nat.add]. cbn [repeat_ends ends fst snd reset_captures fold_right pred_max
                       Nat.eqb negb andb pred].
  unfold on_char. cbn [fst snd nth_error].
  pose proof Hws as Hws'. cbn [forallb] in Hws'. apply andb_prop in Hws'.
  destruct Hws' as [-> Hs]. cbn [flat_map]. rewrite app_nil_r.
  apply greedy_spaces; [exact Hs | simpl; lia | simpl; lia].
Qed.

(** A query of whitespace only tokenizes to the empty term list. *)
Lemma blank_query_no_terms (q : jsstring) :
  forallb is_ws q = true -> split_terms q = Ret [].
Proof.
  intros Hws. destruct q as [|c q]; [reflexivity|].
  unfold split_terms, split.
  replace (2 * length (c :: q) + 2) with (S (S (2 * length q + 2))) by (simpl; lia).
  cbn [split_loop]. rewrite (@exec_at_blank c q Hws).
  replace (0 <? length (c :: q)) with true by reflexivity.
  rewrite Nat.min_id. replace (length (c :: q) =? 0) with false by reflexivity.
  rewrite Nat.ltb_irrefl. cbn [map app filter_long].
  unfold slice. rewrite !Nat.sub_diag. reflexivity.
Qed.

Lemma toLowerCase_blank (q : jsstring) :
  forallb is_ws (toLowerCase q) = forallb is_ws q.
Proof.
  assert (H : forallb (fun c => Bool.eqb (forallb is_ws (lower_units c)) (is_ws c))
                      all_chars = true) by (vm_compute; reflexivity).
  rewrite forallb_forall in H.
  induction q as [|c q IH]; [reflexivity|].
  rewrite toLowerCase_cons, forallb_app, IH. cbn [forallb].
  rewrite (Bool.eqb_prop _ _ (H c (all_chars_complete c))). reflexivity.
Qed.

(** ** The terms of a lower-cased query are lower case *)

Lemma split_loop_slices (re : RegExp) (s : jsstring) :
  (forall i m, exec_at re s i = Some m -> snd m = []) ->
  forall fuel p q,
    Forall (fun o => exists a b, o = Some (slice s a b)) (split_loop re s fuel p q).
Proof.
  intros Hcaps. induction fuel as [|fuel IH]; intros p q; cbn [split_loop].
  - constructor; [eexists _, _; reflexivity | constructor].
  - destruct (q <? length s); [|constructor; [eexists _, _; reflexivity | constructor]].
    destruct (exec_at re s q) as [[e0 caps]|] eqn:E; [|apply IH].
    destruct (Nat.min e0 (length s) =? p); [apply IH|].
    apply Hcaps in E. simpl in E. subst caps. cbn [map app].
    constructor; [eexists _, _; reflexivity | apply IH].
Qed.

Lemma slice_incl (s : jsstring) (a b : nat) (d : code_unit) :
  In d (slice s a b) -> In d s.
Proof.
  unfold slice. intros H. rewrite <- (firstn_skipn a s). apply in_or_app. right.
  rewrite <- (firstn_skipn (b - a) (skipn a s)). apply in_or_app. left. exact H.
Qed.

Lemma filter_long_In (parts : list (option jsstring)) (l : list jsstring) (t : jsstring) :
  filter_long parts = Ret l -> In t l -> In (Some t) parts.
Proof.
  revert l. induction parts as [|o parts IH]; intros l H Hin; simpl in H.
  - injection H as <-. destruct Hin.
  - destruct o as [t'|]; [|discriminate H].
    bind_inv H. injection H as <-.
    destruct (1 <? length t'); [destruct Hin as [<-|Hin]|].
    + left. reflexivity.
    + right. apply (IH _ Ha Hin).
    + right. apply (IH _ Ha Hin).
Qed.

Lemma split_terms_lower (query : jsstring) (terms : list jsstring) :
  split_terms (toLowerCase query) = Ret terms ->
  Forall (fun t => toLowerCase t = t) terms.
Proof.
  intros H. apply Forall_forall. intros t Hin.
  apply (@filter_long_In _ _ t H) in Hin. unfold split in Hin.
  assert (Hs : exists a b, Some t = Some (slice (toLowerCase query) a b)).
  { destruct (toLowerCase query) as [|c s] eqn:E.
    - destruct (exec_at re_spaces [] 0); [destruct Hin|].
      destruct Hin as [Hin|[]]. exists 0, 0. symmetry. exact Hin.
    - pose proof (@split_loop_slices re_spaces (c :: s)
                    (@exec_at_spaces_captures (c :: s))
                    (2 * length (c :: s) + 2) 0 0) as Hall.
      rewrite Forall_forall in Hall. apply (Hall _ Hin). }
  destruct Hs as (a & b & Hs). injection Hs as ->.
  apply lowered_toLowerCase, Forall_forall. intros d Hd.
  apply slice_incl in Hd.
  pose proof (toLowerCase_lowered query) as Hl. rewrite Forall_forall in Hl.
  apply Hl. exact Hd.
Qed.

(** ** Literal patterns *)

Lemma ends_literal (ic : bool) (s t : jsstring) (i : nat) (c : captures) :
  ends ic s (literal t) (i, c) =
    if ci_starts ic t (skipn i s) then [(i + length t, c)] else [].
Proof.
  revert i. induction t as [|a t IH]; intros i.
  - simpl. rewrite Nat.add_0_r. reflexivity.
  - change (literal (a :: t)) with (Seq (Chr a) (literal t)).
    cbn [ends]. unfold on_char. cbn [fst snd].
    rewrite (skipn_nth_error s i).
    destruct (nth_error s i) as [d|]; [|reflexivity].
    cbn [ci_starts]. destruct (char_matches ic a d); [|reflexivity].
    cbn [flat_map andb]. rewrite app_nil_r, IH.
    replace (S i + length t) with (i + length (a :: t)) by (simpl; lia).
    reflexivity.
Qed.

Lemma ci_starts_length (ic : bool) (t s : jsstring) :
  ci_starts ic t s = true -> length t <= length s.
Proof.
  revert s. induction t as [|a t IH]; intros [|d s] H; simpl in *; try lia.
  apply andb_prop in H. destruct H as [_ H]. apply IH in H. lia.
Qed.

(** A prefix that a literal matches is matched in every longer text. *)
Lemma ci_starts_firstn (ic : bool) (t s : jsstring) (n : nat) :
  ci_starts ic t (firstn n s) = true -> ci_starts ic t s = true.
Proof.
  revert s n. induction t as [|a t IH]; intros s n H; [reflexivity|].
  destruct s as [|d s]; destruct n as [|n]; simpl in H; try discriminate H.
  simpl. apply andb_prop in H. destruct H as [H1 H2].
  rewrite H1. simpl. apply (IH s n). exact H2.
Qed.

(** What a case-insensitive literal matches has the lower case of the literal. *)
Lemma ci_starts_lower (t s : jsstring) :
  ci_starts true t s = true ->
  toLowerCase (firstn (length t) s) = toLowerCase t.
Proof.
  revert s. induction t as [|a t IH]; intros s H; [reflexivity|].
  destruct s as [|d s]; [discriminate H|].
  simpl in H. apply andb_prop in H. destruct H as [H1 H2].
  unfold char_matches in H1. apply Nat.eqb_eq, canonicalize_lower in H1.
  cbn [length firstn]. rewrite !toLowerCase_cons, H1, (IH s H2). reflexivity.
Qed.

(** On lower-cased text, a case-insensitive literal is a plain prefix test. *)
Lemma ci_starts_lowered (t s : jsstring) :
  Forall lowered t -> Forall lowered s ->
  ci_starts true t s = starts_with t s.
Proof.
  intros Ht. revert s. induction Ht as [|a t Ha _ IH]; intros s Hs; [reflexivity|].
  destruct Hs as [|d s Hd Hs]; [reflexivity|].
  simpl. unfold char_matches. rewrite (canonicalize_lowered Ha Hd), (IH s Hs).
  reflexivity.
Qed.

(** ** Searching with a RegExp whose matches are known *)

Section Hits.

Variable re : RegExp.
Variable s : jsstring.

(** [hit x] is the length of the match at the start of the rest [x] of
    the text, [caps_of i n] the captures of a match of length [n] at [i]. *)
Variable hit : jsstring -> option nat.
Variable caps_of : nat -> nat -> captures.

Hypothesis exec_hit : forall i,
  exec_at re s i = match hit (skipn i s) with
                   | Some n => Some (i + n, caps_of i n)
                   | None => None
                   end.

Lemma search_none (n i : nat) :
  search re s n i = None ->
  forall j, i <= j < i + n -> hit (skipn j s) = None.
Proof.
  revert i. induction n as [|n IH]; intros i H j Hj; [lia|].
  simpl in H. rewrite exec_hit in H.
  destruct (hit (skipn i s)) eqn:E; [discriminate H|].
  destruct (Nat.eq_dec j i) as [->|Hne]; [exact E|].
  apply (IH (S i) H). lia.
Qed.

Lemma search_some (n i st : nat) (m : mstate) :
  search re s n i = Some (st, m) ->
  i <= st < i + n /\
  (exists k, hit (skipn st s) = Some k /\ m = (st + k, caps_of st k)) /\
  forall j, i <= j < st -> hit (skipn j s) = None.
Proof.
  revert i. induction n as [|n IH]; intros i H; [discriminate H|].
  simpl in H. rewrite exec_hit in H.
  destruct (hit (skipn i s)) as [k|] eqn:E.
  - injection H as <- <-. split; [lia|]. split; [|intros j Hj; lia].
    exists k. split; [exact E | reflexivity].
  - apply IH in H. destruct H as (Hst & Hk & Hbefore).
    split; [lia|]. split; [exact Hk|].
    intros j Hj. destruct (Nat.eq_dec j i) as [->|Hne]; [exact E|].
    apply Hbefore. lia.
Qed.

End Hits.

(** ** Counting the occurrences of a literal *)

Lemma count_hits_skip (P : jsstring -> bool) (k : nat) (s : jsstring) (n : nat) :
  count_hits P k s n = count_hits P k (skipn n s) 0.
Proof.
  revert n. induction s as [|c s IH]; intros [|n]; try reflexivity.
  simpl. apply IH.
Qed.

Lemma count_hits_no_hit (P : jsstring -> bool) (k : nat) (s : jsstring) (i j : nat) :
  i <= j -> (forall l, i <= l < j -> P (skipn l s) = false) ->
  count_hits P k (skipn i s) 0 = count_hits P k (skipn j s) 0.
Proof.
  intros Hij. induction Hij as [|j Hij IH]; intros H; [reflexivity|].
  rewrite IH by (intros l Hl; apply H; lia).
  specialize (H j ltac:(lia)).
  rewrite (skipn_nth_error s j) in *.
  destruct (nth_error s j) as [d|] eqn:E.
  - cbn [count_hits]. rewrite H. reflexivity.
  - rewrite (skipn_all2 s (n := S j)); [reflexivity|].
    apply nth_error_None in E. lia.
Qed.

Lemma count_hits_ext (P Q : jsstring -> bool) (k : nat) (s : jsstring) (n : nat) :
  (forall x, Forall lowered x -> P x = Q x) -> Forall lowered s ->
  count_hits P k s n = count_hits Q k s n.
Proof.
  intros H Hs. revert n. induction Hs as [|c s Hc Hs IH]; intros n; [reflexivity|].
  simpl. destruct n as [|n]; [|apply IH].
  rewrite (H (c :: s)) by (constructor; assumption).
  destruct (Q _); rewrite IH; reflexivity.
Qed.

Section LiteralCount.

Variable re : RegExp.
Variable t : jsstring.
Variable s : jsstring.

Hypothesis re_literal : p_regex (re_pattern re) = literal t.
Hypothesis re_ic : re_ignoreCase re = true.
Hypothesis t_nonempty : t <> [].

Lemma exec_at_literal (i : nat) :
  exec_at re s i =
    match (if ci_starts true t (skipn i s) then Some (length t) else None) with
    | Some n => Some (i + n, repeat None (p_groups (re_pattern re)))
    | None => None
    end.
Proof.
  unfold exec_at. rewrite re_literal, re_ic, ends_literal.
  destruct (ci_starts true t (skipn i s)); reflexivity.
Qed.

Lemma match_loop_literal (fuel li : nat) :
  length s + 2 <= fuel + li ->
  match_loop re s fuel li = count_hits (ci_starts true t) (length t) (skipn li s) 0.
Proof.
  pose (hit := fun x : jsstring =>
                 if ci_starts true t x then Some (length t) else None).
  assert (Hlen : 1 <= length t) by (destruct t; [contradiction | simpl; lia]).
  revert li. induction fuel as [|fuel IH]; intros li Hfuel.
  - rewrite skipn_all2 by lia. reflexivity.
  - simpl. unfold exec_global.
    destruct (search re s (S (length s) - li) li) as [[st m]|] eqn:E.
    + apply (@search_some re s hit (fun _ _ => repeat None (p_groups (re_pattern re))) exec_at_literal) in E.
      destruct E as (Hst & (k & Hk & ->) & Hbefore). unfold hit in Hk, Hbefore.
      destruct (ci_starts true t (skipn st s)) eqn:Est; [|discriminate Hk].
      injection Hk as <-. cbn [fst].
      replace (st + length t =? st) with false by (symmetry; apply Nat.eqb_neq; lia).
      rewrite IH by lia.
      rewrite (count_hits_no_hit (ci_starts true t) (length t) s (i := li) (j := st))
        by (first [lia | intros l Hl; specialize (Hbefore l Hl);
            destruct (ci_starts true t (skipn l s)); [discriminate | reflexivity]]).
      rewrite (skipn_nth_error s st) in *.
      destruct (nth_error s st) as [d|] eqn:Ed.
      * cbn [count_hits]. rewrite Est.
        rewrite (count_hits_skip _ _ (skipn (S st) s) (length t - 1)), skipn_skipn.
        replace (length t - 1 + S st) with (st + length t) by lia. reflexivity.
      * destruct t; [contradiction | discriminate Est].
    + pose proof (@search_none re s hit (fun _ _ => repeat None (p_groups (re_pattern re))) exec_at_literal _ _ E) as Hnone.
      unfold hit in Hnone.
      destruct (Nat.le_gt_cases li (length s)) as [Hle|Hgt].
      * rewrite (count_hits_no_hit (ci_starts true t) (length t) s (i := li) (j := length s)).
        -- rewrite skipn_all. reflexivity.
        -- exact Hle.
        -- intros l Hl. specialize (Hnone l ltac:(lia)).
           destruct (ci_starts true t (skipn l s)); [discriminate | reflexivity].
      * rewrite skipn_all2 by lia. reflexivity.
Qed.

(** [s.match(re)] for a literal pattern counts the occurrences of the
    literal from left to right without overlap. *)
Lemma match_count_literal :
  match_count re s = count_hits (ci_starts true t) (length t) s 0.
Proof.
  unfold match_count. rewrite match_loop_literal by lia. reflexivity.
Qed.

End LiteralCount.

(** On the lower-cased body, the matches of a lower-case literal term
    are the occurrences of the term in the body. *)
Lemma match_count_occurrences (t body : jsstring) :
  t <> [] -> toLowerCase t = t ->
  match_count (literal_gi t) (toLowerCase body) = occurrences t body.
Proof.
  intros Ht Hlow.
  rewrite (@match_count_literal (literal_gi t) t (toLowerCase body) eq_refl eq_refl Ht).
  unfold occurrences. rewrite Hlow.
  apply count_hits_ext; [|apply toLowerCase_lowered].
  intros x Hx. apply ci_starts_lowered; [apply toLowerCase_fixed; exact Hlow | exact Hx].
Qed.

Lemma occurrences_lower (t body : jsstring) :
  length (toLowerCase t) = length t ->
  occurrences (toLowerCase t) body = occurrences t body.
Proof.
  intros H. unfold occurrences. rewrite toLowerCase_idempotent, H. reflexivity.
Qed.

(** One turn of the loop of [scoreRelevance], once the term is compiled. *)
Lemma score_terms_step (ttl text desc term : jsstring) (rest : list jsstring)
    (sc : nat) (re : RegExp) :
  RegExp_gi term = Ret re ->
  score_terms ttl text desc (term :: rest) sc =
    score_terms ttl text desc rest
      (sc + (if includes ttl term then 5 else 0)
          + (if includes desc term then 2 else 0)
          + Nat.min (match_count re text) 20).
Proof.
  intros H. cbn [score_terms]. rewrite H. cbn [bind]. f_equal.
  unfold str_match.
  destruct (includes ttl term); destruct (includes desc term);
    destruct (match_count re text); simpl; lia.
Qed.

(** [scoreRelevance] on a query that is not empty, once it is tokenized. *)
Lemma scoreRelevance_nonempty (v : video) (query : jsstring) (terms : list jsstring) :
  query <> [] ->
  split_terms (toLowerCase query) = Ret terms ->
  scoreRelevance v query =
    (sc <- score_terms (toLowerCase (title v)) (toLowerCase (transcript v))
                       (toLowerCase (description v)) terms 0 ;;
     Ret (sc + phrase_bonus v query)).
Proof.
  intros Hq Ht. unfold scoreRelevance, phrase_bonus.
  destruct query as [|c q]; [contradiction|].
  rewrite Ht. cbn [bind].
  destruct (score_terms _ _ _ terms 0) as [sc|e]; [|reflexivity].
  cbn [bind]. destruct (includes _ _); destruct (includes _ _); f_equal; lia.
Qed.

(** ** The pattern that [highlightTerms] builds *)

Ltac each_char c := destruct c as [[[] [] [] [] [] [] [] []]| | |].

(** A character outside the escaped class is an ordinary pattern character. *)
Lemma tokenize_ordinary (c : code_unit) (p : jsstring) :
  is_special c = false ->
  tokenize (c :: p) = TChr c :: tokenize p /\ is_char "?" c = false.
Proof.
  intros H. cbn [tokenize].
  assert (Hc : is_char "\" c = false /\ is_char "(" c = false /\
               is_quant_char c = false /\ simple_token c = TChr c /\
               is_char "?" c = false).
  { revert H. each_char c; vm_compute; intros H;
      try discriminate H; repeat split. }
  destruct Hc as (-> & -> & -> & -> & ->). split; reflexivity.
Qed.

(** A character of the escaped class, after a backslash, stands for itself. *)
Lemma escape_token_special (c : code_unit) : is_special c = true -> escape_token c = TChr c.
Proof.
  each_char c; vm_compute; intros H; try discriminate H; reflexivity.
Qed.

Lemma tokenize_escape_term (t rest : jsstring) :
  tokenize (escape_term t ++ rest) = map TChr t ++ tokenize rest.
Proof.
  induction t as [|c t IH]; [reflexivity|].
  unfold escape_term in *. cbn [flat_map map].
  destruct (is_special c) eqn:E.
  - cbn [app]. change (tokenize (ch "\" :: c :: flat_map
        (fun c0 => if is_special c0 then [ch "\"; c0] else [c0]) t ++ rest))
      with (escape_token c :: tokenize (flat_map
        (fun c0 => if is_special c0 then [ch "\"; c0] else [c0]) t ++ rest)).
    rewrite IH, (@escape_token_special c E). reflexivity.
  - cbn [app]. rewrite (proj1 (@tokenize_ordinary c _ E)), IH. reflexivity.
Qed.

Lemma tokenize_join_bar (terms : list jsstring) (rest : jsstring) :
  tokenize (join_bar (map escape_term terms) ++ rest) = alt_tokens terms ++ tokenize rest.
Proof.
  induction terms as [|t terms IH]; [reflexivity|].
  destruct terms as [|t' terms].
  - cbn [map join_bar alt_tokens]. apply tokenize_escape_term.
  - change (join_bar (map escape_term (t :: t' :: terms)))
      with (escape_term t ++ ch "|" :: join_bar (map escape_term (t' :: terms))).
    change (alt_tokens (t :: t' :: terms))
      with (map TChr t ++ TBar :: alt_tokens (t' :: terms)).
    rewrite <- !app_assoc, tokenize_escape_term. cbn [app]. f_equal.
    change (tokenize (ch "|" :: join_bar (map escape_term (t' :: terms)) ++ rest))
      with (TBar :: tokenize (join_bar (map escape_term (t' :: terms)) ++ rest)).
    rewrite IH. reflexivity.
Qed.

Lemma alt_tokens_not_out (terms : list jsstring) : existsb is_out (alt_tokens terms) = false.
Proof.
  assert (Hc : forall t, existsb is_out (map TChr t) = false)
    by (induction t; [reflexivity | assumption]).
  induction terms as [|t terms IH]; [reflexivity|].
  destruct terms as [|t' terms]; [apply Hc|].
  change (alt_tokens (t :: t' :: terms))
    with (map TChr t ++ TBar :: alt_tokens (t' :: terms)).
  rewrite existsb_app, Hc. exact IH.
Qed.

Lemma tokenize_highlight_source (c : code_unit) (t : jsstring) (terms : list jsstring) :
  tokenize (highlight_source ((c :: t) :: terms))
    = TOpen :: alt_tokens ((c :: t) :: terms) ++ [TClose].
Proof.
  change [TClose] with (tokenize [ch ")"]).
  rewrite <- (tokenize_join_bar ((c :: t) :: terms) [ch ")"]).
  unfold highlight_source.
  assert (H : exists d p, join_bar (map escape_term ((c :: t) :: terms)) ++ [ch ")"] = d :: p
                          /\ is_char "?" d = false).
  { assert (Hfirst : exists d p, escape_term (c :: t) = d :: p /\ is_char "?" d = false).
    { unfold escape_term. cbn [flat_map]. destruct (is_special c) eqn:E.
      - eexists _, _. split; reflexivity.
      - eexists _, _. split; [reflexivity|]. apply (@tokenize_ordinary c [] E). }
    destruct Hfirst as (d & p & Hd & Hq).
    destruct terms as [|t' terms]; cbn [map join_bar]; rewrite Hd;
      eexists _, _; (split; [reflexivity | exact Hq]). }
  destruct H as (d & p & -> & Hq).
  cbn [tokenize]. change (is_char "\" (ch "(")) with false.
  change (is_char "(" (ch "(")) with true. cbv iota. rewrite Hq. reflexivity.
Qed.

Lemma parse_chars (t : jsstring) (ts : list token) (f : frame) (outer : list frame) (n : nat) :
  parse_tokens (f :: outer, n) (map TChr t ++ ts) =
  parse_tokens ({| f_kind := f_kind f; f_alts := f_alts f;
                   f_cur := rev (map Chr t) ++ f_cur f;
                   f_quantifiable := match t with
                                     | [] => f_quantifiable f
                                     | _ => true
                                     end |} :: outer, n) ts.
Proof.
  revert f. induction t as [|c t IH]; intros f.
  - destruct f. reflexivity.
  - cbn [map app parse_tokens parse_step bind]. rewrite IH.
    cbn [push_term f_kind f_alts f_cur f_quantifiable rev].
    rewrite <- app_assoc. cbn [app]. destruct t; reflexivity.
Qed.

Lemma parse_alternatives (terms : list jsstring) :
  terms <> [] ->
  forall (alts : list regex) (q : bool) (k : nat) (g : frame) (outer : list frame) (n : nat),
    parse_tokens ({| f_kind := Some k; f_alts := alts; f_cur := [];
                     f_quantifiable := q |} :: g :: outer, n)
                 (alt_tokens terms ++ [TClose])
    = Ret (push_term (Group k (disj (rev alts ++ map literal terms))) true g :: outer, n).
Proof.
  induction terms as [|t terms IH]; [contradiction|]. intros _ alts q k g outer n.
  destruct terms as [|t' terms].
  - cbn [alt_tokens]. rewrite parse_chars.
    cbn [parse_tokens parse_step bind f_kind f_alts f_cur]. unfold finish.
    cbn [f_cur f_alts rev map]. rewrite app_nil_r, rev_involutive. reflexivity.
  - change (alt_tokens (t :: t' :: terms))
      with (map TChr t ++ TBar :: alt_tokens (t' :: terms)).
    rewrite <- app_assoc, parse_chars.
    cbn [app parse_tokens parse_step bind f_kind f_alts f_cur].
    rewrite app_nil_r, rev_involutive.
    rewrite (IH ltac:(discriminate)).
    cbn [rev]. rewrite <- app_assoc. reflexivity.
Qed.

(** Escaped terms always compile, to the disjunction of their literals
    in one capturing group. *)
Lemma RegExp_gi_highlight_source (c : code_unit) (t : jsstring) (terms : list jsstring) :
  RegExp_gi (highlight_source ((c :: t) :: terms))
    = Ret (highlight_regex ((c :: t) :: terms)).
Proof.
  unfold RegExp_gi, parse_pattern. rewrite tokenize_highlight_source.
  cbn [existsb is_out orb]. rewrite existsb_app, alt_tokens_not_out.
  cbn [existsb is_out orb parse_tokens parse_step bind]. unfold empty_frame.
  rewrite (parse_alternatives (terms := (c :: t) :: terms) ltac:(discriminate)).
  reflexivity.
Qed.

Lemma ends_mk_alt (ic : bool) (s : jsstring) (l : list regex) (r : regex) (x : mstate) :
  ends ic s (mk_alt r l) x = ends ic s r x ++ flat_map (fun r' => ends ic s r' x) l.
Proof.
  revert r. induction l as [|r' l IH]; intros r; cbn [mk_alt flat_map].
  - rewrite app_nil_r. reflexivity.
  - cbn [ends]. rewrite IH. reflexivity.
Qed.

Lemma exec_at_highlight (terms : list jsstring) (s : jsstring) (i : nat) :
  terms <> [] ->
  exec_at (highlight_regex terms) s i =
    match option_map (@length code_unit) (first_term terms (skipn i s)) with
    | Some n => Some (i + n, [Some (i, i + n)])
    | None => None
    end.
Proof.
  intros Hne. unfold exec_at, highlight_regex.
  cbn [re_pattern re_ignoreCase p_regex p_groups repeat ends].
  assert (Hd : ends true s (disj (map literal terms)) (i, [None]) =
               flat_map (fun t => if ci_starts true t (skipn i s)
                                  then [(i + length t, [None])] else []) terms).
  { destruct terms as [|t terms]; [contradiction|].
    cbn [disj map]. rewrite ends_mk_alt, flat_map_concat_map, map_map,
      <- flat_map_concat_map.
    cbn [flat_map]. rewrite ends_literal. f_equal.
    apply flat_map_ext. intros t'. apply ends_literal. }
  rewrite Hd. clear Hd Hne. unfold first_term.
  induction terms as [|t terms IH]; [reflexivity|].
  cbn [flat_map find]. destruct (ci_starts true t (skipn i s)).
  - reflexivity.
  - exact IH.
Qed.

(** ** The fragments of [highlightTerms] *)

Lemma slice_split (s : jsstring) (p q : nat) :
  p <= q -> skipn p s = slice s p q ++ skipn q s.
Proof.
  intros H. unfold slice.
  replace (skipn q s) with (skipn (q - p) (skipn p s))
    by (rewrite skipn_skipn; f_equal; lia).
  symmetry. apply firstn_skipn.
Qed.

Lemma slice_to_end (s : jsstring) (p : nat) : slice s p (length s) = skipn p s.
Proof.
  unfold slice. apply firstn_all2. rewrite length_skipn. lia.
Qed.

Lemma skipn_slice (s : jsstring) (p q j : nat) :
  skipn j (slice s p q) = firstn (q - p - j) (skipn (j + p) s).
Proof.
  unfold slice. rewrite skipn_firstn_comm, skipn_skipn. reflexivity.
Qed.

Lemma find_nothing (A : Type) (f : A -> bool) (l : list A) :
  (forall x, In x l -> f x = false) -> find f l = None.
Proof.
  induction l as [|a l IH]; intros H; [reflexivity|].
  simpl. rewrite (H a (or_introl eq_refl)). apply IH.
  intros x Hx. apply H. right. exact Hx.
Qed.

Section Highlight.

Variable terms : list jsstring.

Hypothesis terms_nonempty : terms <> [].
Hypothesis terms_long : Forall (fun t => 1 < length t) terms.

Lemma first_term_nil : first_term terms [] = None.
Proof.
  unfold first_term. apply find_nothing. intros t Ht.
  pose proof (proj1 (Forall_forall _ _) terms_long t Ht) as Hlong.
  destruct t; [simpl in Hlong; lia | reflexivity].
Qed.

Lemma first_term_firstn (x : jsstring) (m : nat) :
  first_term terms x = None -> first_term terms (firstn m x) = None.
Proof.
  unfold first_term. intros H. apply find_nothing. intros t Ht.
  destruct (ci_starts true t (firstn m x)) eqn:E; [|reflexivity].
  apply ci_starts_firstn in E. rewrite (find_none _ _ H t Ht) in E. discriminate E.
Qed.

Lemma slice_is_gap (s : jsstring) (p q : nat) :
  (forall j, p <= j < q -> first_term terms (skipn j s) = None) ->
  is_gap terms (slice s p q).
Proof.
  intros H j. rewrite skipn_slice.
  destruct (Nat.lt_ge_cases (j + p) q) as [Hlt|Hge].
  - apply first_term_firstn, H. lia.
  - replace (q - p - j) with 0 by lia. apply first_term_nil.
Qed.

(** What a term matches equals the term, case ignored. *)
Lemma matched_equals_term (t x : jsstring) :
  In t terms -> ci_starts true t x = true ->
  equals_some_term terms (firstn (length t) x) = true.
Proof.
  intros Ht Hx. unfold equals_some_term. apply existsb_exists.
  exists t. split; [exact Ht|].
  rewrite (ci_starts_lower t x Hx).
  destruct (list_eq_dec cu_dec (toLowerCase t) (toLowerCase t)); [reflexivity | contradiction].
Qed.

Lemma split_loop_highlight (s : jsstring) (fuel p q : nat) :
  p <= q -> q <= length s -> length s - q < fuel ->
  (forall j, p <= j < q -> first_term terms (skipn j s) = None) ->
  exists pieces,
    split_loop (highlight_regex terms) s fuel p q = map Some pieces /\
    concat pieces = skipn p s /\
    Forall (is_fragment terms) pieces.
Proof.
  revert p q. induction fuel as [|fuel IH]; intros p q Hpq Hq Hfuel Hgap; [lia|].
  cbn [split_loop]. destruct (Nat.ltb_spec q (length s)) as [Hlt|Hge].
  - rewrite (exec_at_highlight s q terms_nonempty).
    destruct (first_term terms (skipn q s)) as [t|] eqn:E.
    + cbn [option_map].
      pose proof (find_some _ _ E) as [Ht Hstarts].
      pose proof (ci_starts_length _ _ _ Hstarts) as Hlen.
      rewrite length_skipn in Hlen.
      pose proof (proj1 (Forall_forall _ _) terms_long t Ht) as Hlong.
      cbv beta in Hlong.
      rewrite Nat.min_l by lia.
      replace (q + length t =? p) with false by (symmetry; apply Nat.eqb_neq; lia).
      destruct (IH (q + length t) (q + length t)) as (pieces & Hsplit & Hcat & Hfrag);
        try lia.
      exists (slice s p q :: slice s q (q + length t) :: pieces).
      split; [|split].
      * cbn [map capture_text app]. rewrite Hsplit. reflexivity.
      * cbn [concat]. rewrite Hcat, <- (slice_split s (p := q)) by lia.
        symmetry. apply slice_split. exact Hpq.
      * constructor; [left; apply slice_is_gap; exact Hgap|].
        constructor; [|exact Hfrag]. right. unfold slice.
        replace (q + length t - q) with (length t) by lia.
        apply matched_equals_term; assumption.
    + cbn [option_map]. apply IH; try lia.
      intros j Hj. destruct (Nat.eq_dec j q) as [->|Hne]; [exact E|].
      apply Hgap. lia.
  - assert (q = length s) by lia. subst q.
    exists [slice s p (length s)]. split; [reflexivity|]. split.
    + cbn [concat]. rewrite app_nil_r. apply slice_to_end.
    + constructor; [|constructor]. left. apply slice_is_gap. exact Hgap.
Qed.

(** The fragments [text.split(regex)] returns for a text that is not
    empty: all defined, in order, and together the text. *)
Lemma split_highlight (c : code_unit) (s : jsstring) :
  exists pieces,
    split (highlight_regex terms) (c :: s) = map Some pieces /\
    concat pieces = c :: s /\
    Forall (is_fragment terms) pieces.
Proof.
  unfold split.
  destruct (@split_loop_highlight (c :: s) (2 * length (c :: s) + 2) 0 0)
    as (pieces & H1 & H2 & H3); try lia.
  exists pieces. repeat split; assumption.
Qed.

(** [regex.test] finds nothing in a gap, whatever [lastIndex] it starts from. *)
Lemma test_gap (g : jsstring) (li : nat) :
  is_gap terms g -> test (highlight_regex terms) g li = (false, 0).
Proof.
  intros Hg. unfold test, exec_global.
  destruct (search (highlight_regex terms) g (S (length g) - li) li) as [[st m]|] eqn:E;
    [|reflexivity].
  apply (@search_some (highlight_regex terms) g (fun x => option_map (@length code_unit) (first_term terms x))
           (fun i n => [Some (i, i + n)])
           (fun i => exec_at_highlight g i terms_nonempty)) in E.
  destruct E as (_ & (k & Hk & _) & _). rewrite (Hg st) in Hk. discriminate Hk.
Qed.

(** The label of every fragment is decided by the comparison with the
    terms alone, whatever the [lastIndex] the shared RegExp has reached. *)
Lemma label_parts_highlight (pieces : list jsstring) :
  Forall (is_fragment terms) pieces ->
  forall li,
    label_parts (highlight_regex terms) terms (map Some pieces) li =
    Ret (map (fun p => {| sp_text := Some p; highlight := equals_some_term terms p |})
             pieces).
Proof.
  induction 1 as [|p pieces Hp _ IH]; intros li; [reflexivity|].
  cbn [map label_parts].
  assert (Hl : forall found : bool,
            (if found then Ret true
             else match terms with
                  | [] => Ret false
                  | _ :: _ => Ret (equals_some_term terms p)
                  end) = Ret (found || equals_some_term terms p)).
  { intros [|]; [reflexivity|]. destruct terms; [contradiction | reflexivity]. }
  destruct (test (highlight_regex terms) p li) as [found li'] eqn:Et.
  rewrite Hl. cbn [bind]. rewrite IH. cbn [bind]. do 3 f_equal.
  destruct Hp as [Hgap|Heq].
  - rewrite (test_gap li Hgap) in Et. injection Et as <- _. reflexivity.
  - rewrite Heq. apply orb_true_r.
Qed.

End Highlight.

(** ** The fuel of the loops is never used up *)

Lemma on_char_advances (s : jsstring) (f : code_unit -> bool) :
  advances s (fun x => on_char s x f).
Proof.
  intros x y. unfold on_char. destruct (nth_error s (fst x)) as [d|] eqn:E; [|intros []].
  destruct (f d); [|intros []]. intros [<-|[]]. cbn [fst].
  assert (fst x < length s) by (apply nth_error_Some; congruence). lia.
Qed.

Lemma repeat_ends_advances (s : jsstring) (m : mstate -> list mstate)
    (ks : list nat) (greedy : bool) :
  advances s m -> forall fuel mn mx, advances s (repeat_ends m ks greedy fuel mn mx).
Proof.
  intros Hm. induction fuel as [|fuel IH]; intros mn mx x y Hy.
  - destruct mx as [[|n]|]; simpl in Hy; try contradiction.
    destruct Hy as [<-|[]]. lia.
  - assert (Hiter : forall mx',
      In y (flat_map (fun z => if (mn =? 0) && (fst z =? fst x) then []
                               else repeat_ends m ks greedy fuel (pred mn) mx' z)
                     (m (fst x, reset_captures ks (snd x)))) ->
      fst x <= fst y /\ (fst x <= length s -> fst y <= length s)).
    { intros mx' H. apply in_flat_map in H. destruct H as (z & Hz & H).
      apply Hm in Hz. cbn [fst] in Hz.
      destruct ((mn =? 0) && (fst z =? fst x)); [destruct H|].
      apply IH in H. lia. }
    assert (Hall : forall mx',
      In y (let iter := flat_map (fun z => if (mn =? 0) && (fst z =? fst x) then []
                               else repeat_ends m ks greedy fuel (pred mn) mx' z)
                     (m (fst x, reset_captures ks (snd x))) in
            if negb (mn =? 0) then iter else if greedy then iter ++ [x] else x :: iter)
      -> fst x <= fst y /\ (fst x <= length s -> fst y <= length s)).
    { intros mx' H. cbv zeta in H.
      destruct (negb (mn =? 0)); [apply (Hiter mx'); exact H|].
      destruct greedy.
      - apply in_app_or in H. destruct H as [H|[<-|[]]];
          [apply (Hiter mx'); exact H | lia].
      - destruct H as [<-|H]; [lia | apply (Hiter mx'); exact H]. }
    destruct mx as [[|n]|]; simpl in Hy.
    + destruct Hy as [<-|[]]. lia.
    + apply (Hall (Some n)). exact Hy.
    + apply (Hall None). exact Hy.
Qed.

Lemma ends_advances (ic : bool) (s : jsstring) (r : regex) : advances s (ends ic s r).
Proof.
  induction r as [| c | | | | | r1 IH1 r2 IH2 | r1 IH1 r2 IH2 | k r IH | r IH mn mx greedy];
    intros x y Hy; cbn [ends] in Hy.
  - destruct Hy as [<-|[]]. lia.
  - apply (on_char_advances s (char_matches ic c) x y Hy).
  - apply (on_char_advances s _ x y Hy).
  - apply (on_char_advances s is_ws x y Hy).
  - destruct (fst x =? 0); [|destruct Hy]. destruct Hy as [<-|[]]. lia.
  - destruct (fst x =? length s); [|destruct Hy]. destruct Hy as [<-|[]]. lia.
  - apply in_flat_map in Hy. destruct Hy as (z & Hz & Hy).
    apply IH1 in Hz. apply IH2 in Hy. lia.
  - apply in_app_or in Hy. destruct Hy as [Hy|Hy]; [apply IH1 | apply IH2]; exact Hy.
  - apply in_map_iff in Hy. destruct Hy as (z & <- & Hz). apply IH in Hz. exact Hz.
  - apply (@repeat_ends_advances s (ends ic s r) (groups_of r) greedy IH _ _ _ x y Hy).
Qed.

Lemma flat_map_ext_in (A B : Type) (f g : A -> list B) (l : list A) :
  (forall a, In a l -> f a = g a) -> flat_map f l = flat_map g l.
Proof.
  intros H. induction l as [|a l IH]; [reflexivity|].
  cbn [flat_map]. rewrite (H a (or_introl eq_refl)), IH; [reflexivity|].
  intros b Hb. apply H. right. exact Hb.
Qed.

(** Past [min + (length - index)], more fuel does not change what a
    repetition matches: the bound given in [ends] is enough. *)
Lemma repeat_ends_fuel (s : jsstring) (m : mstate -> list mstate) (ks : list nat)
    (greedy : bool) :
  advances s m ->
  forall fuel fuel' mn mx x,
    fst x <= length s ->
    mn + (length s - fst x) < fuel -> mn + (length s - fst x) < fuel' ->
    repeat_ends m ks greedy fuel mn mx x = repeat_ends m ks greedy fuel' mn mx x.
Proof.
  intros Hm. induction fuel as [|fuel IH]; intros fuel' mn mx x Hx H1 H2; [lia|].
  destruct fuel' as [|fuel']; [lia|].
  assert (Hiter : forall mx',
    flat_map (fun y => if (mn =? 0) && (fst y =? fst x) then []
                       else repeat_ends m ks greedy fuel (pred mn) mx' y)
             (m (fst x, reset_captures ks (snd x)))
    = flat_map (fun y => if (mn =? 0) && (fst y =? fst x) then []
                         else repeat_ends m ks greedy fuel' (pred mn) mx' y)
               (m (fst x, reset_captures ks (snd x)))).
  { intros mx'. apply flat_map_ext_in. intros y Hy. apply Hm in Hy. cbn [fst] in Hy.
    destruct (Nat.eqb_spec mn 0) as [->|Hmn]; cbn [andb].
    - destruct (Nat.eqb_spec (fst y) (fst x)); [reflexivity|].
      apply IH; simpl; lia.
    - apply IH; lia. }
  destruct mx as [[|n]|]; cbn [repeat_ends pred_max]; [reflexivity| |];
    rewrite Hiter; reflexivity.
Qed.

Lemma exec_at_advances (re : RegExp) (s : jsstring) (i : nat) (m : mstate) :
  exec_at re s i = Some m -> i <= fst m /\ (i <= length s -> fst m <= length s).
Proof.
  unfold exec_at. intros H.
  destruct (ends _ _ _ _) as [|y l] eqn:E; [discriminate H|].
  injection H as ->.
  apply (@ends_advances (re_ignoreCase re) s (p_regex (re_pattern re))
           (i, repeat None (p_groups (re_pattern re))) m).
  rewrite E. left. reflexivity.
Qed.

Lemma search_found (re : RegExp) (s : jsstring) (n i st : nat) (m : mstate) :
  search re s n i = Some (st, m) -> i <= st < i + n /\ exec_at re s st = Some m.
Proof.
  revert i. induction n as [|n IH]; intros i H; [discriminate H|].
  simpl in H. destruct (exec_at re s i) as [m'|] eqn:E.
  - injection H as <- <-. split; [lia | exact E].
  - apply IH in H. split; [lia | apply H].
Qed.

(** [length s + 2 - lastIndex] turns are enough for the loop of [match]. *)
Lemma match_loop_fuel (re : RegExp) (s : jsstring) (fuel fuel' li : nat) :
  length s + 2 <= fuel + li -> length s + 2 <= fuel' + li ->
  match_loop re s fuel li = match_loop re s fuel' li.
Proof.
  revert fuel' li. induction fuel as [|fuel IH]; intros fuel' li H1 H2.
  - destruct fuel' as [|fuel']; [reflexivity|].
    simpl. unfold exec_global. replace (S (length s) - li) with 0 by lia. reflexivity.
  - destruct fuel' as [|fuel'].
    + simpl. unfold exec_global. replace (S (length s) - li) with 0 by lia. reflexivity.
    + simpl. unfold exec_global.
      destruct (search re s (S (length s) - li) li) as [[st m]|] eqn:E; [|reflexivity].
      apply search_found in E. destruct E as [Hst Hm].
      apply exec_at_advances in Hm. f_equal.
      destruct (Nat.eqb_spec (fst m) st); apply IH; lia.
Qed.

(** [2 * (length s - q) + 2] turns are enough for the loop of [split]. *)
Lemma split_loop_fuel (re : RegExp) (s : jsstring) (fuel fuel' p q : nat) :
  2 * (length s - q) + (if p =? q then 0 else 1) < fuel ->
  2 * (length s - q) + (if p =? q then 0 else 1) < fuel' ->
  split_loop re s fuel p q = split_loop re s fuel' p q.
Proof.
  revert fuel' p q. induction fuel as [|fuel IH]; intros fuel' p q H1 H2; [lia|].
  destruct fuel' as [|fuel']; [lia|].
  cbn [split_loop]. destruct (Nat.ltb_spec q (length s)) as [Hq|Hq]; [|reflexivity].
  assert (Hnext : split_loop re s fuel p (S q) = split_loop re s fuel' p (S q)).
  { apply IH; destruct (Nat.eqb_spec p q); destruct (Nat.eqb_spec p (S q)); lia. }
  destruct (exec_at re s q) as [[e0 caps]|] eqn:E; [|exact Hnext].
  apply exec_at_advances in E. cbn [fst] in E.
  destruct (Nat.eqb_spec (Nat.min e0 (length s)) p) as [He|He]; [exact Hnext|].
  do 2 f_equal. apply IH; rewrite Nat.eqb_refl;
    destruct (Nat.eqb_spec p q); lia.
Qed.

(** [length lower] turns are enough for the loop of [extractExcerpt]. *)
Lemma scan_windows_fuel (lower : jsstring) (terms : list jsstring) (maxLen : nat)
    (fuel fuel' i bestPos bestScore : nat) :
  length lower <= fuel + i -> length lower <= fuel' + i ->
  scan_windows lower terms maxLen fuel i bestPos bestScore
    = scan_windows lower terms maxLen fuel' i bestPos bestScore.
Proof.
  revert fuel' i bestPos bestScore.
  induction fuel as [|fuel IH]; intros fuel' i bestPos bestScore H1 H2.
  - destruct fuel'; simpl;
      (replace (i + 100 <? length lower) with false
         by (symmetry; apply Nat.ltb_ge; lia)); reflexivity.
  - destruct fuel' as [|fuel'].
    + simpl. replace (i + 100 <? length lower) with false
        by (symmetry; apply Nat.ltb_ge; lia). reflexivity.
    + cbn [scan_windows]. destruct (i + 100 <? length lower); [|reflexivity].
      destruct (window_score _ terms 0) as [sc|e]; [|reflexivity].
      cbn [bind]. destruct (bestScore <? sc); apply IH; lia.
Qed.

(** ** Queries without metacharacters never throw *)

Lemma tokenize_plain (t : jsstring) : plain t -> tokenize t = map TChr t.
Proof.
  unfold plain. induction t as [|c t IH]; intros H; [reflexivity|].
  cbn [forallb] in H. apply andb_prop in H. destruct H as [Hc Ht].
  apply negb_true_iff in Hc.
  rewrite (proj1 (@tokenize_ordinary c t Hc)), (IH Ht). reflexivity.
Qed.

(** A plain term compiles to the literal of its characters. *)
Lemma RegExp_gi_plain (t : jsstring) : plain t -> RegExp_gi t = Ret (literal_gi t).
Proof.
  intros H. unfold RegExp_gi, parse_pattern. rewrite (tokenize_plain H).
  replace (existsb is_out (map TChr t)) with false
    by (symmetry; clear H; induction t as [|c t IH]; [reflexivity | exact IH]).
  rewrite <- (app_nil_r (map TChr t)), parse_chars.
  cbn [parse_tokens bind]. unfold finish, literal_gi.
  cbn [f_cur f_alts empty_frame rev app mk_alt].
  rewrite app_nil_r, rev_involutive. reflexivity.
Qed.

Lemma score_terms_returns (ttl text desc : jsstring) (terms : list jsstring) :
  Forall plain terms ->
  forall sc, exists n, score_terms ttl text desc terms sc = Ret n.
Proof.
  induction 1 as [|t terms Ht _ IH]; intros sc.
  - exists sc. reflexivity.
  - rewrite (@score_terms_step _ _ _ t _ _ (literal_gi t) (RegExp_gi_plain Ht)).
    apply IH.
Qed.

(** [scoreRelevance] returns for a query whose terms are plain. *)
Lemma scoreRelevance_returns (v : video) (query : jsstring) (terms : list jsstring) :
  split_terms (toLowerCase query) = Ret terms -> Forall plain terms ->
  exists n, scoreRelevance v query = Ret n.
Proof.
  intros Ht Hp. destruct query as [|c q]; [exists 0; reflexivity|].
  rewrite (@scoreRelevance_nonempty v (c :: q) terms) by (discriminate || exact Ht).
  destruct (score_terms_returns (toLowerCase (title v)) (toLowerCase (transcript v))
              (toLowerCase (description v)) Hp 0) as (n & ->).
  eexists. reflexivity.
Qed.

Lemma window_score_returns (window : jsstring) (terms : list jsstring) :
  Forall plain terms -> forall sc, exists n, window_score window terms sc = Ret n.
Proof.
  induction 1 as [|t terms Ht _ IH]; intros sc.
  - exists sc. reflexivity.
  - cbn [window_score]. rewrite (RegExp_gi_plain Ht). cbn [bind]. apply IH.
Qed.

Lemma scan_windows_returns (lower : jsstring) (terms : list jsstring) (maxLen : nat) :
  Forall plain terms ->
  forall fuel i bestPos bestScore,
    exists b, scan_windows lower terms maxLen fuel i bestPos bestScore = Ret b.
Proof.
  intros Hp. induction fuel as [|fuel IH]; intros i bestPos bestScore;
    cbn [scan_windows]; destruct (i + 100 <? length lower);
    try (eexists; reflexivity).
  destruct (window_score_returns (slice lower i (i + maxLen)) Hp 0) as (sc & ->).
  cbn [bind]. destruct (bestScore <? sc); apply IH.
Qed.

(** [extractExcerpt] returns for a query whose terms are plain. *)
Lemma extractExcerpt_returns (text query : jsstring) (maxLen : nat) (terms : list jsstring) :
  split_terms (toLowerCase query) = Ret terms -> Forall plain terms ->
  exists e, extractExcerpt text query maxLen = Ret e.
Proof.
  intros Ht Hp. unfold extractExcerpt.
  destruct text as [|c text]; [eexists; reflexivity|].
  destruct query as [|d q]; [eexists; reflexivity|].
  unfold excerpt_parts_of. rewrite Ht. cbn [bind].
  destruct (scan_windows_returns (toLowerCase (c :: text)) maxLen Hp
              (length (toLowerCase (c :: text))) 0 0 0) as (b' & ->).
  cbn [bind]. eexists. reflexivity.
Qed.

(** The ranking pipeline returns for a query whose terms are plain. *)
Lemma doKeywordSearch_returns (database : option (list video)) (query : jsstring)
    (terms : list jsstring) :
  split_terms (toLowerCase query) = Ret terms -> Forall plain terms ->
  exists r, doKeywordSearch database query = Ret r.
Proof.
  intros Ht Hp. unfold doKeywordSearch.
  destruct database as [videos|]; [|eexists; reflexivity].
  destruct (trim query); [eexists; reflexivity|].
  assert (Hall : forall vs, exists l, score_all vs query = Ret l).
  { induction vs as [|v vs (l & IH)]; [eexists; reflexivity|].
    cbn [score_all].
    destruct (scoreRelevance_returns v query Ht Hp) as (n & ->).
    destruct (extractExcerpt_returns (transcript v) query default_maxLen Ht Hp)
      as (e & ->).
    rewrite IH. eexists. reflexivity. }
  destruct (Hall (filter transcriptAvailable videos)) as (l & ->).
  eexists. reflexivity.
Qed.

(** ** Appending to the body, for queries without metacharacters *)

Lemma starts_with_app (t s x : jsstring) :
  starts_with t s = true -> starts_with t (s ++ x) = true.
Proof.
  revert s. induction t as [|a t IH]; intros [|d s] H; try reflexivity;
    try discriminate H.
  simpl in *. apply andb_prop in H. destruct H as [-> H]. apply IH. exact H.
Qed.

Lemma includes_app (s x t : jsstring) :
  includes s t = true -> includes (s ++ x) t = true.
Proof.
  induction s as [|c s IH]; intros H.
  - simpl in H. rewrite orb_false_r in H. destruct t; [|discriminate H].
    destruct x; reflexivity.
  - cbn [includes app] in *. apply orb_prop in H. destruct H as [H|H].
    + change (c :: s ++ x) with ((c :: s) ++ x). rewrite (starts_with_app _ _ x H).
      reflexivity.
    + rewrite (IH H). apply orb_true_r.
Qed.

Lemma starts_with_length (t s : jsstring) :
  starts_with t s = true -> length t <= length s.
Proof.
  revert s. induction t as [|a t IH]; intros [|d s] H; simpl in *; try lia;
    try discriminate H.
  apply andb_prop in H. destruct H as [_ H]. apply IH in H. lia.
Qed.

Lemma count_hits_short (t s : jsstring) (k n : nat) :
  length s < length t -> count_hits (starts_with t) k s n = 0.
Proof.
  revert n. induction s as [|c s IH]; intros n H; [reflexivity|].
  cbn [count_hits]. destruct n as [|n]; [|apply IH; simpl in H; lia].
  destruct (starts_with t (c :: s)) eqn:E.
  - apply starts_with_length in E. lia.
  - apply IH. simpl in H. lia.
Qed.

Lemma starts_with_app_long (t s x : jsstring) :
  length t <= length s -> starts_with t (s ++ x) = starts_with t s.
Proof.
  revert s. induction t as [|a t IH]; intros [|d s] H; try reflexivity;
    simpl in *; try lia.
  rewrite IH by lia. reflexivity.
Qed.

(** Appending text never lowers the number of occurrences of a literal. *)
Lemma count_hits_app (t s x : jsstring) (n : nat) :
  count_hits (starts_with t) (length t) s n
    <= count_hits (starts_with t) (length t) (s ++ x) n.
Proof.
  revert n. induction s as [|c s IH]; intros n; [simpl; lia|].
  cbn [count_hits app]. destruct n as [|n]; [|apply IH].
  change (c :: s ++ x) with ((c :: s) ++ x).
  destruct (starts_with t (c :: s)) eqn:E.
  - rewrite (starts_with_app _ _ x E). specialize (IH (length t - 1)). lia.
  - destruct (starts_with t ((c :: s) ++ x)) eqn:E'; [|apply IH].
    destruct (Nat.le_gt_cases (length t) (length (c :: s))) as [Hle|Hgt].
    + rewrite (starts_with_app_long t (c :: s) x Hle) in E'. congruence.
    + rewrite count_hits_short by (simpl in Hgt; lia). lia.
Qed.

Lemma match_count_plain_app (t body x : jsstring) :
  t <> [] -> toLowerCase t = t ->
  match_count (literal_gi t) (toLowerCase body)
    <= match_count (literal_gi t) (toLowerCase (body ++ x)).
Proof.
  intros Ht Hlow. rewrite !match_count_occurrences by assumption.
  unfold occurrences. rewrite Hlow, toLowerCase_app.
  apply count_hits_app.
Qed.

Lemma score_terms_app (ttl desc body x : jsstring) (terms : list jsstring) :
  Forall plain terms -> Forall (fun t => t <> [] /\ toLowerCase t = t) terms ->
  forall sc sc', sc <= sc' ->
    exists n n',
      score_terms ttl (toLowerCase body) desc terms sc = Ret n /\
      score_terms ttl (toLowerCase (body ++ x)) desc terms sc' = Ret n' /\
      n <= n'.
Proof.
  intros Hp. induction Hp as [|t terms Ht _ IH]; intros Hl sc sc' Hsc.
  - exists sc, sc'. repeat split. exact Hsc.
  - inversion Hl as [|? ? [Hne Hlow] Hl']; subst.
    rewrite !(@score_terms_step _ _ _ t _ _ (literal_gi t) (RegExp_gi_plain Ht)).
    apply (IH Hl'). pose proof (match_count_plain_app body x Hne Hlow). lia.
Qed.

(** For a query whose terms have no metacharacter, appending any text to
    the body never lowers the score. *)
Lemma scoreRelevance_app (id ttl desc body x query : jsstring) (av : bool)
    (terms : list jsstring) :
  split_terms (toLowerCase query) = Ret terms ->
  Forall plain terms ->
  exists n n',
    scoreRelevance {| v_id := id; title := ttl; description := desc;
                      transcript := body; transcriptAvailable := av |} query = Ret n /\
    scoreRelevance {| v_id := id; title := ttl; description := desc;
                      transcript := body ++ x; transcriptAvailable := av |} query = Ret n' /\
    n <= n'.
Proof.
  intros Ht Hp. pose proof (split_terms_lower _ Ht) as Hlow.
  destruct query as [|c q].
  - exists 0, 0. repeat split. lia.
  - rewrite !(@scoreRelevance_nonempty _ (c :: q) terms) by (discriminate || exact Ht).
    cbn [title description transcript]. unfold phrase_bonus. cbn [title transcript].
    assert (Hl : Forall (fun t => t <> [] /\ toLowerCase t = t) terms).
    { pose proof (split_terms_long _ Ht) as Hlong. rewrite Forall_forall in *.
      intros t Hin. split; [|apply Hlow; exact Hin].
      specialize (Hlong t Hin). destruct t; [simpl in Hlong; lia | discriminate]. }
    destruct (score_terms_app (toLowerCase ttl) (toLowerCase desc) body x Hp Hl
                (Nat.le_refl 0)) as (n & n' & -> & -> & Hn).
    cbn [bind]. eexists _, _. split; [reflexivity|]. split; [reflexivity|].
    destruct (includes (toLowerCase body) _) eqn:E.
    + replace (toLowerCase (body ++ x)) with (toLowerCase body ++ toLowerCase x)
        by (symmetry; apply toLowerCase_app).
      rewrite (includes_app _ (toLowerCase x) _ E). lia.
    + destruct (includes (toLowerCase (body ++ x)) _); lia.
Qed.

(** ** Query terms are compiled as patterns (C1, C6) *)

(** C1: the query [((] makes [scoreRelevance] throw for every document,
    and [extractExcerpt] throw for a body of 101 characters; the term
    [a+b] is matched as a pattern: it is found once in [aab] and not at
    all in the text [a+b] itself. *)
Theorem unescaped_terms_are_patterns :
  (forall v, scoreRelevance v (js "((") = Throw SyntaxError) /\
  extractExcerpt (repeat (ch "x") 101) (js "((") default_maxLen = Throw SyntaxError /\
  (r <- RegExp_gi (js "a+b") ;; Ret (str_match r (js "aab"), str_match r (js "a+b")))
    = Ret (Some 1, None).
Proof.
  split; [|split].
  - intros v. reflexivity.
  - vm_compute. reflexivity.
  - vm_compute. reflexivity.
Qed.

(** C6: with the query [a$], whose only term occurs literally in the body
    [a$a], appending one more literal [a$] to the body lowers the score
    from 16 to 15: the term is compiled as a pattern, an [a] at the end
    of the text. *)
Theorem appending_a_term_can_lower_the_score :
  let q := js "a$" in
  let before := sample_video "t" "d" "a$a" in
  let after := sample_video "t" "d" "a$aa$" in
  split_terms (toLowerCase q) = Ret [q] /\
  includes (toLowerCase (transcript before)) q = true /\
  transcript after = transcript before ++ q /\
  scoreRelevance before q = Ret 16 /\
  scoreRelevance after q = Ret 15.
Proof. repeat split; vm_compute; reflexivity. Qed.

(** ** [highlightTerms] (C2, C7) *)

Lemma equals_some_term_nil (terms : list jsstring) :
  Forall (fun t => 1 < length t) terms -> equals_some_term terms [] = false.
Proof.
  induction 1 as [|t terms Ht _ IH]; [reflexivity|].
  unfold equals_some_term in *. cbn [existsb]. rewrite IH.
  destruct t as [|c t]; [simpl in Ht; lia|].
  destruct (list_eq_dec cu_dec (toLowerCase []) (toLowerCase (c :: t))) as [E|E];
    [|reflexivity].
  rewrite toLowerCase_cons in E. destruct c; discriminate E.
Qed.

(** [highlightTerms] always returns: the texts of its spans are fragments
    of the text, in order, and a span is highlighted exactly when its text
    equals a term of the query, case ignored. *)
Lemma highlightTerms_fragments (text query : jsstring) :
  exists terms pieces,
    split_terms query = Ret terms /\
    highlightTerms text query = Ret (map (labelled terms) pieces) /\
    concat pieces = text.
Proof.
  destruct (split_terms_returns query) as (terms & Hterms).
  pose proof (split_terms_long _ Hterms) as Hlong.
  exists terms. unfold highlightTerms.
  destruct text as [|c s].
  - exists [[]]. split; [exact Hterms|]. split; [|reflexivity].
    cbn [map]. unfold labelled. rewrite (equals_some_term_nil Hlong). reflexivity.
  - destruct query as [|d q].
    + exists [c :: s]. split; [exact Hterms|]. split; [|apply app_nil_r].
      vm_compute in Hterms. injection Hterms as <-. reflexivity.
    + rewrite Hterms. cbn [bind]. destruct terms as [|t terms].
      * exists [c :: s]. split; [reflexivity|]. split; [reflexivity | apply app_nil_r].
      * destruct t as [|c' t]; [inversion Hlong; simpl in *; lia|].
        change (ch "(" :: join_bar (map escape_term ((c' :: t) :: terms)) ++ [ch ")"])
          with (highlight_source ((c' :: t) :: terms)).
        rewrite RegExp_gi_highlight_source. cbn [bind].
        destruct (@split_highlight ((c' :: t) :: terms) ltac:(discriminate) Hlong c s)
          as (pieces & Hsplit & Hcat & Hfrag).
        exists pieces. split; [reflexivity|]. split; [|exact Hcat].
        rewrite Hsplit.
        apply (@label_parts_highlight ((c' :: t) :: terms) ltac:(discriminate) Hlong
                 pieces Hfrag).
Qed.

(** C2: for every text and every query, [highlightTerms] returns spans
    whose texts are all defined and, concatenated in order, are the text. *)
Theorem highlightTerms_lossless (text query : jsstring) :
  exists spans,
    highlightTerms text query = Ret spans /\
    Forall (fun sp => sp_text sp <> None) spans /\
    flat_map span_chars spans = text.
Proof.
  destruct (highlightTerms_fragments text query) as (terms & pieces & _ & Hh & Hcat).
  exists (map (labelled terms) pieces). split; [exact Hh|]. split.
  - apply Forall_forall. intros sp Hsp. apply in_map_iff in Hsp.
    destruct Hsp as (p & <- & _). discriminate.
  - rewrite <- Hcat, flat_map_concat_map, map_map. f_equal.
    transitivity (map (fun x : jsstring => x) pieces);
      [apply map_ext; reflexivity | apply map_id].
Qed.

Lemma equals_some_term_iff (terms : list jsstring) (p : jsstring) :
  equals_some_term terms p = true <->
  exists t, In t terms /\ toLowerCase p = toLowerCase t.
Proof.
  unfold equals_some_term. rewrite existsb_exists.
  split; intros (t & Ht & H); exists t; (split; [exact Ht|]);
    destruct (list_eq_dec cu_dec (toLowerCase p) (toLowerCase t));
    congruence.
Qed.


(** ** Queries without terms (C3) *)

(** C3, as stated, fails: the blank query of one space tokenizes to no
    term, and so does the one-letter query [a], yet a document whose body
    holds a space scores 15 for the first, and a document whose title and
    body hold an [a] scores 40 for the second. *)
Lemma scoreRelevance_blank_query_nonzero :
  forallb is_ws (js " ") = true /\
  split_terms (toLowerCase (js " ")) = Ret [] /\
  scoreRelevance (sample_video "t" "d" "hello world") (js " ") = Ret 15 /\
  split_terms (toLowerCase (js "a")) = Ret [] /\
  scoreRelevance (sample_video "a" "d" "a cat") (js "a") = Ret 40.
Proof. repeat split; vm_compute; reflexivity. Qed.

(** C3, amended: the empty query scores 0, and a non-empty query that is
    blank, or that tokenizes to an empty term list in any other way,
    scores exactly the whole-query bonuses: 15 when the lower-cased query
    occurs in the body plus 25 when it occurs in the title. *)
Theorem scoreRelevance_no_terms (v : video) (query : jsstring) :
  forallb is_ws query = true \/ split_terms (toLowerCase query) = Ret [] ->
  scoreRelevance v query =
    Ret (match query with
         | [] => 0
         | _ => phrase_bonus v query
         end).
Proof.
  intros H.
  assert (Hterms : split_terms (toLowerCase query) = Ret []).
  { destruct H as [H|H]; [|exact H].
    apply blank_query_no_terms. rewrite toLowerCase_blank. exact H. }
  unfold scoreRelevance, phrase_bonus.
  destruct query as [|c q]; [reflexivity|].
  rewrite Hterms. simpl bind.
  destruct (includes _ _); destruct (includes _ _); reflexivity.
Qed.

(** The query [a] and the query of one space, on two small documents. *)
Lemma scoreRelevance_no_terms_witness :
  scoreRelevance (sample_video "a" "d" "a cat") (js "a") = Ret 40 /\
  scoreRelevance (sample_video "t" "d" "hello world") (js " ") = Ret 15.
Proof.
  split.
  - exact (scoreRelevance_no_terms (sample_video "a" "d" "a cat") (js "a")
             (or_intror eq_refl)).
  - exact (scoreRelevance_no_terms (sample_video "t" "d" "hello world") (js " ")
             (or_introl eq_refl)).
Defined.

(** ** The ranking pipeline (C4) *)

Lemma insert_by_score_In (x y : scored) (l : list scored) :
  In y (insert_by_score x l) <-> y = x \/ In y l.
Proof.
  induction l as [|z l IH]; simpl.
  - intuition.
  - destruct (score z <=? score x); simpl; [intuition|].
    rewrite IH. intuition.
Qed.

Lemma insert_by_score_hd (x : scored) (l : list scored) (a : scored) :
  by_score_desc a x -> HdRel by_score_desc a l ->
  HdRel by_score_desc a (insert_by_score x l).
Proof.
  intros Hax Hal. destruct l as [|y l]; simpl.
  - constructor. exact Hax.
  - destruct (score y <=? score x); constructor.
    + exact Hax.
    + inversion Hal. assumption.
Qed.

Lemma insert_by_score_sorted (x : scored) (l : list scored) :
  Sorted by_score_desc l -> Sorted by_score_desc (insert_by_score x l).
Proof.
  induction 1 as [|y l Hl IH Hy]; simpl.
  - repeat constructor.
  - destruct (Nat.leb_spec (score y) (score x)) as [Hle|Hgt].
    + constructor; [constructor; assumption|]. constructor. exact Hle.
    + constructor; [exact IH|].
      apply insert_by_score_hd; [unfold by_score_desc; lia | exact Hy].
Qed.

Lemma sort_by_score_sorted (l : list scored) : Sorted by_score_desc (sort_by_score l).
Proof.
  induction l as [|x l IH]; simpl.
  - constructor.
  - apply insert_by_score_sorted. exact IH.
Qed.

Lemma sort_by_score_In (y : scored) (l : list scored) :
  In y (sort_by_score l) <-> In y l.
Proof.
  induction l as [|x l IH]; simpl.
  - reflexivity.
  - rewrite insert_by_score_In, IH. intuition.
Qed.

Lemma firstn_sorted (n : nat) (l : list scored) :
  Sorted by_score_desc l -> Sorted by_score_desc (firstn n l).
Proof.
  intros H. revert n. induction H as [|x l Hl IH Hx]; intros [|n]; simpl;
    try constructor.
  - apply IH.
  - destruct Hx as [|y l' Hy]; destruct n; simpl; constructor. exact Hy.
Qed.

Lemma firstn_In (A : Type) (n : nat) (l : list A) (x : A) :
  In x (firstn n l) -> In x l.
Proof.
  revert n. induction l as [|y l IH]; intros [|n]; simpl; try tauto.
  intros [H|H]; [left; exact H | right; apply (IH n); exact H].
Qed.

(** C4: whenever the pipeline sets the results, no result has score 0,
    there are at most 25 of them, and their scores never increase along
    the list. *)
Theorem doKeywordSearch_results (database : option (list video)) (query : jsstring)
    (results : list scored) :
  doKeywordSearch database query = Ret (Some results) ->
  Forall (fun r => score r <> 0) results /\
  length results <= result_limit /\
  Sorted by_score_desc results.
Proof.
  unfold doKeywordSearch. generalize result_limit. intros lim H.
  destruct database as [videos|]; [|discriminate H].
  destruct (trim query); [discriminate H|].
  bind_inv H. injection H as <-. repeat split.
  - apply Forall_forall. intros r Hr.
    apply firstn_In, sort_by_score_In, filter_In in Hr.
    destruct Hr as [_ Hr]. apply Nat.ltb_lt in Hr. lia.
  - apply firstn_le_length.
  - apply firstn_sorted, sort_by_score_sorted.
Qed.

(** The query [saas] on the four sample documents: two results, 46 then 18. *)
Lemma doKeywordSearch_results_witness :
  exists results,
    doKeywordSearch (Some sample_database) (js "saas") = Ret (Some results) /\
    map score results = [46; 18] /\
    Forall (fun r => score r <> 0) results /\
    length results <= result_limit /\
    Sorted by_score_desc results.
Proof.
  eexists. split; [vm_compute; reflexivity|].
  split; [reflexivity|].
  apply (doKeywordSearch_results (Some sample_database) (js "saas")).
  vm_compute. reflexivity.
Defined.

(** ** The excerpt: its length (C5) *)

Lemma ellipsis_length : length ellipsis = 3.
Proof. reflexivity. Qed.

Lemma excerpt_parts_lengths (text query : jsstring) (maxLen : nat) (x : excerpt_parts) :
  excerpt_parts_of text query maxLen = Ret x ->
  length (x_prefix x) <= 3 /\ length (x_excerpt x) <= maxLen /\
  length (x_suffix x) <= 3.
Proof.
  unfold excerpt_parts_of. intros H. bind_inv H. bind_inv H.
  injection H as <-. simpl. repeat split.
  - destruct (0 <? _); simpl; lia.
  - match goal with |- context [slice text ?a ?b] =>
      pose proof (slice_length_le text a b) as Hs;
      pose proof (slice_length_le (slice text a b) 0
                    (Z.to_nat (lastIndexOf space (slice text a b)
                                 (length (slice text a b))))) as Ht;
      pose proof (lastIndexOf_range space (slice text a b)
                    (length (slice text a b))) as Hr
    end.
    destruct (gt_times_0_7 _ _); lia.
  - destruct (_ <? length text); simpl; lia.
Qed.

Lemma extractExcerpt_length (text query : jsstring) (maxLen : nat) (e : jsstring) :
  extractExcerpt text query maxLen = Ret e -> length e <= maxLen + 6.
Proof.
  unfold extractExcerpt. destruct text as [|c text].
  - intros H. injection H as <-. simpl. lia.
  - destruct query as [|d query].
    + intros H. injection H as <-. rewrite length_app.
      pose proof (slice_length_le (c :: text) 0 maxLen).
      destruct (maxLen <? _); simpl length in *; lia.
    + intros H. bind_inv H. injection H as <-.
      apply excerpt_parts_lengths in Ha. rewrite !length_app. lia.
Qed.

(** C5: with [maxLen = 350], the excerpt has at most 350 characters and
    two ellipsis markers of 3 characters each. *)
Theorem extractExcerpt_at_most_356 (text query e : jsstring) :
  extractExcerpt text query 350 = Ret e -> length e <= 350 + 2 * length ellipsis.
Proof.
  intros H. apply extractExcerpt_length in H. rewrite ellipsis_length. lia.
Qed.

(** A body that begins with a space: the excerpt starts after it, behind a marker. *)
Lemma extractExcerpt_at_most_356_witness :
  length (js "...hello world") <= 350 + 2 * length ellipsis.
Proof.
  exact (extractExcerpt_at_most_356 (js " hello world") (js "world") eq_refl).
Defined.

(** ** The worked example (C8) *)

(** C8: a document with the example title, an empty description and a
    body in which [bootstrap] occurs 3 times and [SaaS] 5 times, and in
    which the lower-cased query does not occur, scores 18 for the query
    [bootstrap SaaS]. *)
Theorem example_scores_18 (id body : jsstring) (available : bool) :
  occurrences (js "bootstrap") body = 3 ->
  occurrences (js "SaaS") body = 5 ->
  includes (toLowerCase body) (toLowerCase (js "bootstrap SaaS")) = false ->
  includes (toLowerCase example_title) (toLowerCase (js "bootstrap SaaS")) = false /\
  scoreRelevance {| v_id := id; title := example_title; description := [];
                    transcript := body; transcriptAvailable := available |}
                 (js "bootstrap SaaS") = Ret 18.
Proof.
  intros Hb Hs Hphrase. split; [reflexivity|].
  rewrite (@scoreRelevance_nonempty _ (js "bootstrap SaaS") [js "bootstrap"; js "saas"])
    by (discriminate || reflexivity).
  cbn [title description transcript].
  rewrite (@score_terms_step _ _ _ (js "bootstrap") _ _ (literal_gi (js "bootstrap")) eq_refl).
  rewrite (@score_terms_step _ _ _ (js "saas") _ _ (literal_gi (js "saas")) eq_refl).
  rewrite !match_count_occurrences by (discriminate || reflexivity).
  change (js "saas") with (toLowerCase (js "SaaS")) at 3.
  rewrite occurrences_lower by reflexivity. rewrite Hb, Hs.
  cbn [score_terms bind]. unfold phrase_bonus. cbn [title transcript].
  rewrite Hphrase.
  reflexivity.
Qed.

(** The example on a body with mixed case. *)
Lemma example_scores_18_witness :
  scoreRelevance {| v_id := js "v"; title := example_title; description := [];
                    transcript := example_body; transcriptAvailable := true |}
                 (js "bootstrap SaaS") = Ret 18.
Proof.
  refine (proj2 (example_scores_18 (js "v") example_body true _ _ _));
    vm_compute; reflexivity.
Defined.

(** ** Where [lastIndexOf] finds the character *)

Lemma lastIndexOf_aux_found (c : code_unit) (s : jsstring) (i0 pos : nat) (acc : Z) (i : nat) :
  lastIndexOf_aux c s i0 pos acc = Z.of_nat i -> acc <> Z.of_nat i ->
  i0 <= i <= pos /\ nth_error s (i - i0) = Some c.
Proof.
  revert i0 acc. induction s as [|d s IH]; intros i0 acc H Hacc; simpl in H.
  - contradiction.
  - destruct ((i0 <=? pos) && cu_eqb d c) eqn:E.
    + destruct (Z.eq_dec (Z.of_nat i0) (Z.of_nat i)) as [Heq|Hne].
      * apply Nat2Z.inj in Heq. subst i0. apply andb_prop in E.
        destruct E as [E1 E2]. apply Nat.leb_le in E1. apply cu_eqb_eq in E2.
        subst d. rewrite Nat.sub_diag. split; [lia | reflexivity].
      * destruct (IH (S i0) (Z.of_nat i0) H Hne) as [Hr Hn]. split; [lia|].
        replace (i - i0) with (S (i - S i0)) by lia. exact Hn.
    + destruct (IH (S i0) acc H Hacc) as [Hr Hn]. split; [lia|].
      replace (i - i0) with (S (i - S i0)) by lia. exact Hn.
Qed.

(** When [lastIndexOf] answers an index, the character stands there, at
    or before the position the search started from. *)
Lemma lastIndexOf_found (c : code_unit) (s : jsstring) (pos i : nat) :
  lastIndexOf c s pos = Z.of_nat i -> i <= pos /\ nth_error s i = Some c.
Proof.
  intros H. destruct (@lastIndexOf_aux_found c s 0 pos (-1)%Z i H ltac:(lia)) as [Hr Hn].
  rewrite Nat.sub_0_r in Hn. split; [lia | exact Hn].
Qed.

Lemma firstn_own_length (A : Type) (n : nat) (l : list A) :
  firstn n l = firstn (length (firstn n l)) l.
Proof.
  rewrite length_firstn. rewrite <- (firstn_all l) at 1.
  rewrite firstn_firstn. reflexivity.
Qed.

(** ** The excerpt: its ellipsis markers (C9) *)

(** C9, as stated, fails: on [body_300] the window starts at 0 and covers
    the whole text, the excerpt is trimmed at the space at index 250, so
    it stops short of the end of the text, and no marker follows it. *)
Lemma trimmed_excerpt_has_no_marker :
  exists x,
    excerpt_parts_of body_300 (js "zz") default_maxLen = Ret x /\
    x_start x + length (x_excerpt x) < length body_300 /\
    x_suffix x = [] /\
    extractExcerpt body_300 (js "zz") default_maxLen = Ret (repeat (ch "x") 250).
Proof.
  eexists. split; [vm_compute; reflexivity|].
  split; [apply Nat.ltb_lt; vm_compute; reflexivity|].
  split; vm_compute; reflexivity.
Qed.

Lemma times_0_7_nonneg (n : nat) : (0 <= times_0_7 n)%Z.
Proof.
  unfold times_0_7. set (p := (Z.of_nat n * mant_0_7)%Z).
  assert (Hp : (0 <= p)%Z) by (unfold p, mant_0_7; lia).
  destruct (Z.log2 p + 1 <=? 53)%Z; [exact Hp|]. cbv zeta.
  set (q := Z.shiftr p (Z.log2 p + 1 - 53)).
  assert (Hq : (0 <= q)%Z) by (apply Z.shiftr_nonneg; exact Hp).
  apply Z.shiftl_nonneg. destruct (_ || _); lia.
Qed.

(** The window from which the excerpt is taken, and where the excerpt
    ends in the body. *)
Lemma excerpt_parts_end (text query : jsstring) (maxLen : nat) (x : excerpt_parts) :
  excerpt_parts_of text query maxLen = Ret x ->
  x_prefix x = (if x_start x =? 0 then [] else ellipsis) /\
  x_suffix x = (if x_start x + maxLen <? length text then ellipsis else []) /\
  x_start x <= length text /\
  length (x_excerpt x) <= Nat.min maxLen (length text - x_start x) /\
  (length (x_excerpt x) = Nat.min maxLen (length text - x_start x) \/
   nth_error text (x_start x + length (x_excerpt x)) = Some space).
Proof.
  unfold excerpt_parts_of. intros H. bind_inv H. bind_inv H.
  injection H as <-. cbn [x_start x_prefix x_excerpt x_suffix].
  set (start := Z.to_nat (Z.max 0 (lastIndexOf space text (fst a0) + 1))).
  set (window := slice text start (start + maxLen)).
  assert (Hw : length window = Nat.min maxLen (length text - start)).
  { unfold window, slice. rewrite length_firstn, length_skipn. lia. }
  split; [destruct start; reflexivity|]. split; [reflexivity|].
  split; [pose proof (lastIndexOf_range space text (fst a0)); unfold start; lia|].
  pose proof (lastIndexOf_range space window (length window)) as Hr.
  destruct (gt_times_0_7 (lastIndexOf space window (length window)) maxLen) eqn:Egt;
    [|split; [lia | left; exact Hw]].
  unfold gt_times_0_7 in Egt. apply Z.ltb_lt in Egt.
  pose proof (times_0_7_nonneg maxLen) as Hnn.
  assert (Hpos : (0 < lastIndexOf space window (length window))%Z) by nia.
  assert (Hi : lastIndexOf space window (length window)
               = Z.of_nat (Z.to_nat (lastIndexOf space window (length window))))
    by (rewrite Z2Nat.id; lia).
  apply lastIndexOf_found in Hi. destruct Hi as [_ Hi].
  set (ls := Z.to_nat (lastIndexOf space window (length window))) in *.
  assert (Hls : ls < length window) by (unfold ls; lia).
  assert (Hlen : length (slice window 0 ls) = ls).
  { unfold slice. rewrite Nat.sub_0_r. cbn [skipn]. rewrite length_firstn. lia. }
  rewrite Hlen. split; [lia|]. right.
  unfold window, slice in Hi. rewrite nth_error_firstn, nth_error_skipn in Hi.
  destruct (ls <? start + maxLen - start); [exact Hi | discriminate Hi].
Qed.

(** C9, amended: for a body and a query that are not empty, what
    [extractExcerpt] returns is an ellipsis marker if and only if the
    adjusted start is not 0, then the excerpt, which is the part of the
    body from the adjusted start, then an ellipsis marker if and only if
    the untrimmed window, [maxLen] characters from the adjusted start, ends
    before the end of the body.  So where a marker follows, the excerpt
    does not reach the end of the body; where none follows, the excerpt
    reaches the end of the body or was trimmed and stops before a space. *)
Theorem excerpt_markers (text query : jsstring) (maxLen : nat) (r : jsstring) :
  text <> [] -> query <> [] ->
  extractExcerpt text query maxLen = Ret r ->
  exists x,
    excerpt_parts_of text query maxLen = Ret x /\
    r = (if x_start x =? 0 then [] else ellipsis)
        ++ x_excerpt x
        ++ (if x_start x + maxLen <? length text then ellipsis else []) /\
    x_excerpt x = slice text (x_start x) (x_start x + length (x_excerpt x)) /\
    (x_start x + maxLen < length text ->
     x_start x + length (x_excerpt x) < length text) /\
    (length text <= x_start x + maxLen ->
     x_start x + length (x_excerpt x) = length text \/
     nth_error text (x_start x + length (x_excerpt x)) = Some space).
Proof.
  intros Ht Hq H. unfold extractExcerpt in H.
  destruct text as [|c text]; [contradiction|].
  destruct query as [|d query]; [contradiction|].
  bind_inv H. injection H as <-. rename a into x. exists x.
  destruct (excerpt_parts_end _ _ _ Ha) as (Hp & Hs & Hst & Hle & Hend).
  split; [exact Ha|]. split; [rewrite Hp, Hs; reflexivity|].
  split; [|split].
  - clear Hp Hs Hst Hle Hend. revert Ha. unfold excerpt_parts_of. intros H.
    bind_inv H. bind_inv H. injection H as <-. cbn [x_start x_excerpt].
    set (start := Z.to_nat (Z.max 0 (lastIndexOf space (c :: text) (fst a0) + 1))).
    unfold slice. replace (start + maxLen - start) with maxLen by lia.
    match goal with |- ?e = _ =>
      replace (start + length e - start) with (length e) by lia end.
    destruct (gt_times_0_7 _ maxLen).
    + rewrite Nat.sub_0_r. cbn [skipn]. rewrite firstn_firstn.
      apply firstn_own_length.
    + apply firstn_own_length.
  - intros Hlt. lia.
  - intros Hge. destruct Hend as [Hend|Hend]; [left; lia | right; exact Hend].
Qed.

(** The body of 300 characters: its window reaches the end and is
    trimmed at the space at index 250, so no marker follows. *)
Lemma excerpt_markers_witness :
  exists x,
    excerpt_parts_of body_300 (js "zz") default_maxLen = Ret x /\
    repeat (ch "x") 250
      = (if x_start x =? 0 then [] else ellipsis)
        ++ x_excerpt x
        ++ (if x_start x + default_maxLen <? length body_300 then ellipsis else []) /\
    x_excerpt x = slice body_300 (x_start x) (x_start x + length (x_excerpt x)) /\
    (x_start x + default_maxLen < length body_300 ->
     x_start x + length (x_excerpt x) < length body_300) /\
    (length body_300 <= x_start x + default_maxLen ->
     x_start x + length (x_excerpt x) = length body_300 \/
     nth_error body_300 (x_start x + length (x_excerpt x)) = Some space).
Proof.
  apply (@excerpt_markers body_300 (js "zz") default_maxLen (repeat (ch "x") 250)).
  - discriminate.
  - discriminate.
  - vm_compute. reflexivity.
Defined.

(** ** Short bodies (C10) *)

(** For a body of at most 100 characters the loop of [extractExcerpt]
    stops before its first window, whatever the terms and the fuel. *)
Lemma scan_windows_short (lower : jsstring) (terms : list jsstring)
    (maxLen fuel bestPos bestScore : nat) :
  length lower <= 100 ->
  scan_windows lower terms maxLen fuel 0 bestPos bestScore = Ret (bestPos, bestScore).
Proof.
  intros H. destruct fuel; simpl;
    (replace (100 <? length lower) with false
       by (symmetry; apply Nat.ltb_ge; exact H)); reflexivity.
Qed.

(** C10, as stated, fails: the lower case of the body of 60 times U+0130
    has 120 code units, so the window at 0 is examined (it holds 60
    matches of U+0069 U+0307), and the malformed query [((] makes
    [extractExcerpt] throw. *)
Lemma dotted_I_body_is_scanned :
  length dotted_I_body = 60 /\
  hd_error dotted_I_body <> Some space /\
  length (toLowerCase dotted_I_body) = 120 /\
  split_terms (toLowerCase [Latin "i"%char; U0307]) = Ret [[Latin "i"%char; U0307]] /\
  scan_windows (toLowerCase dotted_I_body) [[Latin "i"%char; U0307]]
               default_maxLen 120 0 0 0 = Ret (0, 60) /\
  extractExcerpt dotted_I_body (js "((") default_maxLen = Throw SyntaxError.
Proof.
  split; [reflexivity|]. split; [discriminate|].
  repeat split; vm_compute; reflexivity.
Qed.

(** C10, amended: for a non-empty body whose lower case has at most 100
    code units and a non-empty query, no window is examined and the best
    position stays 0; when the body does not begin with a space, the
    adjusted start is 0, there is no leading marker, and the excerpt is
    the body itself. *)
Theorem short_body_excerpt (c : code_unit) (text query : jsstring) :
  length (toLowerCase (c :: text)) <= 100 ->
  query <> [] ->
  (forall terms fuel,
     scan_windows (toLowerCase (c :: text)) terms default_maxLen fuel 0 0 0
       = Ret (0, 0)) /\
  (c <> space ->
   (exists x, excerpt_parts_of (c :: text) query default_maxLen = Ret x /\
              x_start x = 0 /\ x_prefix x = []) /\
   extractExcerpt (c :: text) query default_maxLen = Ret (c :: text)).
Proof.
  intros Hlow Hq.
  pose proof (toLowerCase_length_le (c :: text)) as Hlen.
  assert (Hscan : forall terms fuel,
     scan_windows (toLowerCase (c :: text)) terms default_maxLen fuel 0 0 0
       = Ret (0, 0)).
  { intros terms fuel. apply scan_windows_short. exact Hlow. }
  split; [exact Hscan|]. intros Hc.
  assert (Hparts : excerpt_parts_of (c :: text) query default_maxLen
                   = Ret {| x_start := 0; x_prefix := []; x_excerpt := c :: text;
                            x_suffix := [] |}).
  { unfold excerpt_parts_of.
    destruct (split_terms_returns (toLowerCase query)) as (terms & ->).
    cbn [bind]. rewrite Hscan. cbn [bind fst].
    rewrite (lastIndexOf_at_0 text Hc).
    change (Z.to_nat (Z.max 0 (-1 + 1))) with 0. cbn [Nat.add].
    rewrite (slice_0_all (c :: text)) by (unfold default_maxLen; lia).
    rewrite Nat.ltb_irrefl.
    unfold default_maxLen. rewrite gt_times_0_7_350.
    pose proof (lastIndexOf_range space (c :: text) (length (c :: text))) as Hr.
    replace (245 <=? _)%Z with false by (symmetry; apply Z.leb_gt; lia).
    replace (350 <? length (c :: text)) with false
      by (symmetry; apply Nat.ltb_ge; lia).
    reflexivity. }
  split.
  - eexists. split; [exact Hparts|]. split; reflexivity.
  - unfold extractExcerpt. destruct query as [|d query]; [contradiction|].
    rewrite Hparts. cbn [bind x_prefix x_excerpt x_suffix].
    rewrite app_nil_r. reflexivity.
Qed.

(** A short body comes back whole even for the malformed query [((]. *)
Lemma short_body_excerpt_witness :
  extractExcerpt (js "hello world") (js "((") default_maxLen = Ret (js "hello world").
Proof.
  refine (proj2 (proj2 (@short_body_excerpt (ch "h") (js "ello world") (js "((")
                          _ _) _)).
  - vm_compute. repeat constructor.
  - discriminate.
  - discriminate.
Defined.

(** * Further properties *)

(** ** Searching ignores case *)

Lemma toLowerCase_nil_iff (s1 s2 : jsstring) :
  toLowerCase s1 = toLowerCase s2 -> (s1 = [] <-> s2 = []).
Proof.
  intros H. destruct s1 as [|c1 s1], s2 as [|c2 s2];
    rewrite ?toLowerCase_cons in H; try (split; congruence).
  - destruct c2; discriminate H.
  - destruct c1; discriminate H.
Qed.

(** X1: two queries that differ only in case give every document the same
    score and every body the same excerpt, and the score does not depend on
    the case of the title, the description or the body. *)
Theorem search_ignores_case (v1 v2 : video) (q1 q2 : jsstring) :
  toLowerCase q1 = toLowerCase q2 ->
  toLowerCase (title v1) = toLowerCase (title v2) ->
  toLowerCase (description v1) = toLowerCase (description v2) ->
  toLowerCase (transcript v1) = toLowerCase (transcript v2) ->
  scoreRelevance v1 q1 = scoreRelevance v2 q2 /\
  forall text maxLen, extractExcerpt text q1 maxLen = extractExcerpt text q2 maxLen.
Proof.
  intros Hq Ht Hd Hb. pose proof (toLowerCase_nil_iff _ _ Hq) as Hnil. split.
  - unfold scoreRelevance. rewrite Hq, Ht, Hd, Hb.
    destruct q1 as [|c1 q1], q2 as [|c2 q2]; try reflexivity.
    + destruct Hnil as [Hnil _]. discriminate (Hnil eq_refl).
    + destruct Hnil as [_ Hnil]. discriminate (Hnil eq_refl).
  - intros text maxLen. unfold extractExcerpt, excerpt_parts_of. rewrite Hq.
    destruct text as [|c text]; [reflexivity|].
    destruct q1 as [|c1 q1], q2 as [|c2 q2]; try reflexivity.
    + destruct Hnil as [Hnil _]. discriminate (Hnil eq_refl).
    + destruct Hnil as [_ Hnil]. discriminate (Hnil eq_refl).
Qed.

(** The query in capitals on a document in mixed case. *)
Lemma search_ignores_case_witness :
  scoreRelevance (sample_video "My SaaS" "d" "SAAS and saas") (js "SAAS")
    = scoreRelevance (sample_video "my saas" "D" "saas AND saas") (js "saas").
Proof.
  apply (search_ignores_case (sample_video "My SaaS" "d" "SAAS and saas")
           (sample_video "my saas" "D" "saas AND saas") (js "SAAS") (js "saas"));
    reflexivity.
Defined.

(** ** The score is bounded by the number of terms *)

Lemma score_terms_bound (ttl text desc : jsstring) (terms : list jsstring) :
  forall sc n, score_terms ttl text desc terms sc = Ret n ->
               sc <= n <= sc + 27 * length terms.
Proof.
  induction terms as [|t terms IH]; intros sc n H.
  - injection H as <-. simpl. lia.
  - cbn [score_terms] in H. bind_inv H. apply IH in H.
    destruct (includes ttl t); destruct (includes desc t);
      destruct (str_match a text); cbn [length] in *; lia.
Qed.

(** X2: a document scores at most 27 points for each term of the query
    (5 for the title, 2 for the description, at most 20 for the body) and
    40 for the whole query. *)
Theorem scoreRelevance_bounded (v : video) (query : jsstring)
    (terms : list jsstring) (n : nat) :
  split_terms (toLowerCase query) = Ret terms ->
  scoreRelevance v query = Ret n ->
  n <= 27 * length terms + 40.
Proof.
  intros Ht H. destruct query as [|c q].
  - injection H as <-. lia.
  - rewrite (@scoreRelevance_nonempty v (c :: q) terms) in H
      by (discriminate || exact Ht).
    bind_inv H. injection H as <-. apply score_terms_bound in Ha.
    unfold phrase_bonus. destruct (includes _ _); destruct (includes _ _); lia.
Qed.

(** A body that repeats the only term 30 times: 5 + 20 + 15 + 25 points. *)
Lemma scoreRelevance_bounded_witness :
  scoreRelevance saas_30_video (js "saas") = Ret 65 /\ 65 <= 27 * 1 + 40.
Proof.
  split; [vm_compute; reflexivity|].
  apply (scoreRelevance_bounded saas_30_video (js "saas") (terms := [js "saas"]));
    vm_compute; reflexivity.
Defined.

(** ** Which documents score *)






(** ** The terms of a query *)

Lemma slice_nth_error (s : jsstring) (a b : nat) (d : code_unit) :
  In d (slice s a b) -> exists j, a <= j < b /\ nth_error s j = Some d.
Proof.
  intros H. apply In_nth_error in H. destruct H as (i & H).
  unfold slice in H. rewrite nth_error_firstn, nth_error_skipn in H.
  destruct (Nat.ltb_spec i (b - a)); [|discriminate H].
  exists (a + i). split; [lia | exact H].
Qed.

Lemma starts_with_firstn (s : jsstring) (n : nat) : starts_with (firstn n s) s = true.
Proof.
  revert n. induction s as [|c s IH]; intros [|n]; try reflexivity.
  simpl. rewrite cu_eqb_refl. apply IH.
Qed.

(** A slice of a string occurs in the string. *)
Lemma includes_slice (s : jsstring) (a b : nat) : includes s (slice s a b) = true.
Proof.
  unfold slice. revert a b. induction s as [|c s IH]; intros a b.
  - rewrite skipn_nil, firstn_nil. reflexivity.
  - destruct a as [|a].
    + cbn [skipn includes]. rewrite starts_with_firstn. reflexivity.
    + cbn [skipn includes]. replace (b - S a) with (pred b - a) by lia.
      rewrite (IH a (pred b)). apply orb_true_r.
Qed.

Lemma repeat_ends_required (m : mstate -> list mstate) (ks : list nat) (greedy : bool)
    (fuel mn : nat) (x : mstate) :
  repeat_ends m ks greedy (S fuel) (S mn) None x =
    flat_map (fun y => repeat_ends m ks greedy fuel mn None y)
             (m (fst x, reset_captures ks (snd x))).
Proof. reflexivity. Qed.

Lemma repeat_ends_greedy (m : mstate -> list mstate) (ks : list nat)
    (fuel : nat) (x : mstate) :
  repeat_ends m ks true (S fuel) 0 None x =
    flat_map (fun y => if fst y =? fst x then []
                       else repeat_ends m ks true fuel 0 None y)
             (m (fst x, reset_captures ks (snd x))) ++ [x].
Proof. reflexivity. Qed.

(** [/\s+/] matches wherever a whitespace character stands, and what it
    matches is not empty. *)
Lemma exec_at_spaces_at (s : jsstring) (j : nat) :
  match exec_at re_spaces s j with
  | Some m => j < fst m
  | None => forall d, nth_error s j = Some d -> is_ws d = false
  end.
Proof.
  change (exec_at re_spaces s j)
    with (hd_error (repeat_ends (ends false s Space) [] true
                      (1 + (length s - j) + 1) 1 None (j, []))).
  replace (1 + (length s - j) + 1) with (S (S (length s - j))) by lia.
  rewrite repeat_ends_required.
  change (ends false s Space (fst (j, @nil (option (nat * nat))),
                              reset_captures [] (snd (j, @nil (option (nat * nat))))))
    with (on_char s (j, []) is_ws).
  unfold on_char. cbn [fst snd].
  destruct (nth_error s j) as [d|] eqn:E; [|intros d H; discriminate H].
  destruct (is_ws d) eqn:Ed; [|intros d' H; congruence].
  cbn [flat_map]. rewrite app_nil_r.
  pose proof (@repeat_ends_advances s (ends false s Space) [] true
                (@ends_advances false s Space) (S (length s - j)) 0 None
                (S j, [])) as Hadv.
  rewrite repeat_ends_greedy in *.
  destruct (flat_map _ _) as [|m l]; cbn [app hd_error fst]; [lia|].
  specialize (Hadv m (or_introl eq_refl)). cbn [fst] in Hadv. lia.
Qed.

Lemma split_loop_spaces (s : jsstring) (fuel p q : nat) :
  p <= q -> length s - q < fuel ->
  (forall j, p <= j < q -> forall d, nth_error s j = Some d -> is_ws d = false) ->
  Forall (fun o => exists t, o = Some t /\ includes s t = true /\
                             forallb (fun c => negb (is_ws c)) t = true)
         (split_loop re_spaces s fuel p q).
Proof.
  assert (Hpiece : forall p q,
    (forall j, p <= j < q -> forall d, nth_error s j = Some d -> is_ws d = false) ->
    exists t, Some (slice s p q) = Some t /\ includes s t = true /\
              forallb (fun c => negb (is_ws c)) t = true).
  { intros p' q' H. exists (slice s p' q'). split; [reflexivity|].
    split; [apply includes_slice|]. apply forallb_forall. intros d Hd.
    apply slice_nth_error in Hd. destruct Hd as (j & Hj & Hd).
    rewrite (H j Hj d Hd). reflexivity. }
  revert p q. induction fuel as [|fuel IH]; intros p q Hpq Hfuel Hgap; [lia|].
  cbn [split_loop]. destruct (Nat.ltb_spec q (length s)) as [Hq|Hq].
  - pose proof (exec_at_spaces_at s q) as Hex.
    destruct (exec_at re_spaces s q) as [[e0 caps]|] eqn:E.
    + cbn [fst] in Hex.
      pose proof (exec_at_spaces_captures s q E) as Hc. cbn [snd] in Hc. subst caps.
      replace (Nat.min e0 (length s) =? p) with false
        by (symmetry; apply Nat.eqb_neq; lia).
      cbn [map app]. constructor; [apply Hpiece; exact Hgap|].
      apply IH; [lia | lia |]. intros j Hj. lia.
    + apply IH; [lia | lia |]. intros j Hj.
      destruct (Nat.eq_dec j q) as [->|Hne]; [exact Hex | apply Hgap; lia].
  - constructor; [|constructor]. apply Hpiece. intros j Hj. apply Hgap. lia.
Qed.

(** X4: every term of a query is a part of the query that holds no
    whitespace and has at least two characters. *)
Theorem split_terms_tokens (query : jsstring) (terms : list jsstring) :
  split_terms query = Ret terms ->
  Forall (fun t => 1 < length t /\ includes query t = true /\
                   forallb (fun c => negb (is_ws c)) t = true) terms.
Proof.
  intros H. pose proof (split_terms_long _ H) as Hlong.
  rewrite Forall_forall in *. intros t Hin. split; [apply Hlong; exact Hin|].
  apply (@filter_long_In _ _ t H) in Hin. unfold split in Hin.
  destruct query as [|c q].
  - destruct (exec_at re_spaces [] 0); [destruct Hin|].
    destruct Hin as [Hin|[]]. injection Hin as <-. split; reflexivity.
  - pose proof (@split_loop_spaces (c :: q) (2 * length (c :: q) + 2) 0 0
                  (Nat.le_refl 0) ltac:(lia) ltac:(intros j Hj; lia)) as Hall.
    rewrite Forall_forall in Hall. destruct (Hall _ Hin) as (t' & Ht' & Hinc & Hws).
    injection Ht' as <-. split; assumption.
Qed.

(** A query with tabs, double spaces and a one-letter word. *)
Lemma split_terms_tokens_witness :
  split_terms (js "  founder  a pricing ") = Ret [js "founder"; js "pricing"] /\
  Forall (fun t => 1 < length t /\ includes (js "  founder  a pricing ") t = true /\
                   forallb (fun c => negb (is_ws c)) t = true)
         [js "founder"; js "pricing"].
Proof.
  split; [vm_compute; reflexivity|].
  apply (split_terms_tokens (js "  founder  a pricing ")). vm_compute. reflexivity.
Defined.

(** ** Where the excerpt begins and ends *)

(** X5: the excerpt is the part of the body that begins at the adjusted
    start, and the adjusted start is a word boundary: it is 0 or the
    index after a space. *)
Theorem excerpt_starts_at_word (text query : jsstring) (maxLen : nat) (x : excerpt_parts) :
  excerpt_parts_of text query maxLen = Ret x ->
  x_excerpt x = slice text (x_start x) (x_start x + length (x_excerpt x)) /\
  x_start x <= length text /\
  (x_start x = 0 \/ nth_error text (x_start x - 1) = Some space).
Proof.
  unfold excerpt_parts_of. intros H. bind_inv H. bind_inv H.
  injection H as <-. cbn [x_start x_excerpt].
  set (start := Z.to_nat (Z.max 0 (lastIndexOf space text (fst a0) + 1))).
  split; [|split].
  - unfold slice. replace (start + maxLen - start) with maxLen by lia.
    match goal with |- ?e = _ =>
      replace (start + length e - start) with (length e) by lia end.
    destruct (gt_times_0_7 _ maxLen).
    + rewrite Nat.sub_0_r. cbn [skipn]. rewrite firstn_firstn.
      apply firstn_own_length.
    + apply firstn_own_length.
  - pose proof (lastIndexOf_range space text (fst a0)). unfold start. lia.
  - pose proof (lastIndexOf_range space text (fst a0)) as Hr.
    destruct (Z.eq_dec (lastIndexOf space text (fst a0)) (-1)) as [Hm|Hm].
    + left. unfold start. rewrite Hm. reflexivity.
    + right.
      assert (Hi : lastIndexOf space text (fst a0)
                   = Z.of_nat (Z.to_nat (lastIndexOf space text (fst a0))))
        by (rewrite Z2Nat.id; lia).
      apply lastIndexOf_found in Hi. destruct Hi as [_ Hi].
      replace (start - 1) with (Z.to_nat (lastIndexOf space text (fst a0)))
        by (unfold start; lia).
      exact Hi.
Qed.

(** On a body of two words the excerpt begins after the leading space. *)
Lemma excerpt_starts_at_word_witness :
  exists x,
    excerpt_parts_of (js " hello world") (js "world") default_maxLen = Ret x /\
    x_start x = 1 /\
    x_excerpt x = slice (js " hello world") (x_start x)
                    (x_start x + length (x_excerpt x)) /\
    x_start x <= length (js " hello world") /\
    (x_start x = 0 \/ nth_error (js " hello world") (x_start x - 1) = Some space).
Proof.
  eexists. split; [vm_compute; reflexivity|]. split; [reflexivity|].
  apply (excerpt_starts_at_word (js " hello world") (js "world") default_maxLen).
  vm_compute. reflexivity.
Defined.

(** X6: with the default [maxLen] of 350, the excerpt is the whole window
    of 350 characters from the adjusted start (or what is left of the
    body), or it is cut to at least 245 characters and the character that
    follows it in the body is a space. *)
Theorem excerpt_ends_at_word (text query : jsstring) (x : excerpt_parts) :
  excerpt_parts_of text query default_maxLen = Ret x ->
  length (x_excerpt x) = Nat.min default_maxLen (length text - x_start x) \/
  (245 <= length (x_excerpt x) < Nat.min default_maxLen (length text - x_start x) /\
   nth_error text (x_start x + length (x_excerpt x)) = Some space).
Proof.
  unfold excerpt_parts_of. intros H. bind_inv H. bind_inv H.
  injection H as <-. cbn [x_start x_excerpt].
  set (start := Z.to_nat (Z.max 0 (lastIndexOf space text (fst a0) + 1))).
  set (window := slice text start (start + default_maxLen)).
  assert (Hw : length window = Nat.min default_maxLen (length text - start)).
  { unfold window, slice. rewrite length_firstn, length_skipn. lia. }
  assert (Hgt : forall k, gt_times_0_7 k default_maxLen = (245 <=? k)%Z)
    by (intros k; apply gt_times_0_7_350).
  rewrite Hgt.
  pose proof (lastIndexOf_range space window (length window)) as Hr.
  destruct (Z.leb_spec 245 (lastIndexOf space window (length window))) as [Hge|Hlt];
    [right | left; exact Hw].
  assert (Hi : lastIndexOf space window (length window)
               = Z.of_nat (Z.to_nat (lastIndexOf space window (length window))))
    by (rewrite Z2Nat.id; lia).
  apply lastIndexOf_found in Hi. destruct Hi as [_ Hi].
  set (ls := Z.to_nat (lastIndexOf space window (length window))) in *.
  assert (Hls : 245 <= ls < length window) by (unfold ls; lia).
  assert (Hlen : length (slice window 0 ls) = ls).
  { unfold slice. rewrite Nat.sub_0_r. cbn [skipn]. rewrite length_firstn. lia. }
  cbv iota. fold ls. rewrite Hlen. split; [lia|].
  unfold window, slice in Hi. rewrite nth_error_firstn, nth_error_skipn in Hi.
  destruct (ls <? start + default_maxLen - start); [exact Hi | discriminate Hi].
Qed.

(** The body of 300 characters is cut at its space, at index 250. *)
Lemma excerpt_ends_at_word_witness :
  exists x,
    excerpt_parts_of body_300 (js "zz") default_maxLen = Ret x /\
    length (x_excerpt x) = 250 /\
    (length (x_excerpt x) = Nat.min default_maxLen (length body_300 - x_start x) \/
     (245 <= length (x_excerpt x)
          < Nat.min default_maxLen (length body_300 - x_start x) /\
      nth_error body_300 (x_start x + length (x_excerpt x)) = Some space)).
Proof.
  eexists. split; [vm_compute; reflexivity|]. split; [vm_compute; reflexivity|].
  apply (excerpt_ends_at_word body_300 (js "zz")). vm_compute. reflexivity.
Defined.

(** ** The spans of [highlightTerms] alternate *)

Lemma split_terms_slices (query : jsstring) (terms : list jsstring) :
  split_terms query = Ret terms ->
  Forall (fun t => exists a b, t = slice query a b) terms.
Proof.
  intros H. apply Forall_forall. intros t Hin.
  apply (@filter_long_In _ _ t H) in Hin. unfold split in Hin.
  destruct query as [|c s].
  - destruct (exec_at re_spaces [] 0); [destruct Hin|].
    destruct Hin as [Hin|[]]. exists 0, 0. injection Hin as <-. reflexivity.
  - pose proof (@split_loop_slices re_spaces (c :: s)
                  (@exec_at_spaces_captures (c :: s))
                  (2 * length (c :: s) + 2) 0 0) as Hall.
    rewrite Forall_forall in Hall. destruct (Hall _ Hin) as (a & b & E).
    exists a, b. injection E as ->. reflexivity.
Qed.

Lemma slice_latin (s : jsstring) (a b : nat) :
  forallb is_latin s = true -> forallb is_latin (slice s a b) = true.
Proof.
  intros H. rewrite forallb_forall in *. intros d Hd. apply H.
  exact (slice_incl _ _ _ _ Hd).
Qed.

(** Below 256, a string that has the lower case of a term is matched by
    the term. *)
Lemma lower_eq_ci_starts (t g : jsstring) :
  forallb is_latin t = true -> forallb is_latin g = true ->
  toLowerCase g = toLowerCase t -> ci_starts true t g = true.
Proof.
  revert g. induction t as [|c t IH]; intros [|d g] Ht Hg H; try reflexivity;
    cbn [forallb] in Ht, Hg;
    try (apply andb_prop in Ht; destruct Ht as [Hc Ht]);
    try (apply andb_prop in Hg; destruct Hg as [Hd Hg]).
  - rewrite toLowerCase_cons in H. destruct c; cbn in H; discriminate H.
  - destruct c as [a| | |]; try discriminate Hc.
    destruct d as [b| | |]; try discriminate Hd.
    rewrite !toLowerCase_cons in H. cbn [lower_units app] in H.
    injection H as Hab Htl. cbn [ci_starts]. unfold char_matches.
    rewrite (@canonicalize_latin (Latin a) (Latin b) eq_refl eq_refl)
      by (cbn [lower_units]; rewrite Hab; reflexivity).
    rewrite Nat.eqb_refl. apply IH; assumption.
Qed.

(** A fragment between two matches equals no term. *)
Lemma gap_not_term (terms : list jsstring) (g : jsstring) :
  Forall (fun t => forallb is_latin t = true) terms -> forallb is_latin g = true ->
  is_gap terms g -> equals_some_term terms g = false.
Proof.
  intros Hl Hlg Hg. destruct (equals_some_term terms g) eqn:E; [|reflexivity].
  apply equals_some_term_iff in E. destruct E as (t & Hin & Heq).
  specialize (Hg 0). cbn [skipn] in Hg. unfold first_term in Hg.
  pose proof (find_none _ _ Hg t Hin) as Hf. cbv beta in Hf.
  rewrite Forall_forall in Hl.
  rewrite (@lower_eq_ci_starts t g (Hl t Hin) Hlg Heq) in Hf. discriminate Hf.
Qed.

Lemma alternating_fragments (terms pieces : list jsstring) :
  alternating terms pieces -> Forall (is_fragment terms) pieces.
Proof.
  revert pieces.
  fix IH 1. intros [|g [|d rest]] H; cbn [alternating] in H.
  - contradiction.
  - constructor; [left; apply H | constructor].
  - destruct H as (Hg & Hd & Hrest).
    constructor; [left; exact Hg|]. constructor; [right; exact Hd|].
    apply IH. exact Hrest.
Qed.

Lemma alternating_labels (terms pieces : list jsstring) :
  Forall (fun t => forallb is_latin t = true) terms ->
  Forall (fun p => forallb is_latin p = true) pieces ->
  alternating terms pieces ->
  exists n, map (equals_some_term terms) pieces = alternate_labels n.
Proof.
  intros Hl. revert pieces.
  fix IH 1. intros [|g [|d rest]] Hp H; cbn [alternating] in H.
  - contradiction.
  - exists 0. cbn [map alternate_labels].
    rewrite (gap_not_term Hl (Forall_inv Hp) (proj1 H)). reflexivity.
  - destruct H as (Hg & Hd & Hrest).
    destruct (IH rest (Forall_inv_tail (Forall_inv_tail Hp)) Hrest) as (n & Hn).
    exists (S n). cbn [map alternate_labels].
    rewrite (gap_not_term Hl (Forall_inv Hp) Hg), Hd.
    f_equal. f_equal. exact Hn.
Qed.

Lemma split_loop_alternating (terms : list jsstring) (s : jsstring) (fuel p q : nat) :
  terms <> [] -> Forall (fun t => 1 < length t) terms ->
  p <= q -> q <= length s -> length s - q < fuel ->
  (forall j, p <= j < q -> first_term terms (skipn j s) = None) ->
  exists pieces,
    split_loop (highlight_regex terms) s fuel p q = map Some pieces /\
    alternating terms pieces /\
    Forall (fun piece => exists a b, piece = slice s a b) pieces.
Proof.
  intros Hne Hlong. revert p q.
  induction fuel as [|fuel IH]; intros p q Hpq Hq Hfuel Hgap; [lia|].
  cbn [split_loop]. destruct (Nat.ltb_spec q (length s)) as [Hlt|Hge].
  - rewrite (exec_at_highlight s q Hne).
    destruct (first_term terms (skipn q s)) as [t|] eqn:E.
    + cbn [option_map].
      pose proof (find_some _ _ E) as [Ht Hstarts].
      pose proof (ci_starts_length _ _ _ Hstarts) as Hlen.
      rewrite length_skipn in Hlen.
      pose proof (proj1 (Forall_forall _ _) Hlong t Ht) as Hl. cbv beta in Hl.
      rewrite Nat.min_l by lia.
      replace (q + length t =? p) with false by (symmetry; apply Nat.eqb_neq; lia).
      destruct (IH (q + length t) (q + length t)) as (pieces & Hsplit & Halt & Hsl);
        try lia.
      exists (slice s p q :: slice s q (q + length t) :: pieces).
      split; [|split].
      * cbn [map capture_text app]. rewrite Hsplit. reflexivity.
      * cbn [alternating]. split; [apply (slice_is_gap Hlong); exact Hgap|].
        split; [|exact Halt]. unfold slice.
        replace (q + length t - q) with (length t) by lia.
        apply matched_equals_term; assumption.
      * constructor; [eexists _, _; reflexivity|].
        constructor; [eexists _, _; reflexivity | exact Hsl].
    + cbn [option_map]. apply IH; try lia.
      intros j Hj. destruct (Nat.eq_dec j q) as [->|Hneq]; [exact E|].
      apply Hgap. lia.
  - assert (q = length s) by lia. subst q.
    exists [slice s p (length s)]. split; [reflexivity|]. split.
    + cbn [alternating]. split; [apply (slice_is_gap Hlong); exact Hgap | exact I].
    + constructor; [eexists _, _; reflexivity | constructor].
Qed.

(** Outside the code units below 256 a fragment between two matches can
    be highlighted: the lower case of two KELVIN SIGNs is the term [kk],
    which as a pattern does not match them. *)
Lemma kelvin_gap_is_highlighted :
  highlightTerms [U212A; U212A] (js "kk")
    = Ret [{| sp_text := Some [U212A; U212A]; highlight := true |}].
Proof. vm_compute. reflexivity. Qed.

(** X7: for a text and a query whose code units are all below 256, the
    spans of [highlightTerms] go in turn: the first and the last are not
    highlighted (they may be empty), and between them every second span,
    and no other, is highlighted. *)
Theorem highlightTerms_alternates (text query : jsstring) :
  forallb is_latin text = true -> forallb is_latin query = true ->
  exists spans n,
    highlightTerms text query = Ret spans /\
    map highlight spans = alternate_labels n.
Proof.
  intros Hlt Hlq.
  destruct (split_terms_returns query) as (terms & Hterms).
  pose proof (split_terms_long _ Hterms) as Hlong.
  assert (Hl : Forall (fun t => forallb is_latin t = true) terms).
  { pose proof (split_terms_slices _ Hterms) as Hsl. rewrite Forall_forall in *.
    intros t Hin. destruct (Hsl t Hin) as (a & b & ->). apply slice_latin, Hlq. }
  unfold highlightTerms.
  assert (Hone : exists spans n,
             Ret [{| sp_text := Some text; highlight := false |}] = Ret spans /\
             map highlight spans = alternate_labels n)
    by (eexists _, 0; split; reflexivity).
  destruct text as [|c s]; [exact Hone|].
  destruct query as [|d q]; [exact Hone|].
  rewrite Hterms. cbn [bind]. destruct terms as [|t terms]; [exact Hone|].
  destruct t as [|c' t]; [inversion Hlong; simpl in *; lia|].
  change (ch "(" :: join_bar (map escape_term ((c' :: t) :: terms)) ++ [ch ")"])
    with (highlight_source ((c' :: t) :: terms)).
  rewrite RegExp_gi_highlight_source. cbn [bind]. unfold split.
  destruct (@split_loop_alternating ((c' :: t) :: terms) (c :: s)
              (2 * length (c :: s) + 2) 0 0 ltac:(discriminate) Hlong)
    as (pieces & Hsplit & Halt & Hsl); try lia.
  rewrite Hsplit.
  rewrite (@label_parts_highlight ((c' :: t) :: terms) ltac:(discriminate) Hlong
             pieces (alternating_fragments _ _ Halt)).
  assert (Hlp : Forall (fun p => forallb is_latin p = true) pieces).
  { rewrite Forall_forall in *. intros p Hin.
    destruct (Hsl p Hin) as (a & b & ->). apply slice_latin, Hlt. }
  destruct (alternating_labels Hl Hlp Halt) as (n & Hn).
  eexists _, n. split; [reflexivity|].
  rewrite map_map. cbn [labelled highlight]. exact Hn.
Qed.

(** Two matches, one of them in capitals. *)
Lemma highlightTerms_alternates_witness :
  exists spans n,
    highlightTerms (js "SaaS and saas") (js "saas") = Ret spans /\
    map highlight spans = alternate_labels n.
Proof.
  apply (@highlightTerms_alternates (js "SaaS and saas") (js "saas"));
    vm_compute; reflexivity.
Defined.

(** ** What the ranking returns *)

Lemma score_all_spec (vs : list video) (query : jsstring) (all : list scored) :
  score_all vs query = Ret all ->
  map s_video all = vs /\
  Forall (fun r => scoreRelevance (s_video r) query = Ret (score r) /\
                   extractExcerpt (transcript (s_video r)) query default_maxLen
                     = Ret (excerpt r)) all.
Proof.
  revert all. induction vs as [|v vs IH]; intros all H; cbn [score_all] in H.
  - injection H as <-. split; [reflexivity | constructor].
  - bind_inv H. bind_inv H. bind_inv H. injection H as <-.
    destruct (IH _ Ha1) as [Hmap Hall]. split.
    + cbn [map s_video]. rewrite Hmap. reflexivity.
    + constructor; [split; assumption | exact Hall].
Qed.

(** X8: every result of the keyword search is a document of the database
    that has a transcript, with the score and the excerpt that
    [scoreRelevance] and [extractExcerpt] give it for the query. *)
Theorem doKeywordSearch_provenance (videos : list video) (query : jsstring)
    (results : list scored) :
  doKeywordSearch (Some videos) query = Ret (Some results) ->
  Forall (fun r => In (s_video r) videos /\
                   transcriptAvailable (s_video r) = true /\
                   scoreRelevance (s_video r) query = Ret (score r) /\
                   extractExcerpt (transcript (s_video r)) query default_maxLen
                     = Ret (excerpt r)) results.
Proof.
  unfold doKeywordSearch. generalize result_limit. intros lim H.
  destruct (trim query) as [|tc tq]; [discriminate H|].
  bind_inv H. injection H as <-.
  destruct (score_all_spec _ _ Ha) as [Hmap Hall].
  rewrite Forall_forall in *. intros r Hr.
  apply firstn_In, sort_by_score_In, filter_In in Hr. destruct Hr as [Hr _].
  assert (Hv : In (s_video r) (filter transcriptAvailable videos))
    by (rewrite <- Hmap; apply in_map; exact Hr).
  apply filter_In in Hv. destruct Hv as [Hv1 Hv2].
  destruct (Hall r Hr) as [Hs He]. repeat split; assumption.
Qed.

(** The query [saas] on the four sample documents. *)
Lemma doKeywordSearch_provenance_witness :
  exists results,
    doKeywordSearch (Some sample_database) (js "saas") = Ret (Some results) /\
    Forall (fun r => In (s_video r) sample_database /\
                     transcriptAvailable (s_video r) = true /\
                     scoreRelevance (s_video r) (js "saas") = Ret (score r) /\
                     extractExcerpt (transcript (s_video r)) (js "saas") default_maxLen
                       = Ret (excerpt r)) results.
Proof.
  eexists. split; [vm_compute; reflexivity|].
  apply (doKeywordSearch_provenance sample_database (js "saas")).
  vm_compute. reflexivity.
Defined.

Lemma by_score_desc_trans : Relations_1.Transitive by_score_desc.
Proof. intros a b c. unfold by_score_desc. lia. Qed.

Lemma sorted_split (l1 l2 : list scored) :
  Sorted by_score_desc (l1 ++ l2) ->
  forall a b, In a l1 -> In b l2 -> score b <= score a.
Proof.
  intros H. apply (Sorted_StronglySorted by_score_desc_trans) in H.
  induction l1 as [|x l1 IH]; intros a b Ha Hb; [destruct Ha|].
  cbn [app] in H. apply StronglySorted_inv in H. destruct H as [Hs Hx].
  destruct Ha as [<-|Ha].
  - rewrite Forall_forall in Hx. apply (Hx b). apply in_or_app. right. exact Hb.
  - apply (IH Hs a b Ha Hb).
Qed.

(** X9: no document is left out for a worse one: a document of the
    database with a transcript and a score above 0 is among the results,
    or there are 25 results and each of them scores at least as much. *)
Theorem doKeywordSearch_best_first (videos : list video) (query : jsstring)
    (results : list scored) (v : video) (n : nat) :
  doKeywordSearch (Some videos) query = Ret (Some results) ->
  In v videos -> transcriptAvailable v = true ->
  scoreRelevance v query = Ret n -> 0 < n ->
  (exists r, In r results /\ s_video r = v /\ score r = n) \/
  (length results = result_limit /\ Forall (fun r => n <= score r) results).
Proof.
  unfold doKeywordSearch. generalize result_limit. intros lim H Hv Hav Hn Hpos.
  destruct (trim query) as [|tc tq]; [discriminate H|].
  bind_inv H. injection H as <-.
  destruct (score_all_spec _ _ Ha) as [Hmap Hall].
  assert (Hin : In v (map s_video a))
    by (rewrite Hmap; apply filter_In; split; assumption).
  apply in_map_iff in Hin. destruct Hin as (x & Hx & Hxin).
  rewrite Forall_forall in Hall. destruct (Hall x Hxin) as [Hsx _].
  rewrite Hx, Hn in Hsx. injection Hsx as Hsx.
  set (ranked := sort_by_score (filter (fun v0 => 0 <? score v0) a)).
  assert (Hr : In x ranked).
  { apply sort_by_score_In, filter_In. split; [exact Hxin|].
    apply Nat.ltb_lt. lia. }
  rewrite <- (firstn_skipn lim ranked) in Hr. apply in_app_or in Hr.
  destruct Hr as [Hr|Hr].
  - left. exists x. repeat split; [exact Hr | exact Hx | congruence].
  - right. split.
    + rewrite length_firstn. apply Nat.min_l.
      destruct (Nat.le_gt_cases lim (length ranked)) as [Hle|Hgt]; [exact Hle|].
      rewrite skipn_all2 in Hr by lia. destruct Hr.
    + apply Forall_forall. intros r Hrin. rewrite Hsx.
      apply (@sorted_split (firstn lim ranked) (skipn lim ranked)); try assumption.
      rewrite firstn_skipn. apply sort_by_score_sorted.
Qed.

(** The fourth sample document, which scores 46, is among the results. *)
Lemma doKeywordSearch_best_first_witness :
  exists results,
    doKeywordSearch (Some sample_database) (js "saas") = Ret (Some results) /\
    ((exists r, In r results /\ s_video r = sample_video "saas" "d" "about saas"
                /\ score r = 46) \/
     (length results = result_limit /\ Forall (fun r => 46 <= score r) results)).
Proof.
  eexists. split; [vm_compute; reflexivity|].
  apply (@doKeywordSearch_best_first sample_database (js "saas") _
           (sample_video "saas" "d" "about saas") 46).
  - vm_compute. reflexivity.
  - simpl. tauto.
  - reflexivity.
  - vm_compute. reflexivity.
  - lia.
Defined.

Lemma filter_insert_by_score (k : nat) (x : scored) (l : list scored) :
  filter (fun r => score r =? k) (insert_by_score x l)
    = filter (fun r => score r =? k) (x :: l).
Proof.
  induction l as [|y l IH]; [reflexivity|].
  cbn [insert_by_score]. destruct (Nat.leb_spec (score y) (score x)) as [Hle|Hgt];
    [reflexivity|].
  cbn [filter] in *. rewrite IH.
  destruct (Nat.eqb_spec (score x) k); destruct (Nat.eqb_spec (score y) k);
    try reflexivity. lia.
Qed.

(** The sort keeps the documents of one score in their order. *)
Lemma sort_by_score_stable (k : nat) (l : list scored) :
  filter (fun r => score r =? k) (sort_by_score l) = filter (fun r => score r =? k) l.
Proof.
  induction l as [|x l IH]; [reflexivity|].
  cbn [sort_by_score fold_right]. fold (sort_by_score l).
  rewrite filter_insert_by_score. cbn [filter]. rewrite IH. reflexivity.
Qed.

Lemma filter_firstn_prefix (A : Type) (f : A -> bool) (n : nat) (l : list A) :
  exists m, filter f (firstn n l) = firstn m (filter f l).
Proof.
  revert n. induction l as [|x l IH]; intros [|n].
  - exists 0. reflexivity.
  - exists 0. reflexivity.
  - exists 0. reflexivity.
  - cbn [firstn filter]. destruct (IH n) as (m & Hm). destruct (f x).
    + exists (S m). cbn [firstn]. rewrite Hm. reflexivity.
    + exists m. exact Hm.
Qed.

(** X10: documents with the same score stay in the order of the database:
    the results with a given score above 0 are the first of the documents
    with that score, in their order. *)
Theorem doKeywordSearch_stable (videos : list video) (query : jsstring)
    (all results : list scored) (k : nat) :
  score_all (filter transcriptAvailable videos) query = Ret all ->
  doKeywordSearch (Some videos) query = Ret (Some results) ->
  0 < k ->
  exists m, filter (fun r => score r =? k) results
            = firstn m (filter (fun r => score r =? k) all).
Proof.
  unfold doKeywordSearch. generalize result_limit. intros lim Hall H Hk.
  destruct (trim query) as [|tc tq]; [discriminate H|].
  rewrite Hall in H. cbn [bind] in H. injection H as <-.
  destruct (filter_firstn_prefix (fun r => score r =? k) lim
              (sort_by_score (filter (fun v => 0 <? score v) all))) as (m & Hm).
  exists m. rewrite Hm, sort_by_score_stable. f_equal.
  clear Hall Hm. induction all as [|x all IH]; [reflexivity|].
  cbn [filter]. destruct (Nat.ltb_spec 0 (score x)); cbn [filter]; rewrite IH.
  - reflexivity.
  - destruct (Nat.eqb_spec (score x) k); [lia | reflexivity].
Qed.

(** Two documents with the score 16 follow the one with the score 30, in
    the order of the database. *)
Lemma doKeywordSearch_stable_witness :
  exists all results,
    score_all (filter transcriptAvailable tied_database) (js "saas") = Ret all /\
    doKeywordSearch (Some tied_database) (js "saas") = Ret (Some results) /\
    map score results = [30; 16; 16] /\
    map (fun r => title (s_video r)) results = [js "saas"; js "first"; js "second"] /\
    exists m, filter (fun r => score r =? 16) results
              = firstn m (filter (fun r => score r =? 16) all).
Proof.
  eexists. eexists. split; [vm_compute; reflexivity|].
  split; [vm_compute; reflexivity|]. split; [reflexivity|]. split; [reflexivity|].
  apply (@doKeywordSearch_stable tied_database (js "saas") _ _ 16).
  - vm_compute. reflexivity.
  - vm_compute. reflexivity.
  - lia.
Defined.

(** ** Decimal digits *)

Ltac eval_digit :=
  match goal with
  | |- context [digit_value ?c] =>
      let v := eval vm_compute in (digit_value c) in
      change (digit_value c) with v
  end.

Lemma digits_fold_acc (d : uint) (acc : positive) :
  digits_fold (js (NilEmpty.string_of_uint d)) (N.pos acc)
    = Some (N.pos (Pos.of_uint_acc d acc)).
Proof.
  unfold js. revert acc. induction d; intros acc; cbn [NilEmpty.string_of_uint
    list_ascii_of_string map digits_fold Pos.of_uint_acc]; try reflexivity;
    (replace (is_digit _) with true by reflexivity); rewrite <- IHd; f_equal;
    eval_digit; lia.
Qed.

Lemma digits_fold_uint (d : uint) :
  digits_fold (js (NilEmpty.string_of_uint d)) 0
    = Some (N.of_uint d).
Proof.
  unfold N.of_uint. pose proof digits_fold_acc as Hacc. unfold js in *.
  induction d; cbn [NilEmpty.string_of_uint list_ascii_of_string map digits_fold
                    Pos.of_uint]; try reflexivity;
    (replace (is_digit _) with true by reflexivity);
    first [ exact IHd | apply Hacc ].
Qed.

(** Reading the decimal digits of a number gives the number back. *)
Lemma digits_fold_decimal (n : N) : digits_fold (decimal n) 0 = Some n.
Proof.
  unfold decimal. rewrite digits_fold_uint, DecimalN.Unsigned.of_to. reflexivity.
Qed.

Lemma uint_digits (d : uint) :
  forallb is_digit (js (NilEmpty.string_of_uint d)) = true.
Proof. induction d; cbn; try exact IHd; reflexivity. Qed.

Lemma decimal_digits (n : N) : forallb is_digit (decimal n) = true.
Proof. apply uint_digits. Qed.

Lemma decimal_nonempty (n : N) : decimal n <> [].
Proof.
  unfold decimal. assert (H : N.to_uint n <> Nil).
  { destruct n; [discriminate | apply DecimalPos.Unsigned.to_uint_nonnil]. }
  destruct (N.to_uint n); try contradiction; discriminate.
Qed.

Lemma Number_of_decimal (n : N) : Number_of (decimal n) = Some n.
Proof.
  unfold Number_of. pose proof (decimal_nonempty n) as H.
  pose proof (digits_fold_decimal n) as Hd.
  destruct (decimal n); [contradiction | exact Hd].
Qed.

Lemma digits_fold_zeros (k : nat) (s : jsstring) :
  digits_fold (repeat (ch "0") k ++ s) 0 = digits_fold s 0.
Proof. induction k as [|k IH]; [reflexivity | exact IH]. Qed.

Lemma Number_of_padded (n : N) : Number_of (padStart2 (decimal n)) = Some n.
Proof.
  unfold Number_of, padStart2. pose proof (decimal_nonempty n) as H.
  destruct (repeat (ch "0") (2 - length (decimal n)) ++ decimal n) eqn:E.
  - apply app_eq_nil in E. destruct E as [_ E]. contradiction.
  - rewrite <- E, digits_fold_zeros. apply digits_fold_decimal.
Qed.

Lemma padded_digits (n : N) : forallb is_digit (padStart2 (decimal n)) = true.
Proof.
  unfold padStart2. rewrite forallb_app, decimal_digits, andb_true_r.
  induction (2 - length (decimal n)) as [|k IH]; [reflexivity | exact IH].
Qed.

(** ** Durations *)

Lemma split_on_digits (s : jsstring) :
  forallb is_digit s = true -> split_on (ch ":") s = [s].
Proof.
  induction s as [|c s IH]; intros H; [reflexivity|].
  cbn [forallb] in H. apply andb_prop in H. destruct H as [Hc Hs].
  cbn [split_on]. rewrite (IH Hs).
  destruct (cu_eqb_spec c (ch ":")) as [->|_]; [discriminate Hc | reflexivity].
Qed.

Lemma split_on_digits_app (s rest : jsstring) :
  forallb is_digit s = true ->
  split_on (ch ":") (s ++ ch ":" :: rest) = s :: split_on (ch ":") rest.
Proof.
  induction s as [|c s IH]; intros H.
  - reflexivity.
  - cbn [forallb] in H. apply andb_prop in H. destruct H as [Hc Hs].
    cbn [app split_on]. rewrite (IH Hs).
    destruct (cu_eqb_spec c (ch ":")) as [->|_]; [discriminate Hc | reflexivity].
Qed.

(** X11: a duration that [formatDuration] has written is read back by the
    filter of [collect] as the same number of seconds, with or without
    hours, so such an item is kept exactly when it lasts 120 seconds or
    more. *)
Theorem formatDuration_read_back (seconds : N) (dsec : option N) :
  (seconds < 2 ^ 52)%N ->
  item_seconds {| i_duration := Some (formatDuration seconds);
                  i_durationSec := dsec |} = Some seconds /\
  is_long_form {| i_duration := Some (formatDuration seconds);
                  i_durationSec := dsec |} = Some (120 <=? seconds)%N.
Proof.
  intros _.
  assert (H : item_seconds {| i_duration := Some (formatDuration seconds);
                              i_durationSec := dsec |} = Some seconds).
  { unfold item_seconds, formatDuration. cbn [i_duration].
    destruct (N.ltb_spec 0 (seconds / 3600)) as [Hh|Hh].
    - rewrite split_on_digits_app by apply decimal_digits.
      rewrite split_on_digits_app by apply padded_digits.
      rewrite split_on_digits by apply padded_digits.
      cbn [map]. rewrite Number_of_decimal, !Number_of_padded.
      f_equal. zify. Z.to_euclidean_division_equations. lia.
    - rewrite split_on_digits_app by apply decimal_digits.
      rewrite split_on_digits by apply padded_digits.
      cbn [map]. rewrite Number_of_decimal, Number_of_padded.
      f_equal. zify. Z.to_euclidean_division_equations. lia. }
  split; [exact H|]. unfold is_long_form. rewrite H. reflexivity.
Qed.

(** One hour, two minutes and three seconds. *)
Lemma formatDuration_read_back_witness :
  formatDuration 3723 = js "1:02:03" /\
  item_seconds {| i_duration := Some (formatDuration 3723);
                  i_durationSec := None |} = Some 3723%N.
Proof.
  split; [vm_compute; reflexivity|].
  apply (@formatDuration_read_back 3723%N None). reflexivity.
Defined.

Lemma split_on_length (sep : code_unit) (s : jsstring) :
  length (split_on sep s) = S (count_occ cu_dec s sep).
Proof.
  induction s as [|c s IH]; [reflexivity|].
  cbn [split_on count_occ].
  destruct (cu_eqb_spec c sep) as [->|Hne].
  - destruct (cu_dec sep sep); [|contradiction]. cbn [length]. rewrite IH. reflexivity.
  - destruct (cu_dec c sep); [contradiction|].
    destruct (split_on sep s) as [|p ps]; [discriminate IH | exact IH].
Qed.

(** X12: a duration string that is not of the form [m:ss] or [h:mm:ss],
    having no colon or more than two, counts as 0 seconds, so the item is
    filtered out, whatever its [durationSec] says. *)
Theorem other_durations_are_dropped (d : jsstring) (dsec : option N) :
  count_occ cu_dec d (ch ":") <> 1 ->
  count_occ cu_dec d (ch ":") <> 2 ->
  item_seconds {| i_duration := Some d; i_durationSec := dsec |} = Some 0%N /\
  is_long_form {| i_duration := Some d; i_durationSec := dsec |} = Some false.
Proof.
  intros H1 H2.
  assert (H : item_seconds {| i_duration := Some d; i_durationSec := dsec |}
              = Some 0%N).
  { unfold item_seconds. cbn [i_duration].
    pose proof (split_on_length (ch ":") d) as Hlen.
    rewrite <- (length_map Number_of) in Hlen.
    destruct (map Number_of (split_on (ch ":") d)) as [|a [|b [|c [|e rest]]]];
      cbn [length] in Hlen; try lia;
      repeat match goal with
             | |- context [match ?x with _ => _ end] => destruct x
             end; reflexivity. }
  split; [exact H|]. unfold is_long_form. rewrite H. reflexivity.
Qed.

(** A stream of one day, written with days, is dropped although its
    [durationSec] is 86400; so is a duration of seconds alone. *)
Lemma other_durations_are_dropped_witness :
  is_long_form {| i_duration := Some (js "1:00:00:00");
                  i_durationSec := Some 86400%N |} = Some false /\
  is_long_form {| i_duration := Some (js "300"); i_durationSec := Some 300%N |}
    = Some false.
Proof.
  split.
  - apply (@other_durations_are_dropped (js "1:00:00:00") (Some 86400%N));
      vm_compute; discriminate.
  - apply (@other_durations_are_dropped (js "300") (Some 300%N));
      vm_compute; discriminate.
Defined.

(** ** View counts *)

(** X13: the view count is the number that the digits of the text spell,
    whatever stands between them, and 0 when the text has no digit. *)
Theorem view_count_reads_digits (views : jsstring) (n : N) :
  (n < 2 ^ 53)%N ->
  (filter is_digit views = decimal n -> view_count views = n) /\
  (filter is_digit views = [] -> view_count views = 0%N).
Proof.
  intros _. unfold view_count. split; intros H.
  - destruct views as [|c v].
    + pose proof (decimal_nonempty n) as Hn. rewrite <- H in Hn.
      exfalso. apply Hn. reflexivity.
    + rewrite H. pose proof (digits_fold_decimal n) as Hd.
      pose proof (decimal_nonempty n) as Hn.
      destruct (decimal n); [contradiction|]. rewrite Hd. reflexivity.
  - destruct views as [|c v]; [reflexivity|]. rewrite H. reflexivity.
Qed.

(** A count with separators and a unit. *)
Lemma view_count_reads_digits_witness :
  view_count (js "1,234,567 views") = 1234567%N /\
  view_count (js "No views") = 0%N.
Proof.
  split.
  - apply (proj1 (@view_count_reads_digits (js "1,234,567 views") 1234567%N eq_refl)).
    vm_compute. reflexivity.
  - apply (proj2 (@view_count_reads_digits (js "No views") 0%N eq_refl)).
    vm_compute. reflexivity.
Defined.

(** ** Counts as text: [formatNumber] *)

Lemma formatNumber_examples :
  formatNumber 0 = js "0" /\ formatNumber 999 = js "999" /\
  formatNumber 1499 = js "1K" /\ formatNumber 1500 = js "2K" /\
  formatNumber 2500 = js "3K" /\ formatNumber 999499 = js "999K" /\
  formatNumber 1000000 = js "1.0M" /\ formatNumber 1250000 = js "1.3M" /\
  formatNumber 1349999 = js "1.3M" /\ formatNumber 12345678 = js "12.3M".
Proof. vm_compute. repeat split. Qed.

Lemma fl_div_spec (n d : Z) :
  (0 < d)%Z -> (d <= n)%Z -> (n / d < 2 ^ 52)%Z ->
  exists m : Z,
    let up := (52 - Z.log2 (n / d))%Z in
    fl_div n d = (m, (- up)%Z) /\
    (- d <= 2 * (d * m - n * 2 ^ up) <= d)%Z /\
    ((n * 2 ^ up) mod d = 0 -> d * m = n * 2 ^ up)%Z.
Proof.
  intros Hd Hn Hq.
  assert (Hq1 : (1 <= n / d)%Z) by (apply Z.div_le_lower_bound; lia).
  pose proof (Z.log2_nonneg (n / d)) as HL0.
  assert (HL : (Z.log2 (n / d) < 52)%Z) by (apply Z.log2_lt_pow2; lia).
  exists (fst (fl_div n d)). cbv zeta.
  unfold fl_div.
  rewrite (Z.max_r 0 (- (Z.log2 (n / d) - 52))) by lia.
  rewrite (Z.max_l 0 (Z.log2 (n / d) - 52)) by lia.
  replace (- (Z.log2 (n / d) - 52))%Z with (52 - Z.log2 (n / d))%Z by lia.
  rewrite Z.pow_0_r, Z.mul_1_r. cbn [fst].
  set (up := (52 - Z.log2 (n / d))%Z).
  split; [f_equal; lia|].
  pose proof (Z.div_mod (n * 2 ^ up) d ltac:(lia)) as Hdm.
  pose proof (Z.mod_pos_bound (n * 2 ^ up) d Hd) as Hr.
  set (q := (n * 2 ^ up / d)%Z) in *. set (r := ((n * 2 ^ up) mod d)%Z) in *.
  split.
  - destruct (Z.ltb_spec d (2 * r)); cbn [orb].
    + lia.
    + destruct (Z.eqb_spec (2 * r) d); cbn [andb]; [destruct (Z.odd q)|]; lia.
  - intros H0. destruct (Z.ltb_spec d (2 * r)); cbn [orb]; [lia|].
    destruct (Z.eqb_spec (2 * r) d); cbn [andb]; lia.
Qed.

(** X14: a count from 1000 up to 999999 is shown as its number of
    thousands, rounded to the nearest with a half going up, followed by
    [K]; the counts from 999500 on are therefore shown as [1000K]. *)
Theorem formatNumber_thousands (n : N) :
  (1000 <= n < 1000000)%N ->
  formatNumber n = decimal ((n + 500) / 1000) ++ js "K".
Proof.
  intros Hn. unfold formatNumber.
  destruct (N.eqb_spec n 0) as [H0|_]; [lia|].
  destruct (N.leb_spec 1000000 n) as [H1|_]; [lia|].
  destruct (N.leb_spec 1000 n) as [_|H1]; [|lia].
  f_equal. unfold toFixed. f_equal.
  rewrite <- (N2Z.id ((n + 500) / 1000)). f_equal.
  rewrite N2Z.inj_div, N2Z.inj_add. change (Z.of_N 500) with 500%Z.
  change (Z.of_N 1000) with 1000%Z.
  set (z := Z.of_N n). assert (Hz : (1000 <= z < 1000000)%Z) by (subst z; lia).
  clearbody z. clear n Hn.
  assert (Hq : (1 <= z / 1000 < 1024)%Z).
  { split; [apply Z.div_le_lower_bound; lia | apply Z.div_lt_upper_bound; lia]. }
  destruct (@fl_div_spec z 1000 ltac:(lia) ltac:(lia)) as (m & Hfl & Hm & Hex).
  { eapply Z.lt_trans; [apply Hq | reflexivity]. }
  cbv zeta in *. pose proof (Z.log2_nonneg (z / 1000)) as HL0.
  assert (HL : (Z.log2 (z / 1000) < 10)%Z) by (apply Z.log2_lt_pow2; lia).
  set (up := (52 - Z.log2 (z / 1000))%Z) in *.
  rewrite Hfl. unfold toFixed_integer. cbn [fst snd Z.of_nat].
  destruct (Z.leb_spec 0 (- up)) as [Hneg|_]; [lia|].
  rewrite Z.opp_involutive, Z.pow_0_r, Z.mul_1_r.
  assert (Hpow : (2 ^ up = 2 * 2 ^ (up - 1))%Z).
  { rewrite <- (Z.pow_succ_r 2 (up - 1)) by lia. f_equal. lia. }
  assert (Hh : (2 ^ 42 <= 2 ^ (up - 1))%Z) by (apply Z.pow_le_mono_r; lia).
  set (h := (2 ^ (up - 1))%Z) in *. rewrite Hpow in *. clearbody h.
  pose proof (Z.div_mod (z + 500) 1000 ltac:(lia)) as Hdm.
  pose proof (Z.mod_pos_bound (z + 500) 1000 ltac:(lia)) as Hr.
  set (k := ((z + 500) / 1000)%Z) in *. set (r := ((z + 500) mod 1000)%Z) in *.
  clearbody k r.
  assert (Hid : (1000 * (m + h - 2 * h * k) = (1000 * m - z * (2 * h)) + 2 * h * r)%Z) by nia.
  symmetry. apply (Z.div_unique _ _ k (2 * m + 2 * h - 2 * (2 * h) * k)%Z); [|ring].
  left. destruct (Z.eq_dec r 0) as [Hr0|Hr0].
  - assert (Hmod : ((z * (2 * h)) mod 1000 = 0)%Z).
    { replace (z * (2 * h))%Z with ((2 * k * h - h) * 1000)%Z by nia.
      apply Z_mod_mult. }
    specialize (Hex Hmod). nia.
  - nia.
Qed.

(** The largest count below a million. *)
Lemma formatNumber_thousands_witness :
  formatNumber 999500 = js "1000K".
Proof. apply (@formatNumber_thousands 999500%N). lia. Defined.

Lemma digits_fold_app (a b : jsstring) (acc : N) :
  digits_fold (a ++ b) acc =
    match digits_fold a acc with
    | Some n => digits_fold b n
    | None => None
    end.
Proof.
  revert acc. induction a as [|c a IH]; intros acc; [reflexivity|].
  cbn [app digits_fold]. destruct (is_digit c); [apply IH | reflexivity].
Qed.

Lemma is_digit_cases (c : code_unit) :
  is_digit c = true ->
  In c [ch "0"; ch "1"; ch "2"; ch "3"; ch "4"; ch "5"; ch "6"; ch "7"; ch "8"; ch "9"].
Proof.
  each_char c; intros H; try discriminate H; cbn; tauto.
Qed.

Lemma uint_of_digits_string (s : jsstring) :
  forallb is_digit s = true ->
  js (NilEmpty.string_of_uint (uint_of_digits s)) = s.
Proof.
  induction s as [|c s IH]; intros H; [reflexivity|].
  cbn [forallb] in H. apply andb_prop in H. destruct H as [Hc Hs].
  specialize (IH Hs). apply is_digit_cases in Hc. cbn [In] in Hc.
  cbn [uint_of_digits]. unfold js in *.
  repeat (destruct Hc as [<-|Hc];
          [eval_digit;
           cbn [NilEmpty.string_of_uint list_ascii_of_string map];
           rewrite IH; reflexivity|]). destruct Hc.
Qed.

(** A string of digits that does not begin with a zero is the decimal
    text of the number it spells. *)
Lemma decimal_unique (c : code_unit) (s : jsstring) (n : N) :
  c <> ch "0" -> digits_fold (c :: s) 0 = Some n -> decimal n = c :: s.
Proof.
  intros Hc H.
  assert (Hd : forallb is_digit (c :: s) = true).
  { clear Hc. revert H. generalize 0%N. generalize (c :: s). clear.
    induction l as [|d l IH]; intros acc H; [reflexivity|].
    cbn [digits_fold] in H. cbn [forallb]. destruct (is_digit d); [|discriminate H].
    exact (IH _ H). }
  pose proof (uint_of_digits_string _ Hd) as Hs.
  rewrite <- Hs in H. rewrite digits_fold_uint in H. injection H as <-.
  unfold decimal. rewrite DecimalN.Unsigned.to_of.
  etransitivity; [|exact Hs]. do 2 f_equal.
  cbn [forallb] in Hd. apply andb_prop in Hd. destruct Hd as [Hd _].
  apply is_digit_cases in Hd. cbn [In] in Hd. cbn [uint_of_digits].
  destruct Hd as [<-|Hd]; [contradiction Hc; reflexivity|].
  repeat (destruct Hd as [<-|Hd]; [reflexivity|]). destruct Hd.
Qed.

Lemma decimal_small (r : N) :
  (r < 10)%N -> exists c, decimal r = [c] /\ is_digit c = true /\ digit_value c = r.
Proof.
  intros H.
  assert (Hr : In r [0; 1; 2; 3; 4; 5; 6; 7; 8; 9]%N).
  { cbn [In]. lia. }
  cbn [In] in Hr.
  repeat (destruct Hr as [<-|Hr]; [eexists; repeat split|]). destruct Hr.
Qed.

Lemma decimal_head (q : N) :
  (0 < q)%N -> exists c s, decimal q = c :: s /\ c <> ch "0".
Proof.
  intros Hq. pose proof (digits_fold_decimal q) as Hf.
  pose proof (decimal_digits q) as Hd. pose proof (decimal_nonempty q) as Hn.
  unfold decimal in *.
  pose proof (DecimalN.Unsigned.to_of (N.to_uint q)) as Hu.
  rewrite DecimalN.Unsigned.of_to in Hu.
  destruct (N.to_uint q) as [|u|u|u|u|u|u|u|u|u|u] eqn:E;
    try (eexists; eexists; split; [reflexivity | discriminate]).
  - contradiction Hn. reflexivity.
  - exfalso. rewrite unorm_D0 in Hu.
    assert (Hz : nzhead u = Nil \/ nzhead u <> Nil) by (destruct (nzhead u); [left; reflexivity | right; discriminate ..]).
    destruct Hz as [Hz|Hz].
    + apply unorm_0 in Hz. rewrite Hz in Hu. injection Hu as ->.
      rewrite <- (DecimalN.Unsigned.of_to q), E in Hq. cbn in Hq. lia.
    + rewrite (unorm_nzhead _ Hz) in Hu.
      pose proof (DecimalFacts.nb_digits_nzhead u) as Hlen. rewrite <- Hu in Hlen.
      cbn in Hlen. lia.
Qed.

(** The digits of [10 * q + r] are those of [q] followed by the digit [r]. *)
Lemma decimal_snoc (q r : N) :
  (0 < q)%N -> (r < 10)%N -> decimal (10 * q + r) = decimal q ++ decimal r.
Proof.
  intros Hq Hr. destruct (decimal_head Hq) as (c & s & Hqs & Hc).
  destruct (decimal_small Hr) as (d & Hrd & Hd & Hv).
  rewrite Hqs. cbn [app]. apply decimal_unique; [exact Hc|].
  change (c :: s ++ decimal r) with ((c :: s) ++ decimal r).
  rewrite digits_fold_app, <- Hqs, digits_fold_decimal, Hrd.
  cbn [digits_fold]. rewrite Hd, Hv. reflexivity.
Qed.

Lemma point_before_last (a : jsstring) (c : code_unit) :
  a <> [] ->
  (let digits := a ++ [c] in
   let padded := repeat (ch "0") (2 - length digits) ++ digits in
   firstn (length padded - 1) padded ++ ch "." :: skipn (length padded - 1) padded)
  = a ++ [ch "."; c].
Proof.
  intros Ha. cbv zeta.
  assert (Hlen : 2 - length (a ++ [c]) = 0).
  { rewrite length_app. destruct a; [contradiction | cbn [length]; lia]. }
  rewrite Hlen. cbn [repeat app].
  assert (Hl : length (a ++ [c]) - 1 = length a)
    by (rewrite length_app; cbn [length]; lia).
  rewrite Hl, firstn_app, skipn_app, firstn_all, skipn_all, Nat.sub_diag.
  cbn [firstn skipn app]. rewrite app_nil_r. reflexivity.
Qed.

Lemma toFixed_1_text (x : Z * Z) (k : N) :
  Z.to_N (toFixed_integer 1 x) = k -> (10 <= k)%N ->
  toFixed 1 x = decimal (k / 10) ++ ch "." :: decimal (k mod 10).
Proof.
  intros <- Hk. unfold toFixed. set (k := Z.to_N (toFixed_integer 1 x)) in *.
  clearbody k. cbv beta iota zeta.
  assert (Hq : (0 < k / 10)%N) by (apply N.div_str_pos; lia).
  assert (Hr : (k mod 10 < 10)%N) by (apply N.mod_lt; lia).
  assert (Hk' : decimal k = decimal (k / 10) ++ decimal (k mod 10)).
  { rewrite (N.div_mod k 10) at 1 by lia. apply decimal_snoc; assumption. }
  rewrite Hk'. clear Hk'.
  destruct (decimal_small Hr) as (c & -> & _).
  apply point_before_last. apply decimal_nonempty.
Qed.

(** X15: a count of a million or more is shown as a number of tenths of
    a million, with one digit after the point and followed by [M]; the
    number shown differs from the count by at most 50000. *)
Theorem formatNumber_millions (n : N) :
  (1000000 <= n < 2 ^ 53)%N ->
  exists k : N,
    formatNumber n = decimal (k / 10) ++ ch "." :: decimal (k mod 10) ++ js "M" /\
    (100000 * k <= n + 50000 /\ n <= 100000 * k + 50000)%N.
Proof.
  intros Hn. change (2 ^ 53)%N with 9007199254740992%N in Hn.
  unfold formatNumber.
  destruct (N.eqb_spec n 0) as [H0|_]; [lia|].
  destruct (N.leb_spec 1000000 n) as [_|H1]; [|lia].
  set (z := Z.of_N n).
  assert (Hz : (1000000 <= z < 9007199254740992)%Z) by (subst z; lia).
  assert (Hq : (1 <= z / 1000000 < 2 ^ 34)%Z).
  { split; [apply Z.div_le_lower_bound; lia|].
    apply Z.div_lt_upper_bound; [lia|]. change (2 ^ 34)%Z with 17179869184%Z. lia. }
  destruct (@fl_div_spec z 1000000 ltac:(lia) ltac:(lia)) as (m & Hfl & Hm & _).
  { eapply Z.lt_trans; [apply Hq | reflexivity]. }
  cbv zeta in *. pose proof (Z.log2_nonneg (z / 1000000)) as HL0.
  assert (HL : (Z.log2 (z / 1000000) < 34)%Z) by (apply Z.log2_lt_pow2; lia).
  set (up := (52 - Z.log2 (z / 1000000))%Z) in *.
  rewrite Hfl.
  assert (Hk : toFixed_integer 1 (m, (- up)%Z) = ((2 * (m * 10) + 2 ^ up) / (2 * 2 ^ up))%Z).
  { unfold toFixed_integer. cbn [fst snd Z.of_nat].
    destruct (Z.leb_spec 0 (- up)) as [Hneg|_]; [lia|].
    rewrite Z.opp_involutive. reflexivity. }
  assert (Hd : (2 ^ 19 <= 2 ^ up)%Z) by (apply Z.pow_le_mono_r; lia).
  change (2 ^ 19)%Z with 524288%Z in Hd.
  set (d := (2 ^ up)%Z) in *. clearbody d.
  pose proof (Z.div_mod (2 * (m * 10) + d) (2 * d) ltac:(lia)) as Hdm.
  pose proof (Z.mod_pos_bound (2 * (m * 10) + d) (2 * d) ltac:(lia)) as Hr.
  set (k := ((2 * (m * 10) + d) / (2 * d))%Z) in *.
  set (r := ((2 * (m * 10) + d) mod (2 * d))%Z) in *. clearbody k r.
  assert (Hlo : (100000 * k <= z + 50000)%Z) by nia.
  assert (Hhi : (z <= 100000 * k + 50000)%Z) by nia.
  exists (Z.to_N k). split; [|subst z; lia].
  rewrite (@toFixed_1_text _ (Z.to_N k)) by (rewrite ?Hk; lia).
  rewrite <- app_assoc. reflexivity.
Qed.

(** One and a quarter million. *)
Lemma formatNumber_millions_witness :
  exists k : N,
    formatNumber 1250000 = decimal (k / 10) ++ ch "." :: decimal (k mod 10) ++ js "M" /\
    (100000 * k <= 1250000 + 50000 /\ 1250000 <= 100000 * k + 50000)%N.
Proof. apply (@formatNumber_millions 1250000%N). split; [lia | reflexivity]. Defined.

(** ** The transcript text of [fetchTranscript] *)

Lemma fullText_examples :
  fullText [js "[Music] hello &amp; welcome"; js "  to   the show [APPLAUSE]"]
    = js "hello & welcome to the show" /\
  wordCount (js "hello & welcome to the show") = 6 /\
  fullText [js "&amp;lt;b&amp;gt;"] = js "<b>" /\
  fullText [js " [Music] "; js "[Applause]"] = [] /\
  wordCount [] = 1.
Proof. vm_compute. repeat split. Qed.

(** The patterns of the regex literals of [fetchTranscript]. *)
Lemma fetchTranscript_patterns :
  parse_pattern (js "\[Music\]")
    = Ret {| p_regex := literal (js "[Music]"); p_groups := 0 |} /\
  parse_pattern (js "\[Applause\]")
    = Ret {| p_regex := literal (js "[Applause]"); p_groups := 0 |} /\
  parse_pattern (js "&amp;")
    = Ret {| p_regex := literal (js "&amp;"); p_groups := 0 |} /\
  parse_pattern (js "&lt;") = Ret {| p_regex := literal (js "&lt;"); p_groups := 0 |} /\
  parse_pattern (js "&gt;") = Ret {| p_regex := literal (js "&gt;"); p_groups := 0 |} /\
  parse_pattern (js "&#39;")
    = Ret {| p_regex := literal (js "&#39;"); p_groups := 0 |} /\
  parse_pattern (js "&quot;")
    = Ret {| p_regex := literal (js "&quot;"); p_groups := 0 |}.
Proof. vm_compute. repeat split. Qed.

(** *** What [/\s+/] matches: the whole run of whitespace *)

Lemma greedy_run (s : jsstring) (fuel i : nat) :
  length s - i < fuel ->
  hd_error (repeat_ends (ends false s Space) [] true fuel 0 None (i, []))
    = Some (i + ws_run (skipn i s), []).
Proof.
  revert i. induction fuel as [|fuel IH]; intros i Hfuel; [lia|].
  rewrite repeat_ends_greedy.
  change (ends false s Space (fst (i, @nil (option (nat * nat))),
                              reset_captures [] (snd (i, @nil (option (nat * nat))))))
    with (on_char s (i, []) is_ws).
  unfold on_char. cbn [fst snd]. rewrite (skipn_nth_error s i).
  destruct (nth_error s i) as [d|] eqn:E.
  - cbn [ws_run]. destruct (is_ws d).
    + cbn [flat_map fst].
      replace (S i =? i) with false by (symmetry; apply Nat.eqb_neq; lia).
      assert (Hlt : i < length s) by (apply nth_error_Some; congruence).
      specialize (IH (S i) ltac:(lia)).
      destruct (repeat_ends _ _ _ _ _ _ _) as [|y l]; [discriminate IH|].
      cbn [app hd_error] in *. rewrite IH. do 2 f_equal. lia.
    + cbn [flat_map app hd_error]. do 2 f_equal. lia.
  - cbn [flat_map app hd_error ws_run]. do 2 f_equal. lia.
Qed.

Lemma exec_at_spaces_run (s : jsstring) (i : nat) :
  exec_at re_spaces s i =
    match run_hit (skipn i s) with
    | Some n => Some (i + n, [])
    | None => None
    end.
Proof.
  change (exec_at re_spaces s i)
    with (hd_error (repeat_ends (ends false s Space) [] true
                      (1 + (length s - i) + 1) 1 None (i, []))).
  replace (1 + (length s - i) + 1) with (S (S (length s - i))) by lia.
  rewrite repeat_ends_required.
  change (ends false s Space (fst (i, @nil (option (nat * nat))),
                              reset_captures [] (snd (i, @nil (option (nat * nat))))))
    with (on_char s (i, []) is_ws).
  unfold on_char, run_hit. cbn [fst snd]. rewrite (skipn_nth_error s i).
  destruct (nth_error s i) as [d|] eqn:E; [|reflexivity].
  cbn [ws_run]. destruct (is_ws d); [|reflexivity].
  cbn [flat_map]. rewrite app_nil_r, greedy_run by lia.
  do 2 f_equal. lia.
Qed.

(** *** Replacing the runs of whitespace *)

Lemma squeeze_skip_run (x : jsstring) :
  squeeze true x = squeeze false (skipn (ws_run x) x).
Proof.
  induction x as [|d x IH]; [reflexivity|].
  cbn [squeeze ws_run]. destruct (is_ws d) eqn:E.
  - cbn [skipn]. exact IH.
  - cbn [skipn squeeze]. rewrite E. reflexivity.
Qed.

Lemma squeeze_run (x : jsstring) (k : nat) :
  run_hit x = Some k ->
  squeeze false x = space :: squeeze false (skipn k x).
Proof.
  unfold run_hit. destruct x as [|c x]; [discriminate|].
  cbn [ws_run squeeze]. destruct (is_ws c); [|discriminate].
  intros H. injection H as <-. cbn [skipn]. f_equal. apply squeeze_skip_run.
Qed.

Lemma squeeze_gap (s : jsstring) (n li : nat) :
  (forall j, li <= j < li + n -> run_hit (skipn j s) = None) ->
  squeeze false (skipn li s) = slice s li (li + n) ++ squeeze false (skipn (li + n) s).
Proof.
  revert li. induction n as [|n IH]; intros li H.
  - rewrite Nat.add_0_r. unfold slice. rewrite Nat.sub_diag. reflexivity.
  - pose proof (H li ltac:(lia)) as Hli. unfold run_hit in Hli.
    unfold slice. replace (li + S n - li) with (S n) by lia.
    rewrite (skipn_nth_error s li) in *.
    destruct (nth_error s li) as [d|] eqn:E.
    + cbn [ws_run] in Hli. destruct (is_ws d) eqn:Ed; [discriminate Hli|].
      cbn [squeeze firstn app]. rewrite Ed. f_equal.
      replace (li + S n) with (S li + n) by lia.
      rewrite (IH (S li)) by (intros j Hj; apply H; lia).
      unfold slice. replace (S li + n - S li) with n by lia. reflexivity.
    + apply nth_error_None in E. rewrite skipn_all2 by lia. reflexivity.
Qed.

Lemma run_hit_bound (x : jsstring) (k : nat) :
  run_hit x = Some k -> 0 < k <= length x.
Proof.
  unfold run_hit. intros H.
  assert (Hle : ws_run x <= length x).
  { clear H. induction x as [|c x IH]; [apply Nat.le_refl|].
    cbn [ws_run length]. destruct (is_ws c); lia. }
  destruct (ws_run x); [discriminate H|]. injection H as <-. lia.
Qed.

Lemma replace_loop_spaces (s : jsstring) (fuel li : nat) :
  li <= length s -> length s - li < fuel ->
  replace_loop (global (Quant Space 1 None true) false) s [space] fuel li li
    = squeeze false (skipn li s).
Proof.
  set (re := global (Quant Space 1 None true) false).
  assert (Hex : forall i, exec_at re s i =
            match run_hit (skipn i s) with
            | Some n => Some (i + n, (fun _ _ => []) i n)
            | None => None
            end) by (intros i; apply exec_at_spaces_run).
  revert li. induction fuel as [|fuel IH]; intros li Hli Hfuel; [lia|].
  cbn [replace_loop]. unfold exec_global.
  destruct (search re s (S (length s) - li) li) as [[st m]|] eqn:E.
  - apply (@search_some re s run_hit (fun _ _ => []) Hex) in E.
    destruct E as (Hst & (k & Hk & ->) & Hgap). cbn [fst].
    pose proof (run_hit_bound _ Hk) as Hkb. rewrite length_skipn in Hkb.
    replace (st + k =? st) with false by (symmetry; apply Nat.eqb_neq; lia).
    replace (li <=? st) with true by (symmetry; apply Nat.leb_le; lia).
    rewrite IH by lia.
    rewrite (@squeeze_gap s (st - li) li) by (intros j Hj; apply Hgap; lia).
    replace (li + (st - li)) with st by lia.
    rewrite (squeeze_run _ Hk), skipn_skipn.
    replace (k + st) with (st + k) by lia. reflexivity.
  - pose proof (@search_none re s run_hit (fun _ _ => []) Hex _ _ E) as Hgap.
    rewrite (@squeeze_gap s (length s - li) li) by (intros j Hj; apply Hgap; lia).
    replace (li + (length s - li)) with (length s) by lia.
    rewrite skipn_all. cbn [squeeze]. rewrite app_nil_r. reflexivity.
Qed.

Lemma replace_spaces (s : jsstring) :
  replace (global (Quant Space 1 None true) false) s [space] = squeeze false s.
Proof.
  unfold replace. rewrite replace_loop_spaces by lia. reflexivity.
Qed.

(** *** Words joined by single spaces *)

Lemma join_cons (w : jsstring) (ws : list jsstring) :
  join [space] (w :: ws) =
    w ++ match ws with
         | [] => []
         | _ :: _ => space :: join [space] ws
         end.
Proof. destruct ws; [symmetry; apply app_nil_r | reflexivity]. Qed.

Lemma join_head (ws : list jsstring) :
  Forall is_word ws -> ws <> [] ->
  exists c r, join [space] ws = c :: r /\ is_ws c = false.
Proof.
  intros Hws Hne. destruct ws as [|w ws]; [contradiction|].
  apply Forall_inv in Hws. destruct Hws as [Hw Hc].
  destruct w as [|c w]; [contradiction|].
  rewrite join_cons. cbn [app forallb] in *. apply andb_prop in Hc.
  destruct Hc as [Hc _]. apply negb_true_iff in Hc. eauto.
Qed.

Lemma join_last (ws : list jsstring) :
  Forall is_word ws -> ws <> [] ->
  exists c r, join [space] ws = r ++ [c] /\ is_ws c = false.
Proof.
  induction ws as [|w ws IH]; intros Hws Hne; [contradiction|].
  rewrite join_cons. destruct ws as [|w' ws].
  - apply Forall_inv in Hws. destruct Hws as [Hw Hc].
    destruct (exists_last Hw) as (r & c & ->). exists c, r.
    rewrite app_nil_r. split; [reflexivity|].
    rewrite forallb_app in Hc. apply andb_prop in Hc. destruct Hc as [_ Hc].
    cbn [forallb] in Hc. rewrite andb_true_r in Hc. apply negb_true_iff. exact Hc.
  - destruct (IH (Forall_inv_tail Hws) ltac:(discriminate)) as (c & r & Hr & Hc).
    rewrite Hr. exists c, (w ++ space :: r). split; [|exact Hc].
    rewrite <- app_assoc. reflexivity.
Qed.

Lemma squeeze_words (t : jsstring) (prev : bool) :
  exists lead ws trail,
    squeeze prev t = lead ++ join [space] ws ++ trail /\ Forall is_word ws /\
    (lead = [] \/ (prev = false /\ lead = [space])) /\
    (trail = [] \/ (ws <> [] /\ trail = [space])).
Proof.
  revert prev. induction t as [|c t IH]; intros prev.
  - exists [], [], []. repeat split; auto.
  - cbn [squeeze]. destruct (is_ws c) eqn:Ec.
    + destruct (IH true) as (lead & ws & trail & Heq & Hws & [->|[Hf _]] & Htrail);
        [|discriminate Hf].
      destruct prev.
      * exists [], ws, trail. repeat split; auto.
      * destruct ws as [|w ws].
        -- destruct Htrail as [->|[Hne _]]; [|contradiction Hne; reflexivity].
           exists [space], [], []. rewrite Heq. repeat split; auto.
        -- exists [space], (w :: ws), trail. rewrite Heq. repeat split; auto.
    + destruct (IH false) as (lead & ws & trail & Heq & Hws & Hlead & Htrail).
      rewrite Heq.
      assert (Hc : is_word [c]).
      { split; [discriminate|]. cbn [forallb]. rewrite Ec. reflexivity. }
      destruct Hlead as [->|[_ ->]].
      * destruct ws as [|w ws].
        -- destruct Htrail as [->|[Hne _]]; [|contradiction Hne; reflexivity].
           exists [], [[c]], []. repeat split; auto.
        -- exists [], ((c :: w) :: ws), trail. split; [|split; [|split]].
           ++ rewrite !join_cons. reflexivity.
           ++ constructor; [|exact (Forall_inv_tail Hws)].
              destruct (Forall_inv Hws) as [_ Hw]. split; [discriminate|].
              cbn [forallb]. rewrite Ec. exact Hw.
           ++ auto.
           ++ destruct Htrail as [->|[_ ->]]; [left; reflexivity|].
              right. split; [discriminate | reflexivity].
      * destruct ws as [|w ws].
        -- destruct Htrail as [->|[Hne _]]; [|contradiction Hne; reflexivity].
           exists [], [[c]], [space]. repeat split; auto.
           right. split; [discriminate | reflexivity].
        -- exists [], ([c] :: w :: ws), trail. split; [|split; [|split]].
           ++ reflexivity.
           ++ constructor; assumption.
           ++ auto.
           ++ destruct Htrail as [->|[_ ->]]; [left; reflexivity|].
              right. split; [discriminate | reflexivity].
Qed.

Lemma drop_ws_word_start (x : jsstring) :
  (x = [] \/ exists c r, x = c :: r /\ is_ws c = false) -> drop_ws x = x.
Proof.
  intros [->|(c & r & -> & Hc)]; [reflexivity|]. cbn [drop_ws]. rewrite Hc. reflexivity.
Qed.

Lemma trim_words (lead trail : jsstring) (ws : list jsstring) :
  Forall is_word ws ->
  (lead = [] \/ lead = [space]) ->
  (trail = [] \/ (ws <> [] /\ trail = [space])) ->
  trim (lead ++ join [space] ws ++ trail) = join [space] ws.
Proof.
  intros Hws Hlead Htrail. unfold trim.
  assert (Hstart : drop_ws (lead ++ join [space] ws ++ trail) = join [space] ws ++ trail).
  { assert (H : drop_ws (join [space] ws ++ trail) = join [space] ws ++ trail).
    { apply drop_ws_word_start. destruct ws as [|w ws].
      - destruct Htrail as [->|[Hne _]]; [left; reflexivity | contradiction Hne; reflexivity].
      - right. destruct (join_head Hws ltac:(discriminate)) as (c & r & -> & Hc).
        exists c, (r ++ trail). split; [reflexivity | exact Hc]. }
    destruct Hlead as [->| ->]; [exact H|]. exact H. }
  rewrite Hstart, rev_app_distr.
  assert (Hend : drop_ws (rev trail ++ rev (join [space] ws)) = rev (join [space] ws)).
  { assert (H : drop_ws (rev (join [space] ws)) = rev (join [space] ws)).
    { apply drop_ws_word_start. destruct ws as [|w ws]; [left; reflexivity|].
      right. destruct (join_last Hws ltac:(discriminate)) as (c & r & -> & Hc).
      exists c, (rev r). split; [apply rev_unit | exact Hc]. }
    destruct Htrail as [->|[_ ->]]; [exact H|]. exact H. }
  rewrite Hend. apply rev_involutive.
Qed.

(** *** Counting the pieces of [split(/\s+/)] *)

Lemma ws_runs_skip_run (x : jsstring) :
  ws_runs true x = ws_runs false (skipn (ws_run x) x).
Proof.
  induction x as [|d x IH]; [reflexivity|].
  cbn [ws_runs ws_run]. destruct (is_ws d) eqn:E.
  - cbn [skipn Nat.add]. exact IH.
  - cbn [skipn ws_runs]. rewrite E. reflexivity.
Qed.

Lemma ws_runs_run (x : jsstring) (k : nat) :
  run_hit x = Some k -> ws_runs false x = S (ws_runs false (skipn k x)).
Proof.
  unfold run_hit. destruct x as [|c x]; [discriminate|].
  cbn [ws_run ws_runs]. destruct (is_ws c); [|discriminate].
  intros H. injection H as <-. cbn [skipn Nat.add]. f_equal. apply ws_runs_skip_run.
Qed.

Lemma split_loop_count (s : jsstring) (fuel p q : nat) :
  p <= q -> length s - q < fuel ->
  length (split_loop re_spaces s fuel p q) = S (ws_runs false (skipn q s)).
Proof.
  revert p q. induction fuel as [|fuel IH]; intros p q Hpq Hfuel; [lia|].
  cbn [split_loop]. destruct (Nat.ltb_spec q (length s)) as [Hq|Hq].
  - rewrite exec_at_spaces_run. destruct (run_hit (skipn q s)) as [k|] eqn:E.
    + pose proof (run_hit_bound _ E) as Hk. rewrite length_skipn in Hk.
      rewrite Nat.min_l by lia.
      replace (q + k =? p) with false by (symmetry; apply Nat.eqb_neq; lia).
      cbn [map app length]. rewrite IH by lia.
      rewrite (ws_runs_run _ E), skipn_skipn.
      replace (k + q) with (q + k) by lia. reflexivity.
    + rewrite IH by lia. f_equal. unfold run_hit in E.
      rewrite (skipn_nth_error s q) in *.
      destruct (nth_error s q) as [d|] eqn:En;
        [|apply nth_error_None in En; lia].
      cbn [ws_run ws_runs] in *. destruct (is_ws d); [discriminate E | reflexivity].
  - rewrite skipn_all2 by lia. reflexivity.
Qed.

(** [s.split(/\s+/)] has one piece more than [s] has runs of whitespace. *)
Lemma wordCount_runs (s : jsstring) : wordCount s = S (ws_runs false s).
Proof.
  unfold wordCount, split. destruct s as [|c s]; [reflexivity|].
  rewrite split_loop_count by lia. reflexivity.
Qed.

Lemma ws_runs_word (w x : jsstring) (prev : bool) :
  forallb (fun c => negb (is_ws c)) w = true -> w <> [] ->
  ws_runs prev (w ++ x) = ws_runs false x.
Proof.
  intros Hw Hne. destruct w as [|c w]; [contradiction|]. clear Hne.
  revert c prev Hw. induction w as [|d w IH]; intros c prev Hw;
    cbn [forallb] in Hw; apply andb_prop in Hw; destruct Hw as [Hc Hw];
    apply negb_true_iff in Hc; cbn [app ws_runs]; rewrite Hc.
  - reflexivity.
  - apply (IH d false Hw).
Qed.

Lemma ws_runs_join (ws : list jsstring) :
  Forall is_word ws -> ws_runs false (join [space] ws) = length ws - 1.
Proof.
  induction ws as [|w ws IH]; intros Hws; [reflexivity|].
  rewrite join_cons. destruct (Forall_inv Hws) as [Hne Hw].
  rewrite (ws_runs_word _ false Hw Hne).
  destruct ws as [|w' ws]; [reflexivity|].
  specialize (IH (Forall_inv_tail Hws)).
  destruct (join_head (Forall_inv_tail Hws) ltac:(discriminate)) as (c & r & Hr & Hc).
  cbn [ws_runs]. replace (is_ws space) with true by reflexivity.
  rewrite Hr in *. cbn [ws_runs] in *. rewrite Hc in *. rewrite IH.
  cbn [length]. lia.
Qed.

(** X16: the text that [fetchTranscript] stores is a sequence of words
    joined by single spaces, a word being a non-empty string without
    whitespace; its [wordCount] is the number of these words, except that
    an empty text counts one word. *)
Theorem fullText_words (segments : list jsstring) :
  exists ws : list jsstring,
    Forall is_word ws /\
    fullText segments = join [space] ws /\
    wordCount (fullText segments) = Nat.max 1 (length ws).
Proof.
  unfold fullText. cbv zeta. rewrite replace_spaces.
  match goal with |- context [squeeze false ?t] => generalize t end. intros t.
  destruct (squeeze_words t false) as (lead & ws & trail & -> & Hws & Hlead & Htrail).
  exists ws. split; [exact Hws|].
  assert (Ht : trim (lead ++ join [space] ws ++ trail) = join [space] ws).
  { apply trim_words; [exact Hws | | exact Htrail].
    destruct Hlead as [->|[_ ->]]; [left | right]; reflexivity. }
  rewrite Ht. split; [reflexivity|].
  rewrite wordCount_runs, (ws_runs_join Hws). lia.
Qed.

(** ** The window that [extractExcerpt] chooses *)

Lemma scan_windows_best (lower : jsstring) (terms : list jsstring) (maxLen : nat)
    (fuel i bp bs bp' bs' : nat) :
  length lower <= fuel + i -> bp <= i ->
  scan_windows lower terms maxLen fuel i bp bs = Ret (bp', bs') ->
  ((bp' = bp /\ bs' = bs) \/
   (exists j, bp' = i + 30 * j /\ bp' + 100 < length lower /\
              window_score (slice lower bp' (bp' + maxLen)) terms 0 = Ret bs' /\
              bs < bs')) /\
  forall j, i + 30 * j + 100 < length lower ->
    exists s, window_score (slice lower (i + 30 * j) (i + 30 * j + maxLen)) terms 0
                = Ret s /\
              s <= bs' /\ (i + 30 * j < bp' -> s < bs').
Proof.
  revert i bp bs. induction fuel as [|fuel IH]; intros i bp bs Hfuel Hbp H.
  - cbn [scan_windows] in H.
    destruct (Nat.ltb_spec (i + 100) (length lower)) as [Hlt|Hge]; [lia|].
    injection H as <- <-. split; [left; split; reflexivity|]. intros j Hj. lia.
  - cbn [scan_windows] in H.
    destruct (Nat.ltb_spec (i + 100) (length lower)) as [Hlt|Hge].
    + destruct (window_score (slice lower i (i + maxLen)) terms 0) as [s|e] eqn:Es;
        [|discriminate H].
      cbn [bind] in H. destruct (Nat.ltb_spec bs s) as [Hs|Hs].
      * apply IH in H; [|lia|lia]. destruct H as (Hbest & Hall).
        assert (Hle : s <= bs' /\ (i < bp' -> s < bs')).
        { destruct Hbest as [[-> ->]|(j & -> & _ & _ & Hj)]; lia. }
        split.
        -- right. destruct Hbest as [[-> ->]|(j & -> & Hin & Hw & Hj)].
           ++ exists 0. rewrite Nat.mul_0_r, Nat.add_0_r. repeat split; assumption.
           ++ exists (S j). replace (i + 30 * S j) with (i + 30 + 30 * j) by lia.
              repeat split; [assumption | assumption | lia].
        -- intros [|j] Hj.
           ++ rewrite Nat.mul_0_r, Nat.add_0_r. exists s. split; [exact Es | exact Hle].
           ++ replace (i + 30 * S j) with (i + 30 + 30 * j) in * by lia.
              apply Hall. exact Hj.
      * apply IH in H; [|lia|lia]. destruct H as (Hbest & Hall).
        assert (Hle : s <= bs' /\ (i < bp' -> s < bs')).
        { destruct Hbest as [[-> ->]|(j & -> & _ & _ & Hj)]; lia. }
        split.
        -- destruct Hbest as [Hsame|(j & -> & Hin & Hw & Hj)]; [left; exact Hsame|].
           right. exists (S j). replace (i + 30 * S j) with (i + 30 + 30 * j) by lia.
           repeat split; assumption.
        -- intros [|j] Hj.
           ++ rewrite Nat.mul_0_r, Nat.add_0_r. exists s. split; [exact Es | exact Hle].
           ++ replace (i + 30 * S j) with (i + 30 + 30 * j) in * by lia.
              apply Hall. exact Hj.
    + injection H as <- <-. split; [left; split; reflexivity|]. intros j Hj. lia.
Qed.

(** X17: the window around which the excerpt is cut is the first of the
    windows examined (at the indices 0, 30, 60, ... that leave more than
    100 characters) in which the terms have the most matches: no window
    has more matches, every earlier one has fewer, and the position is 0
    when no window has a match. *)
Theorem extractExcerpt_best_window (lower : jsstring) (terms : list jsstring)
    (maxLen bestPos bestScore : nat) :
  scan_windows lower terms maxLen (length lower) 0 0 0 = Ret (bestPos, bestScore) ->
  ((bestPos = 0 /\ bestScore = 0) \/
   (exists j, bestPos = 30 * j /\ bestPos + 100 < length lower /\
              window_score (slice lower bestPos (bestPos + maxLen)) terms 0
                = Ret bestScore /\
              0 < bestScore)) /\
  forall j, 30 * j + 100 < length lower ->
    exists s, window_score (slice lower (30 * j) (30 * j + maxLen)) terms 0 = Ret s /\
              s <= bestScore /\ (30 * j < bestPos -> s < bestScore).
Proof.
  intros H. apply scan_windows_best in H; [|lia|lia].
  destruct H as (Hbest & Hall). split.
  - destruct Hbest as [Hsame|(j & Hj)]; [left; exact Hsame|].
    right. exists j. exact Hj.
  - intros j Hj. exact (Hall j Hj).
Qed.

(** With windows of 40 characters, the match at index 60 is in the window
    at 30, not in the window at 0. *)
Lemma extractExcerpt_best_window_witness :
  scan_windows late_saas_body [js "saas"] 40 (length late_saas_body) 0 0 0
    = Ret (30, 1) /\
  forall j, 30 * j + 100 < length late_saas_body ->
    exists s, window_score (slice late_saas_body (30 * j) (30 * j + 40)) [js "saas"] 0
                = Ret s /\
              s <= 1 /\ (30 * j < 30 -> s < 1).
Proof.
  split; [vm_compute; reflexivity|].
  apply (@extractExcerpt_best_window late_saas_body [js "saas"] 40 30 1).
  vm_compute. reflexivity.
Defined.






(** ** The score of a query without metacharacters *)




(** ** Text without markup *)

Lemma search_nothing (re : RegExp) (s : jsstring) (n i : nat) :
  (forall j, exec_at re s j = None) -> search re s n i = None.
Proof.
  intros H. revert i. induction n as [|n IH]; intros i; [reflexivity|].
  cbn [search]. rewrite H. apply IH.
Qed.

(** Where the pattern matches nowhere, [replace] returns the string. *)
Lemma replace_nothing (re : RegExp) (s rep : jsstring) :
  (forall j, exec_at re s j = None) -> replace re s rep = s.
Proof.
  intros H. unfold replace. replace (length s + 2) with (S (length s + 1)) by lia.
  cbn [replace_loop]. unfold exec_global. rewrite (@search_nothing re s _ _ H).
  apply slice_0_all. apply Nat.le_refl.
Qed.

Lemma markup_char_matches (ic : bool) (c d : code_unit) :
  c = ch "&" \/ c = ch "[" -> char_matches ic c d = true -> d = c.
Proof.
  intros Hc H.
  assert (Hall : forallb (fun d => implb (char_matches ic c d) (cu_eqb d c)) all_chars
                 = true).
  { destruct Hc as [-> | ->]; destruct ic; vm_compute; reflexivity. }
  rewrite forallb_forall in Hall. specialize (Hall d (all_chars_complete d)).
  rewrite H in Hall. apply cu_eqb_eq. exact Hall.
Qed.

Lemma exec_at_absent (ic : bool) (c : code_unit) (t s : jsstring) (j : nat) :
  c = ch "&" \/ c = ch "[" -> ~ In c s ->
  exec_at (global (literal (c :: t)) ic) s j = None.
Proof.
  intros Hc Hs. unfold exec_at, global.
  cbn [re_ignoreCase re_pattern p_regex p_groups repeat].
  change (literal (c :: t)) with (Seq (Chr c) (literal t)).
  cbn [ends]. unfold on_char. cbn [fst snd].
  destruct (nth_error s j) as [d|] eqn:E; [|reflexivity].
  destruct (char_matches ic c d) eqn:Em; [|reflexivity].
  apply (@markup_char_matches ic c d Hc) in Em. subst d.
  contradiction Hs. apply (nth_error_In _ _ E).
Qed.

Lemma replace_absent (ic : bool) (c : code_unit) (t s rep : jsstring) :
  c = ch "&" \/ c = ch "[" -> ~ In c s ->
  replace (global (literal (c :: t)) ic) s rep = s.
Proof.
  intros Hc Hs. apply replace_nothing. intros j. apply exec_at_absent; assumption.
Qed.

Lemma squeeze_word (w x : jsstring) :
  forallb (fun c => negb (is_ws c)) w = true ->
  squeeze false (w ++ x) = w ++ squeeze false x.
Proof.
  induction w as [|c w IH]; intros H; [reflexivity|].
  cbn [forallb] in H. apply andb_prop in H. destruct H as [Hc Hw].
  apply negb_true_iff in Hc. cbn [app squeeze]. rewrite Hc, (IH Hw). reflexivity.
Qed.

Lemma squeeze_join (ws : list jsstring) :
  Forall is_word ws -> squeeze false (join [space] ws) = join [space] ws.
Proof.
  induction ws as [|w ws IH]; intros Hws; [reflexivity|].
  rewrite join_cons. destruct (Forall_inv Hws) as [_ Hw].
  rewrite (@squeeze_word w _ Hw). f_equal.
  destruct ws as [|w' ws]; [reflexivity|].
  specialize (IH (Forall_inv_tail Hws)).
  destruct (join_head (Forall_inv_tail Hws) ltac:(discriminate)) as (c & r & Hr & Hc).
  cbn [squeeze]. replace (is_ws space) with true by reflexivity.
  rewrite Hr in *. cbn [squeeze] in *. rewrite Hc in *. rewrite IH. reflexivity.
Qed.

(** X20: a text that is already clean is stored as it is: when the
    segments, joined by spaces, are a sequence of words separated by
    single spaces that holds neither [&] nor [[], [fullText] is that
    text. *)
Theorem fullText_clean (segments ws : list jsstring) :
  join [space] segments = join [space] ws -> Forall is_word ws ->
  ~ In (ch "&") (join [space] ws) -> ~ In (ch "[") (join [space] ws) ->
  fullText segments = join [space] ws.
Proof.
  intros Hj Hws Hamp Hbr. unfold fullText. cbv zeta. rewrite Hj.
  change (js "[Music]") with (ch "[" :: js "Music]").
  change (js "[Applause]") with (ch "[" :: js "Applause]").
  change (js "&amp;") with (ch "&" :: js "amp;").
  change (js "&lt;") with (ch "&" :: js "lt;").
  change (js "&gt;") with (ch "&" :: js "gt;").
  change (js "&#39;") with (ch "&" :: js "#39;").
  change (js "&quot;") with (ch "&" :: js "quot;").
  set (t := join [space] ws) in *.
  rewrite (@replace_absent true (ch "[") (js "Music]") t []) by auto.
  rewrite (@replace_absent true (ch "[") (js "Applause]") t []) by auto.
  rewrite (@replace_absent false (ch "&") (js "amp;") t (js "&")) by auto.
  rewrite (@replace_absent false (ch "&") (js "lt;") t (js "<")) by auto.
  rewrite (@replace_absent false (ch "&") (js "gt;") t (js ">")) by auto.
  rewrite (@replace_absent false (ch "&") (js "#39;") t (js "'")) by auto.
  rewrite (@replace_absent false (ch "&") (js "quot;") t [Latin "034"%char]) by auto.
  subst t.
  rewrite replace_spaces, (squeeze_join Hws).
  pose proof (@trim_words [] [] ws Hws (or_introl eq_refl) (or_introl eq_refl)) as Ht.
  cbn [app] in Ht. rewrite app_nil_r in Ht. exact Ht.
Qed.

(** Three words, given as two segments. *)
Lemma fullText_clean_witness :
  fullText [js "we bootstrapped"; js "it"] = js "we bootstrapped it".
Proof.
  apply (@fullText_clean [js "we bootstrapped"; js "it"]
           [js "we"; js "bootstrapped"; js "it"]).
  - reflexivity.
  - repeat constructor; discriminate.
  - vm_compute. intuition discriminate.
  - vm_compute. intuition discriminate.
Defined.
